(** * multinet: the rank-augmented ordered store and the network container

    A shallow embedding of [multiplenetwork/include/datastructures.h].

    - [ObjStore] embeds the template [ObjectStore<T>]: a skip list whose
      links carry their length, stored in a heap of [Entry] cells that are
      addressed by pointers.  Null pointers are [None]; dereferencing a null
      or dangling pointer and indexing a vector out of range leave the
      computation without a result ([None]).  The [while] loops run on fuel,
      the number of allocated cells.
    - The counters ([int], [long]) are mathematical integers: signed
      overflow is undefined in C++ and needs more than 2^31 - 2 entries.
    - [random_utils::random_level] lives in [random.h], outside the
      translated sources; the level it returns is an argument of [insert].
    - [AttrStore] and [MLNet] hold the classes [AttributeStore] and
      [MLNetwork] as the header declares them; their member functions are
      defined outside the translated sources and are modelled from the
      specification. *)

From stdpp Require Import base option list gmap strings sorting.
From Stdlib Require Import ZArith Lia PrimFloat.

Local Open Scope Z_scope.

(** ** Control structures of the source *)

(** [for (int k = i; k < i + n; k++) body] *)
Fixpoint for_up {St : Type} (n i : nat) (body : nat → St → option St)
    (s : St) : option St :=
  match n with
  | O => Some s
  | S n' => s' ← body i s; for_up n' (S i) body s'
  end.

(** [for (int k = i; k >= 0; k--) body] *)
Fixpoint for_down {St : Type} (i : nat) (body : nat → St → option St)
    (s : St) : option St :=
  s' ← body i s;
  match i with
  | O => Some s'
  | S j => for_down j body s'
  end.

(** [while (cond) body], with fuel for the number of tests of [cond]. *)
Fixpoint while {St : Type} (fuel : nat) (cond : St → option bool)
    (body : St → option St) (s : St) : option St :=
  match fuel with
  | O => None
  | S fuel' =>
      b ← cond s;
      if b : bool then s' ← body s; while fuel' cond body s' else Some s
  end.

(** [v[i] = x] on a [std::vector]: no result out of range. *)
Definition vset {A : Type} (l : list A) (i : nat) (x : A) : option (list A) :=
  if decide (i < length l)%nat then Some (<[i:=x]> l) else None.

(** [const int MAX_LEVEL = 6;] *)
Definition MAX_LEVEL : nat := 6.

(** Pointers to entries. *)
Definition addr := nat.

(** Exceptions of [exceptions.h] that the translated code throws. *)
Inductive exn :=
  | ElementNotFoundException
  | DuplicateElementException
  | OperationNotSupportedException
  | WrongParameterException.

(** Outcome of a call that may throw. *)
Inductive result (A : Type) :=
  | Ok (a : A)
  | Throw (e : exn)
  | Undefined.
Arguments Ok {A} a.
Arguments Throw {A} e.
Arguments Undefined {A}.

Module ObjStore.
Section object_store.

(** [T] is the handle type (a shared pointer in every use); [NULL] is its
    null value. *)
Context {T : Type}.
Variable NULL : T.

(** [struct Entry] *)
Record Entry := mkEntry {
  value : Z;
  obj_ptr : T;
  forward : list (option addr);
  link_length : list Z
}.

(** [Entry(int level, object_id value, T obj_ptr)]: both vectors are resized
    to [level+1] value-initialised slots. *)
Definition new_Entry (lvl : nat) (v : Z) (o : T) : Entry :=
  mkEntry v o (replicate (S lvl) None) (replicate (S lvl) 0).

(** [struct ObjectStore], with the heap its entries live in. *)
Record ObjectStore := mkStore {
  heap : gmap addr Entry;
  header : addr;
  level : nat;
  num_entries : Z
}.

(** [new Entry<T>(...)] *)
Definition alloc (h : gmap addr Entry) (e : Entry) : addr * gmap addr Entry :=
  let a := fresh (dom h) in (a, <[a:=e]> h).

(** [ObjectStore()] *)
Definition create : ObjectStore :=
  let '(hd, h) := alloc ∅ (new_Entry MAX_LEVEL 0 NULL) in
  mkStore h hd 0 0.

(** *** Field accesses through a pointer *)

(** [x->forward[i]] *)
Definition get_forward (h : gmap addr Entry) (x : addr) (i : nat)
  : option (option addr) :=
  e ← h !! x; forward e !! i.

(** [x->link_length[i]] *)
Definition get_link (h : gmap addr Entry) (x : addr) (i : nat) : option Z :=
  e ← h !! x; link_length e !! i.

(** [x->value] *)
Definition get_value (h : gmap addr Entry) (x : addr) : option Z :=
  value <$> h !! x.

(** [x->obj_ptr] *)
Definition get_obj (h : gmap addr Entry) (x : addr) : option T :=
  obj_ptr <$> h !! x.

(** [x->forward[i] = p] *)
Definition set_forward (h : gmap addr Entry) (x : addr) (i : nat)
    (p : option addr) : option (gmap addr Entry) :=
  e ← h !! x;
  f ← vset (forward e) i p;
  Some (<[x := mkEntry (value e) (obj_ptr e) f (link_length e)]> h).

(** [x->link_length[i] = z] *)
Definition set_link (h : gmap addr Entry) (x : addr) (i : nat) (z : Z)
  : option (gmap addr Entry) :=
  e ← h !! x;
  l ← vset (link_length e) i z;
  Some (<[x := mkEntry (value e) (obj_ptr e) (forward e) l]> h).

(** [x->obj_ptr = o] *)
Definition set_obj (h : gmap addr Entry) (x : addr) (o : T)
  : option (gmap addr Entry) :=
  e ← h !! x;
  Some (<[x := mkEntry (value e) o (forward e) (link_length e)]> h).

(** *** Lookup *)

(** [x->forward[i] != NULL && x->forward[i]->value < search_value] *)
Definition search_cond (h : gmap addr Entry) (i : nat) (v : Z) (x : addr)
  : option bool :=
  f ← get_forward h x i;
  match f with
  | None => Some false
  | Some y => k ← get_value h y; Some (bool_decide (k < v))
  end.

(** [x = x->forward[i]] *)
Definition step (h : gmap addr Entry) (i : nat) (x : addr) : option addr :=
  f ← get_forward h x i; f.

(** The descent shared by [contains], [get] and [erase]:
<<
    for (int i = level; i >= 0; i--) {
        while (x->forward[i] != NULL && x->forward[i]->value < search_value) {
            x = x->forward[i];
        }
    }
>> *)
Definition descend (s : ObjectStore) (v : Z) : option addr :=
  for_down (level s)
    (λ i x, while (size (heap s)) (search_cond (heap s) i v) (step (heap s) i) x)
    (header s).

(** [ObjectStore<T>::contains] *)
Definition contains (s : ObjectStore) (search_value : Z) : option bool :=
  x ← descend s search_value;
  x ← get_forward (heap s) x 0;
  match x with
  | None => Some false
  | Some x => k ← get_value (heap s) x; Some (bool_decide (k = search_value))
  end.

(** [ObjectStore<T>::get] *)
Definition get (s : ObjectStore) (search_value : Z) : option T :=
  x ← descend s search_value;
  x ← get_forward (heap s) x 0;
  match x with
  | None => Some NULL
  | Some x =>
      k ← get_value (heap s) x;
      if bool_decide (k = search_value) then get_obj (heap s) x else Some NULL
  end.

(** [ObjectStore<T>::size] *)
Definition size (s : ObjectStore) : Z := num_entries s.

(** *** Lookup by rank *)

(** [x->forward[i] != NULL && x->link_length[i] + so_far <= pos + 1] *)
Definition rank_cond (h : gmap addr Entry) (i : nat) (pos : Z)
    (st : addr * Z) : option bool :=
  f ← get_forward h st.1 i;
  match f with
  | None => Some false
  | Some _ => l ← get_link h st.1 i; Some (bool_decide (l + st.2 <= pos + 1))
  end.

(** [so_far += x->link_length[i]; x = x->forward[i];] *)
Definition rank_step (h : gmap addr Entry) (i : nat) (st : addr * Z)
  : option (addr * Z) :=
  l ← get_link h st.1 i;
  y ← step h i st.1;
  Some (y, st.2 + l).

(** [ObjectStore<T>::get_at_index] *)
Definition get_at_index (s : ObjectStore) (pos : Z) : result T :=
  if bool_decide (pos < 0 ∨ pos >= num_entries s) then
    Throw ElementNotFoundException
  else
    match
      st ← for_down (level s)
        (λ i st, while (base.size (heap s)) (rank_cond (heap s) i pos)
                   (rank_step (heap s) i) st)
        (header s, 0);
      get_obj (heap s) st.1
    with
    | Some o => Ok o
    | None => Undefined
    end.

(** *** Insertion *)

(** Local variables of the search loop of [insert]. *)
Record cursor := mkCursor {
  cur : addr;
  update : list (option addr);
  skipped_positions_per_level : list Z;
  skipped_positions : Z
}.

(** Body of the [while] loop of [insert]:
<<
    skipped_positions_per_level[i] += x->link_length[i];
    skipped_positions += x->link_length[i];
    x = x->forward[i];
>> *)
Definition insert_step (h : gmap addr Entry) (i : nat) (c : cursor)
  : option cursor :=
  l ← get_link h (cur c) i;
  p ← skipped_positions_per_level c !! i;
  spl ← vset (skipped_positions_per_level c) i (p + l);
  y ← step h i (cur c);
  Some (mkCursor y (update c) spl (skipped_positions c + l)).

(** One round of the [for] loop of the search of [insert]. *)
Definition insert_level (h : gmap addr Entry) (fuel : nat) (v : Z) (i : nat)
    (c : cursor) : option cursor :=
  spl ← vset (skipped_positions_per_level c) i (skipped_positions c);
  c ← while fuel (λ c, search_cond h i v (cur c)) (insert_step h i)
        (mkCursor (cur c) (update c) spl (skipped_positions c));
  upd ← vset (update c) i (Some (cur c));
  Some (mkCursor (cur c) upd (skipped_positions_per_level c)
          (skipped_positions c)).

(** [update[i]], dereferenced. *)
Definition update_at (upd : list (option addr)) (i : nat) : option addr :=
  u ← upd !! i; u.

(** Body of
<<
    for (int i = level + 1; i <= lvl; i++) {
        update[i] = header;
        update[i]->link_length[i] = num_entries;
    }
>> *)
Definition raise_level (hd : addr) (n : Z) (i : nat)
    (st : list (option addr) * gmap addr Entry)
  : option (list (option addr) * gmap addr Entry) :=
  upd ← vset st.1 i (Some hd);
  u ← update_at upd i;
  h ← set_link st.2 u i n;
  Some (upd, h).

(** Body of
<<
    for (int i = 0; i <= lvl; i++) {
        int offset = skipped_positions-skipped_positions_per_level[i];
        x->forward[i] = update[i]->forward[i];
        if (update[i]->forward[i]==NULL)
            x->link_length[i] = num_entries - skipped_positions;
        else {
            x->link_length[i] = update[i]->link_length[i]-offset;
        }
        update[i]->forward[i] = x;
        update[i]->link_length[i] = offset+1;
    }
>> *)
Definition splice_level (x : addr) (upd : list (option addr))
    (spl : list Z) (skipped n : Z) (i : nat) (h : gmap addr Entry)
  : option (gmap addr Entry) :=
  p ← spl !! i;
  let offset := skipped - p in
  u ← update_at upd i;
  f ← get_forward h u i;
  h ← set_forward h x i f;
  f ← get_forward h u i;
  h ← match f with
      | None => set_link h x i (n - skipped)
      | Some _ => l ← get_link h u i; set_link h x i (l - offset)
      end;
  h ← set_forward h u i (Some x);
  set_link h u i (offset + 1).

(** Body of
<<
    for (int i = lvl+1; i <= level; i++) {
        update[i]->link_length[i]++;
    }
>> *)
Definition bump_level (upd : list (option addr)) (i : nat)
    (h : gmap addr Entry) : option (gmap addr Entry) :=
  u ← update_at upd i;
  l ← get_link h u i;
  set_link h u i (l + 1).

(** [ObjectStore<T>::insert]; [lvl] is the result of
    [random_utils::random_level(MAX_LEVEL,P)], which is called only when the
    key is new. *)
Definition insert (lvl : nat) (v : Z) (o : T) (s : ObjectStore)
  : option ObjectStore :=
  c ← for_down (level s) (insert_level (heap s) (base.size (heap s)) v)
        (mkCursor (header s) (replicate (S MAX_LEVEL) None)
           (replicate (S MAX_LEVEL) 0) 0);
  x ← get_forward (heap s) (cur c) 0;
  fresh_key ← match x with
              | None => Some true
              | Some x => k ← get_value (heap s) x; Some (bool_decide (k ≠ v))
              end;
  if fresh_key : bool then
    let n := num_entries s + 1 in
    '(upd, h) ← (if decide (level s < lvl)%nat then
                   for_up (lvl - level s) (S (level s))
                     (raise_level (header s) n) (update c, heap s)
                 else Some (update c, heap s));
    let level' := if decide (level s < lvl)%nat then lvl else level s in
    let '(x, h) := alloc h (new_Entry lvl v o) in
    h ← for_up (S lvl) 0
          (splice_level x upd (skipped_positions_per_level c)
             (skipped_positions c) n) h;
    h ← for_up (level' - lvl) (S lvl) (bump_level upd) h;
    Some (mkStore h (header s) level' n)
  else
    x ← x;
    h ← set_obj (heap s) x o;
    Some (mkStore h (header s) (level s) (num_entries s)).

(** *** Removal *)

(** One round of the search loop of [erase]. *)
Definition erase_level (h : gmap addr Entry) (fuel : nat) (v : Z) (i : nat)
    (st : addr * list (option addr)) : option (addr * list (option addr)) :=
  x ← while fuel (search_cond h i v) (step h i) st.1;
  upd ← vset st.2 i (Some x);
  Some (x, upd).

(** Body of
<<
    for (int i = 0; i <= level; i++) {
        if (update[i]->forward[i] != x) {
            update[i]->link_length[i]--;
        }
        else {
            update[i]->forward[i] = x->forward[i];
            update[i]->link_length[i] += x->link_length[i]-1;
        }
    }
>> *)
Definition unlink_level (x : addr) (upd : list (option addr)) (i : nat)
    (h : gmap addr Entry) : option (gmap addr Entry) :=
  u ← update_at upd i;
  f ← get_forward h u i;
  if bool_decide (f ≠ Some x) then
    l ← get_link h u i;
    set_link h u i (l - 1)
  else
    fx ← get_forward h x i;
    h ← set_forward h u i fx;
    l ← get_link h u i;
    lx ← get_link h x i;
    set_link h u i (l + (lx - 1)).

(** [while (level > 0 && header->forward[level] == NULL) level--;] *)
Fixpoint shrink_level (h : gmap addr Entry) (hd : addr) (lvl : nat)
  : option nat :=
  match lvl with
  | O => Some O
  | S l' =>
      f ← get_forward h hd lvl;
      match f with
      | None => shrink_level h hd l'
      | Some _ => Some lvl
      end
  end.

(** [ObjectStore<T>::erase] *)
Definition erase (v : Z) (s : ObjectStore) : option ObjectStore :=
  '(x, upd) ← for_down (level s) (erase_level (heap s) (base.size (heap s)) v)
                (header s, replicate (S MAX_LEVEL) None);
  x ← get_forward (heap s) x 0;
  match x with
  | None => Some s
  | Some x =>
      k ← get_value (heap s) x;
      if bool_decide (k = v) then
        h ← for_up (S (level s)) 0 (unlink_level x upd) (heap s);
        let h := delete x h in
        let n := num_entries s - 1 in
        lvl ← shrink_level h (header s) (level s);
        Some (mkStore h (header s) lvl n)
      else Some s
  end.

(** *** Iteration *)

(** [ObjectStore<T>::iterator]: the [current] pointer. *)
Definition iterator := option addr.

(** [ObjectStore<T>::begin] *)
Definition begin (s : ObjectStore) : option iterator :=
  get_forward (heap s) (header s) 0.

(** [ObjectStore<T>::end] *)
Definition end_ : iterator := None.

(** [iterator::operator*] *)
Definition deref (s : ObjectStore) (it : iterator) : option T :=
  x ← it; get_obj (heap s) x.

(** [iterator::operator++] *)
Definition next (s : ObjectStore) (it : iterator) : option iterator :=
  x ← it; get_forward (heap s) x 0.

(** [iterator::operator++(int)]: the iterator as it was, which is returned,
    and the iterator moved on. *)
Definition next_post (s : ObjectStore) (it : iterator)
  : option (iterator * iterator) :=
  it' ← next s it; Some (it, it').

(** [iterator::operator==] and [iterator::operator!=] compare the [current]
    pointers. *)
Definition iter_eq (it rhs : iterator) : bool := bool_decide (it = rhs).

Definition iter_ne (it rhs : iterator) : bool := bool_decide (it ≠ rhs).

(** [for (T o : store) out.push_back(o);] the range-based loop over a store,
    collecting the handles; [keys_of] collects [current->value] instead. *)
Fixpoint collect {A : Type} (fuel : nat) (s : ObjectStore)
    (f : gmap addr Entry → addr → option A) (it : iterator) : option (list A) :=
  match fuel with
  | O => None
  | S fuel' =>
      match it with
      | None => Some []
      | Some x =>
          o ← f (heap s) x;
          it' ← next s it;
          r ← collect fuel' s f it';
          Some (o :: r)
      end
  end.

Definition iterate (fuel : nat) (s : ObjectStore) : option (list T) :=
  it ← begin s; collect fuel s get_obj it.

Definition iterate_entries (fuel : nat) (s : ObjectStore)
  : option (list (Z * T)) :=
  it ← begin s;
  collect fuel s (λ h x, k ← get_value h x; o ← get_obj h x; Some (k, o)) it.

(** *** Destruction *)

(** [~ObjectStore()], that is [delete header;] with [~Entry() {}]: the cell
    of the header is freed; the result is the heap the store leaves. *)
Definition destroy (s : ObjectStore) : gmap addr Entry :=
  delete (header s) (heap s).

End object_store.
End ObjStore.

(** * Attribute stores

    [datastructures.h] declares [class AttributeStore] with its fields; the
    member functions are defined in a source file that is not part of the
    translated sources.  The record below is the class as declared; the
    operations are modelled from the specification of the attribute store. *)

Module AttrStore.

(** [enum attribute_type {STRING_TYPE = 0, NUMERIC_TYPE = 1};] *)
Inductive attribute_type := STRING_TYPE | NUMERIC_TYPE.

(** [class Attribute] *)
Record Attribute := mkAttribute {
  aname : string;
  atype : attribute_type
}.

(** [class AttributeStore]; a [double] is a binary64 float. *)
Record AttributeStore := mkAttributeStore {
  default_numeric : float;
  default_string : string;
  attribute_vector : list Attribute;
  attribute_ids : gmap string nat;
  string_attribute : gmap string (gmap Z string);
  numeric_attribute : gmap string (gmap Z float)
}.

(** The store as its member initialisers leave it:
    [double default_numeric = 0.0; std::string default_string = "";] *)
Definition empty : AttributeStore :=
  mkAttributeStore 0%float EmptyString [] ∅ ∅ ∅.

(** Modelled from the spec: [AttributeStore::attribute(const std::string&)],
    whose body is missing: "attribute(name) -> descriptor|absent". *)
Definition attribute (st : AttributeStore) (name : string) : option Attribute :=
  i ← attribute_ids st !! name; attribute_vector st !! i.

(** Modelled from the spec: [AttributeStore::add], whose body is missing:
    "registers a new attribute; fails with a DuplicateName error if name
    already registered in this store". *)
Definition add (name : string) (t : attribute_type) (st : AttributeStore)
  : result unit * AttributeStore :=
  match attribute st name with
  | Some _ => (Throw DuplicateElementException, st)
  | None =>
      (Ok tt,
       mkAttributeStore (default_numeric st) (default_string st)
         (attribute_vector st ++ [mkAttribute name t])
         (<[name := length (attribute_vector st)]> (attribute_ids st))
         (match t with
          | STRING_TYPE => <[name := ∅]> (string_attribute st)
          | NUMERIC_TYPE => string_attribute st
          end)
         (match t with
          | STRING_TYPE => numeric_attribute st
          | NUMERIC_TYPE => <[name := ∅]> (numeric_attribute st)
          end))
  end.

(** Modelled from the spec: [AttributeStore::setString], whose body is
    missing: "fails with NotFound if name is not registered; fails with
    TypeMismatch if the registered type does not match the setter used". *)
Definition setString (oid : Z) (name : string) (v : string)
    (st : AttributeStore) : result unit * AttributeStore :=
  match attribute st name with
  | None => (Throw ElementNotFoundException, st)
  | Some a =>
      match atype a with
      | NUMERIC_TYPE => (Throw OperationNotSupportedException, st)
      | STRING_TYPE =>
          (Ok tt,
           mkAttributeStore (default_numeric st) (default_string st)
             (attribute_vector st) (attribute_ids st)
             (<[name := <[oid := v]> (default ∅ (string_attribute st !! name))]>
                (string_attribute st))
             (numeric_attribute st))
      end
  end.

(** Modelled from the spec: [AttributeStore::setNumeric], whose body is
    missing; as [setString]. *)
Definition setNumeric (oid : Z) (name : string) (v : float)
    (st : AttributeStore) : result unit * AttributeStore :=
  match attribute st name with
  | None => (Throw ElementNotFoundException, st)
  | Some a =>
      match atype a with
      | STRING_TYPE => (Throw OperationNotSupportedException, st)
      | NUMERIC_TYPE =>
          (Ok tt,
           mkAttributeStore (default_numeric st) (default_string st)
             (attribute_vector st) (attribute_ids st)
             (string_attribute st)
             (<[name := <[oid := v]> (default ∅ (numeric_attribute st !! name))]>
                (numeric_attribute st)))
      end
  end.

(** Modelled from the spec: [AttributeStore::getString], whose body is
    missing: "fails with NotFound if name unregistered; returns a
    type-specific default if id has never been set for this attribute";
    a getter used against an attribute of the other type raises
    TypeMismatch. *)
Definition getString (oid : Z) (name : string) (st : AttributeStore)
  : result string :=
  match attribute st name with
  | None => Throw ElementNotFoundException
  | Some a =>
      match atype a with
      | NUMERIC_TYPE => Throw OperationNotSupportedException
      | STRING_TYPE =>
          match string_attribute st !! name ≫= (λ m, m !! oid) with
          | Some v => Ok v
          | None => Ok (default_string st)
          end
      end
  end.

(** Modelled from the spec: [AttributeStore::getNumeric], whose body is
    missing; as [getString]. *)
Definition getNumeric (oid : Z) (name : string) (st : AttributeStore)
  : result float :=
  match attribute st name with
  | None => Throw ElementNotFoundException
  | Some a =>
      match atype a with
      | STRING_TYPE => Throw OperationNotSupportedException
      | NUMERIC_TYPE =>
          match numeric_attribute st !! name ≫= (λ m, m !! oid) with
          | Some v => Ok v
          | None => Ok (default_numeric st)
          end
      end
  end.

(** Modelled from the spec: [AttributeStore::remove], whose body is missing:
    "deletes all values for id across all attributes in this store". *)
Definition remove (oid : Z) (st : AttributeStore) : AttributeStore :=
  mkAttributeStore (default_numeric st) (default_string st)
    (attribute_vector st) (attribute_ids st)
    (delete oid <$> string_attribute st)
    (delete oid <$> numeric_attribute st).

(** Calls on a store; a call that throws leaves the store as it is. *)
Inductive call :=
  | Add (name : string) (t : attribute_type)
  | SetString (oid : Z) (name : string) (v : string)
  | SetNumeric (oid : Z) (name : string) (v : float)
  | Remove (oid : Z).

Definition apply_call (c : call) (st : AttributeStore) : AttributeStore :=
  match c with
  | Add name t => (add name t st).2
  | SetString oid name v => (setString oid name v st).2
  | SetNumeric oid name v => (setNumeric oid name v st).2
  | Remove oid => remove oid st
  end.

Definition run_calls (cs : list call) (st : AttributeStore) : AttributeStore :=
  foldl (λ st c, apply_call c st) st cs.

Definition sets_numeric (oid : Z) (name : string) (c : call) : Prop :=
  match c with SetNumeric oid' name' _ => oid' = oid ∧ name' = name | _ => False end.

Definition sets_string (oid : Z) (name : string) (c : call) : Prop :=
  match c with SetString oid' name' _ => oid' = oid ∧ name' = name | _ => False end.

End AttrStore.

(** * The network container

    [datastructures.h] declares [class MLNetwork] and the entity classes;
    the member functions are defined in a source file that is not part of
    the translated sources.  The records are the classes as declared; an
    [ObjectStore] of shared pointers is taken by its contents, a finite map
    from the id to the entity, and a map of maps is a map on pairs.  The
    attribute stores of the network are left out: they are modelled on their
    own in [AttrStore].  The operations are modelled from the specification
    of the network container. *)

Module MLNet.

(** [const bool DEFAULT_EDGE_DIRECTIONALITY = false;] *)
Definition DEFAULT_EDGE_DIRECTIONALITY : bool := false.

(** [class actor] *)
Record actor := mkActor { actor_id : Z; actor_name : string }.

(** [class layer] *)
Record layer := mkLayer { layer_id : Z; layer_name : string }.

(** [class node] *)
Record node := mkNode {
  node_id : Z;
  node_name : string;
  node_actor : actor;
  node_layer : layer
}.

(** [class edge] *)
Record edge := mkEdge {
  edge_id : Z;
  v1 : node;
  v2 : node;
  directed : bool
}.

#[global] Instance actor_eq_dec : EqDecision actor.
Proof. solve_decision. Defined.
#[global] Instance layer_eq_dec : EqDecision layer.
Proof. solve_decision. Defined.
#[global] Instance node_eq_dec : EqDecision node.
Proof. solve_decision. Defined.
#[global] Instance edge_eq_dec : EqDecision edge.
Proof. solve_decision. Defined.

(** [class MLNetwork]: the counters and the indexes. *)
Record MLNetwork := mkNet {
  max_node_id : Z;
  max_edge_id : Z;
  max_actor_id : Z;
  max_layer_id : Z;
  edge_directionality : gmap (Z * Z) bool;
  layers_by_id : gmap Z layer;
  layers_by_name : gmap string layer;
  actors_by_id : gmap Z actor;
  actors_by_name : gmap string actor;
  nodes_by_id : gmap Z node;
  nodes_by_layer_and_id : gmap (Z * Z) node;
  nodes_by_actor_and_id : gmap (Z * Z) node;
  nodes_by_layer_and_name : gmap (Z * string) node;
  edges_by_id : gmap Z edge;
  edges_by_layers_and_id : gmap (Z * Z * Z) edge;
  edges_by_nodes : gmap (Z * Z) edge;
  neighbors_out : gmap (Z * Z) node;
  neighbors_in : gmap (Z * Z) node;
  neighbors_all : gmap (Z * Z) node
}.

(** Modelled from the spec: [MLNetwork::create], whose body is missing:
    an empty network; ids are assigned upwards from the counters. *)
Definition create : MLNetwork :=
  mkNet 0 0 0 0 ∅ ∅ ∅ ∅ ∅ ∅ ∅ ∅ ∅ ∅ ∅ ∅ ∅ ∅ ∅.

(** Modelled from the spec: [MLNetwork::add_actor(name)], whose body is
    missing: "allocates a fresh actor id ...; fails with DuplicateName if
    the name collides with an existing actor name". *)
Definition add_actor (name : string) (net : MLNetwork)
  : result actor * MLNetwork :=
  match actors_by_name net !! name with
  | Some _ => (Throw DuplicateElementException, net)
  | None =>
      let aid := max_actor_id net + 1 in
      let a := mkActor aid name in
      (Ok a,
       mkNet (max_node_id net) (max_edge_id net) aid (max_layer_id net)
         (edge_directionality net) (layers_by_id net) (layers_by_name net)
         (<[aid := a]> (actors_by_id net)) (<[name := a]> (actors_by_name net))
         (nodes_by_id net) (nodes_by_layer_and_id net)
         (nodes_by_actor_and_id net) (nodes_by_layer_and_name net)
         (edges_by_id net) (edges_by_layers_and_id net) (edges_by_nodes net)
         (neighbors_out net) (neighbors_in net) (neighbors_all net))
  end.

(** Modelled from the spec: [MLNetwork::set_directed], whose body is
    missing: "stores ... a per-ordered-pair-of-layers boolean policy". *)
Definition set_directed (l1 l2 : layer) (d : bool) (net : MLNetwork)
  : MLNetwork :=
  mkNet (max_node_id net) (max_edge_id net) (max_actor_id net)
    (max_layer_id net)
    (<[(layer_id l1, layer_id l2) := d]> (edge_directionality net))
    (layers_by_id net) (layers_by_name net)
    (actors_by_id net) (actors_by_name net)
    (nodes_by_id net) (nodes_by_layer_and_id net)
    (nodes_by_actor_and_id net) (nodes_by_layer_and_name net)
    (edges_by_id net) (edges_by_layers_and_id net) (edges_by_nodes net)
    (neighbors_out net) (neighbors_in net) (neighbors_all net).

(** Modelled from the spec: [MLNetwork::is_directed], whose body is
    missing: "reads a per-ordered-pair-of-layers boolean policy, defaulting
    to a global default when unset". *)
Definition is_directed (l1 l2 : layer) (net : MLNetwork) : bool :=
  default DEFAULT_EDGE_DIRECTIONALITY
    (edge_directionality net !! (layer_id l1, layer_id l2)).

(** Modelled from the spec: [MLNetwork::add_layer(name, directed)], whose
    body is missing: "allocates a fresh layer id; directed is the default
    edge directionality for this layer's intra-layer edges; fails with
    DuplicateName similarly". *)
Definition add_layer (name : string) (d : bool) (net : MLNetwork)
  : result layer * MLNetwork :=
  match layers_by_name net !! name with
  | Some _ => (Throw DuplicateElementException, net)
  | None =>
      let lid := max_layer_id net + 1 in
      let l := mkLayer lid name in
      (Ok l,
       set_directed l l d
         (mkNet (max_node_id net) (max_edge_id net) (max_actor_id net) lid
            (edge_directionality net)
            (<[lid := l]> (layers_by_id net)) (<[name := l]> (layers_by_name net))
            (actors_by_id net) (actors_by_name net)
            (nodes_by_id net) (nodes_by_layer_and_id net)
            (nodes_by_actor_and_id net) (nodes_by_layer_and_name net)
            (edges_by_id net) (edges_by_layers_and_id net) (edges_by_nodes net)
            (neighbors_out net) (neighbors_in net) (neighbors_all net)))
  end.

(** Modelled from the spec: [MLNetwork::add_node(name, actor, layer)], whose
    body is missing: "fails with NotFound if actor or layer is not a live
    member of this network; registers into: global node index, per-layer
    node index, per-actor node index, per-layer name index".  A handle is a
    live member when the index holds it under its id. *)
Definition add_node (name : string) (a : actor) (l : layer) (net : MLNetwork)
  : result node * MLNetwork :=
  if bool_decide (actors_by_id net !! actor_id a = Some a) &&
     bool_decide (layers_by_id net !! layer_id l = Some l) then
      let nid := max_node_id net + 1 in
      let n := mkNode nid name a l in
      (Ok n,
       mkNet nid (max_edge_id net) (max_actor_id net) (max_layer_id net)
         (edge_directionality net) (layers_by_id net) (layers_by_name net)
         (actors_by_id net) (actors_by_name net)
         (<[nid := n]> (nodes_by_id net))
         (<[(layer_id l, nid) := n]> (nodes_by_layer_and_id net))
         (<[(actor_id a, nid) := n]> (nodes_by_actor_and_id net))
         (<[(layer_id l, name) := n]> (nodes_by_layer_and_name net))
         (edges_by_id net) (edges_by_layers_and_id net) (edges_by_nodes net)
         (neighbors_out net) (neighbors_in net) (neighbors_all net))
  else (Throw ElementNotFoundException, net).

(** Modelled from the spec: [MLNetwork::get_edge(node1, node2)], whose body
    is missing: lookup in the node-pair-to-edge index; "absence returns a
    not-found sentinel, never an exception". *)
Definition get_edge (n1 n2 : node) (net : MLNetwork) : option edge :=
  edges_by_nodes net !! (node_id n1, node_id n2).

(** The duplicate test of [add_edge]: "an edge with the same effective
    (ordered or unordered) endpoint pair already exists". *)
Definition duplicate_edge (n1 n2 : node) (d : bool) (net : MLNetwork) : bool :=
  bool_decide (is_Some (get_edge n1 n2 net)) ||
  (negb d && bool_decide (is_Some (get_edge n2 n1 net))).

(** Modelled from the spec: [MLNetwork::add_edge], whose body is missing:
    "fails with NotFound if either node is absent; directionality is
    resolved via is_directed(layer(node1), layer(node2)); fails with
    DuplicateElement if an edge with the same effective endpoint pair
    already exists; on success, registers into: global edge index,
    per-(layer1,layer2) edge index, node-pair-to-edge index, and both
    endpoints' adjacency stores (out-adjacency and in-adjacency populated
    according to direction; for undirected edges both endpoints receive each
    other in both directions)".  An undirected edge is entered in the
    node-pair index under both orders, as (a,b) and (b,a) are the same
    edge. *)
Definition add_edge (n1 n2 : node) (net : MLNetwork)
  : result edge * MLNetwork :=
  if bool_decide (nodes_by_id net !! node_id n1 = Some n1) &&
     bool_decide (nodes_by_id net !! node_id n2 = Some n2) then
      let d := is_directed (node_layer n1) (node_layer n2) net in
      if duplicate_edge n1 n2 d net then (Throw DuplicateElementException, net)
      else
        let eid := max_edge_id net + 1 in
        let e := mkEdge eid n1 n2 d in
        let i1 := node_id n1 in
        let i2 := node_id n2 in
        let both {V} (x y : V) (m : gmap (Z * Z) V) : gmap (Z * Z) V :=
          <[(i2, i1) := y]> (<[(i1, i2) := x]> m) in
        (Ok e,
         mkNet (max_node_id net) eid (max_actor_id net) (max_layer_id net)
           (edge_directionality net) (layers_by_id net) (layers_by_name net)
           (actors_by_id net) (actors_by_name net)
           (nodes_by_id net) (nodes_by_layer_and_id net)
           (nodes_by_actor_and_id net) (nodes_by_layer_and_name net)
           (<[eid := e]> (edges_by_id net))
           (<[(layer_id (node_layer n1), layer_id (node_layer n2), eid) := e]>
              (edges_by_layers_and_id net))
           (if d then <[(i1, i2) := e]> (edges_by_nodes net)
            else both e e (edges_by_nodes net))
           (if d then <[(i1, i2) := n2]> (neighbors_out net)
            else both n2 n1 (neighbors_out net))
           (if d then <[(i2, i1) := n1]> (neighbors_in net)
            else both n2 n1 (neighbors_in net))
           (both n2 n1 (neighbors_all net)))
  else (Throw ElementNotFoundException, net).

(** Modelled from the spec: [MLNetwork::erase(edge)], whose body is missing:
    "removes the edge from global, per-layer-pair, and node-pair indexes,
    updates both endpoints' adjacency stores".  The endpoints of a directed
    edge stay neighbours in [neighbors_all] while the edge in the other
    direction is live. *)
Definition erase_edge (e : edge) (net : MLNetwork) : MLNetwork :=
  let i1 := node_id (v1 e) in
  let i2 := node_id (v2 e) in
  let both {V} (m : gmap (Z * Z) V) : gmap (Z * Z) V :=
    delete (i2, i1) (delete (i1, i2) m) in
  let by_nodes :=
    if directed e then delete (i1, i2) (edges_by_nodes net)
    else both (edges_by_nodes net) in
  mkNet (max_node_id net) (max_edge_id net) (max_actor_id net)
    (max_layer_id net)
    (edge_directionality net) (layers_by_id net) (layers_by_name net)
    (actors_by_id net) (actors_by_name net)
    (nodes_by_id net) (nodes_by_layer_and_id net)
    (nodes_by_actor_and_id net) (nodes_by_layer_and_name net)
    (delete (edge_id e) (edges_by_id net))
    (delete (layer_id (node_layer (v1 e)), layer_id (node_layer (v2 e)),
             edge_id e) (edges_by_layers_and_id net))
    by_nodes
    (if directed e then delete (i1, i2) (neighbors_out net)
     else both (neighbors_out net))
    (if directed e then delete (i2, i1) (neighbors_in net)
     else both (neighbors_in net))
    (if directed e && bool_decide (is_Some (by_nodes !! (i2, i1)))
     then neighbors_all net else both (neighbors_all net)).

(** The live edges that touch the node with id [i]. *)
Definition incident (i : Z) (net : MLNetwork) : list edge :=
  filter (λ e, node_id (v1 e) = i ∨ node_id (v2 e) = i)
    (map_to_list (edges_by_id net)).*2.

(** Modelled from the spec: [MLNetwork::erase(node)], whose body is missing:
    "removes the node from every index it participates in (global,
    per-layer, per-actor, per-name) ... and cascades to erase every edge
    incident to it (both incoming and outgoing) before removing the node
    itself". *)
Definition erase_node (n : node) (net : MLNetwork) : MLNetwork :=
  let net := foldl (λ net e, erase_edge e net) net (incident (node_id n) net) in
  mkNet (max_node_id net) (max_edge_id net) (max_actor_id net)
    (max_layer_id net)
    (edge_directionality net) (layers_by_id net) (layers_by_name net)
    (actors_by_id net) (actors_by_name net)
    (delete (node_id n) (nodes_by_id net))
    (delete (layer_id (node_layer n), node_id n) (nodes_by_layer_and_id net))
    (delete (actor_id (node_actor n), node_id n) (nodes_by_actor_and_id net))
    (delete (layer_id (node_layer n), node_name n)
       (nodes_by_layer_and_name net))
    (edges_by_id net) (edges_by_layers_and_id net) (edges_by_nodes net)
    (neighbors_out net) (neighbors_in net) (neighbors_all net).

(** The live nodes of the actor with id [i]. *)
Definition owned (i : Z) (net : MLNetwork) : list node :=
  filter (λ n, actor_id (node_actor n) = i) (map_to_list (nodes_by_id net)).*2.

(** Modelled from the spec: [MLNetwork::erase(actor)], which the header does
    not declare and the test calls: "actor/layer deletion, if added, must
    cascade to all their nodes"; "erase an actor: actor count drops ... and
    all nodes owned by that actor disappear". *)
Definition erase_actor (a : actor) (net : MLNetwork) : MLNetwork :=
  let net := foldl (λ net n, erase_node n net) net (owned (actor_id a) net) in
  mkNet (max_node_id net) (max_edge_id net) (max_actor_id net)
    (max_layer_id net)
    (edge_directionality net) (layers_by_id net) (layers_by_name net)
    (delete (actor_id a) (actors_by_id net))
    (delete (actor_name a) (actors_by_name net))
    (nodes_by_id net) (nodes_by_layer_and_id net)
    (nodes_by_actor_and_id net) (nodes_by_layer_and_name net)
    (edges_by_id net) (edges_by_layers_and_id net) (edges_by_nodes net)
    (neighbors_out net) (neighbors_in net) (neighbors_all net).

(** The live nodes of the layer with id [i]. *)
Definition located (i : Z) (net : MLNetwork) : list node :=
  filter (λ n, layer_id (node_layer n) = i) (map_to_list (nodes_by_id net)).*2.

(** Modelled from the spec: [MLNetwork::erase(layer)], as [erase(actor)]:
    "erase a layer: layer count drops ... and all nodes in that layer
    disappear". *)
Definition erase_layer (l : layer) (net : MLNetwork) : MLNetwork :=
  let net := foldl (λ net n, erase_node n net) net (located (layer_id l) net) in
  mkNet (max_node_id net) (max_edge_id net) (max_actor_id net)
    (max_layer_id net)
    (edge_directionality net)
    (delete (layer_id l) (layers_by_id net))
    (delete (layer_name l) (layers_by_name net))
    (actors_by_id net) (actors_by_name net)
    (nodes_by_id net) (nodes_by_layer_and_id net)
    (nodes_by_actor_and_id net) (nodes_by_layer_and_name net)
    (edges_by_id net) (edges_by_layers_and_id net) (edges_by_nodes net)
    (neighbors_out net) (neighbors_in net) (neighbors_all net).

(** Calls in sequence; the first exception ends the sequence. *)
Definition netcall (A : Type) : Type := MLNetwork → result A * MLNetwork.

#[global] Instance netcall_bind : MBind netcall := λ A B f m net,
  match m net with
  | (Ok a, net') => f a net'
  | (Throw e, net') => (Throw e, net')
  | (Undefined, net') => (Undefined, net')
  end.

#[global] Instance netcall_ret : MRet netcall := λ A a net, (Ok a, net).

Definition only (f : MLNetwork → MLNetwork) : netcall unit :=
  λ net, (Ok tt, f net).

(** The calls of [testMLNetwork.cpp] that build the network; the nodes are
    named here, where the test lets the network name them. *)
Definition scenario : netcall (actor * layer * node * edge) :=
  a1 ← add_actor "a1"; a2 ← add_actor "a2"; a3 ← add_actor "Matteo";
  l1 ← add_layer "l1" false; l2 ← add_layer "l2" false;
  l3 ← add_layer "Facebook" true;
  _ ← only (set_directed l2 l3 true);
  n1v0 ← add_node "n1v0" a1 l1; n1v1 ← add_node "n1v1" a2 l1;
  n1v2 ← add_node "n1v2" a3 l1;
  n2v0 ← add_node "n2v0" a1 l2; n2v1 ← add_node "n2v1" a2 l2;
  n2v2 ← add_node "n2v2" a3 l2;
  n3v0 ← add_node "n3v0" a1 l3; n3v1 ← add_node "n3v1" a2 l3;
  n3v2 ← add_node "n3v2" a3 l3;
  e1 ← (add_edge n1v0 n1v1 : netcall edge); e2 ← (add_edge n2v0 n2v1 : netcall edge);
  e3 ← (add_edge n2v1 n2v2 : netcall edge); e4 ← (add_edge n3v0 n3v2 : netcall edge);
  e5 ← (add_edge n3v2 n3v1 : netcall edge); e6 ← (add_edge n2v2 n3v1 : netcall edge);
  mret (a1, l1, n3v2, e3).

Definition counts (net : MLNetwork) : nat * nat * nat * nat :=
  (base.size (actors_by_id net), base.size (layers_by_id net),
   base.size (nodes_by_id net),
   base.size (edges_by_id net)).

End MLNet.

(** * Utilities

    The function templates that [utils.h] defines.  A [std::unordered_set]
    is a finite set; a loop over it meets its elements once each, in an
    order that the container chooses, which the loops below take as a
    list.  What is written to [std::cout] is appended to a string. *)

Module Utils.

Section sets.
Context `{Countable T}.

(** [std::unordered_set<T>::count]: the number of elements equal to [l],
    which is 1 or 0. *)
Definition count (s : gset T) (l : T) : Z := if decide (l ∈ s) then 1 else 0.

(** [intersect], with the order [order1] of the loop over [set1]:
<<
    std::unordered_set<T> result;
    for (T l: set1) {
        if (set2.count(l)==1) {
            result.insert(l);
        }
    }
    return result;
>> *)
Definition intersect_in (order1 : list T) (set2 : gset T) : gset T :=
  foldl (λ result l,
           if bool_decide (count set2 l = 1) then {[l]} ∪ result else result)
    ∅ order1.

Definition intersect (set1 set2 : gset T) : gset T :=
  intersect_in (elements set1) set2.

(** [result.insert(first, last)]: the elements of the range are inserted
    one by one. *)
Definition insert_range (order : list T) (result : gset T) : gset T :=
  foldl (λ result l, {[l]} ∪ result) result order.

(** [set_union]:
<<
    std::unordered_set<T> result;
    result.insert(set1.begin(), set1.end());
    result.insert(set2.begin(), set2.end());
    return result;
>> *)
Definition set_union_in (order1 order2 : list T) : gset T :=
  insert_range order2 (insert_range order1 ∅).

Definition set_union (set1 set2 : gset T) : gset T :=
  set_union_in (elements set1) (elements set2).

End sets.

Section print.
Context {T : Type}.

(** [operator<<] of [T] on a stream. *)
Variable show : T → string.

(** [std::endl], but for the flush. *)
Definition endl : string :=
  String (Ascii.Ascii false true false true false false false false) EmptyString.

(** [print_set]; [input] lists the [std::set] in its order, and an element
    is at [input.begin()] when its position is 0:
<<
    for (it=input.begin(); it!=input.end(); ++it) {
        if (it!=input.begin()) std::cout << ",";
        std::cout << ( *it );
    }
    std::cout << std::endl;
>> *)
Definition print_elem (cout : string) (it : nat * T) : string :=
  let cout := if bool_decide (it.1 ≠ 0%nat) then cout +:+ "," else cout in
  cout +:+ show it.2.

Definition print_set (input : list T) (cout : string) : string :=
  foldl print_elem cout (imap pair input) +:+ endl.

End print.

End Utils.

Import ObjStore.
Local Coercion Z.of_nat : nat >-> Z.

(** ** Rules for the loops *)

Section loops.
Context {St : Type}.

Lemma while_rule (I : nat → St → Prop) cond body :
  (∀ n s, I n s → ∃ b, cond s = Some b ∧
      (b = true → ∃ s' n', body s = Some s' ∧ I n' s' ∧ (n' < n)%nat)) →
  ∀ fuel n s, I n s → (n < fuel)%nat →
  ∃ s' n', while fuel cond body s = Some s' ∧ I n' s' ∧ cond s' = Some false.
Proof.
  intros Hstep fuel. induction fuel as [|fuel IH]; intros n s Hs Hm; [lia|].
  destruct (Hstep n s Hs) as (b & Hc & Hb). simpl. rewrite Hc. simpl.
  destruct b.
  - destruct (Hb eq_refl) as (s' & n' & Hbody & Hs' & Hlt). rewrite Hbody.
    simpl. apply (IH n'); [done|lia].
  - eauto.
Qed.

Lemma for_down_rule (P Q : nat → St → Prop) body n :
  (∀ i s, (i ≤ n)%nat → P i s → ∃ s', body i s = Some s' ∧ Q i s') →
  (∀ i s, (S i ≤ n)%nat → Q (S i) s → P i s) →
  ∀ s, P n s → ∃ s', for_down n body s = Some s' ∧ Q 0%nat s'.
Proof.
  induction n as [|n IH]; intros Hbody Hnext s Hs.
  - destruct (Hbody 0%nat s) as (s' & Hb & Hq); [lia|done|].
    exists s'. simpl. rewrite Hb. done.
  - destruct (Hbody (S n) s) as (s' & Hb & Hq); [lia|done|].
    simpl. rewrite Hb. simpl. apply IH.
    + intros i s0 Hi. apply Hbody. lia.
    + intros i s0 Hi. apply Hnext. lia.
    + apply Hnext; [lia|done].
Qed.

Lemma for_up_rule (I : nat → St → Prop) body n :
  ∀ i,
  (∀ k s, (i ≤ k < i + n)%nat → I k s → ∃ s', body k s = Some s' ∧ I (S k) s') →
  ∀ s, I i s → ∃ s', for_up n i body s = Some s' ∧ I (i + n)%nat s'.
Proof.
  induction n as [|n IH]; intros i Hbody s Hs.
  - exists s. rewrite Nat.add_0_r. done.
  - destruct (Hbody i s) as (s' & Hb & Hi); [lia|done|].
    simpl. rewrite Hb. simpl.
    replace (i + S n)%nat with (S i + n)%nat by lia.
    apply IH; [|done]. intros k s0 Hk. apply Hbody. lia.
Qed.

End loops.

Lemma vset_Some {A} (l : list A) i x :
  (i < length l)%nat → vset l i x = Some (<[i:=x]> l).
Proof. intros. unfold vset. by rewrite decide_True. Qed.

(** ** The abstract view: towers in key order *)

(** An entry seen from outside: its address, key and top level. *)
Record anode := mkNode { na : addr; nk : Z; nh : nat }.

(** The first tower of [l] reaching level [j], and its distance. *)
Fixpoint first_at (j : nat) (l : list anode) : option addr :=
  match l with
  | [] => None
  | nd :: r => if decide (j ≤ nh nd)%nat then Some (na nd) else first_at j r
  end.

Fixpoint dist_at (j : nat) (l : list anode) : Z :=
  match l with
  | [] => 1
  | nd :: r => if decide (j ≤ nh nd)%nat then 1 else 1 + dist_at j r
  end.

Definition low (j : nat) (nd : anode) : Prop := (nh nd < j)%nat.

Lemma first_at_None j l : first_at j l = None ↔ Forall (low j) l.
Proof.
  unfold low. induction l as [|nd r IH]; simpl.
  - split; [constructor|done].
  - case_decide.
    + split; [done|]. intros H'. inversion H'; subst; lia.
    + rewrite IH. split; [intros; constructor; [lia|done]|].
      by inversion 1.
Qed.

Lemma dist_at_low j l : Forall (low j) l → dist_at j l = length l + 1.
Proof.
  unfold low. induction 1 as [|nd r Hnd Hr IH]; simpl; [done|].
  rewrite decide_False by lia. lia.
Qed.

Lemma dist_at_pos j l : 1 ≤ dist_at j l.
Proof. induction l; simpl; [lia|]. case_decide; lia. Qed.

Lemma first_at_app_low j l1 l2 :
  Forall (low j) l1 → first_at j (l1 ++ l2) = first_at j l2.
Proof.
  unfold low. induction 1; simpl; [done|]. by rewrite decide_False by lia.
Qed.

Lemma dist_at_app_low j l1 l2 :
  Forall (low j) l1 → dist_at j (l1 ++ l2) = length l1 + dist_at j l2.
Proof.
  unfold low. induction 1 as [|nd r Hnd Hr IH]; simpl; [lia|].
  rewrite decide_False by lia. lia.
Qed.

Lemma first_at_app_tall j l1 l2 y :
  first_at j l1 = Some y → first_at j (l1 ++ l2) = Some y.
Proof.
  induction l1 as [|nd r IH]; simpl; [done|]. case_decide; auto.
Qed.

Lemma dist_at_app_tall j l1 l2 y :
  first_at j l1 = Some y → dist_at j (l1 ++ l2) = dist_at j l1.
Proof.
  induction l1 as [|nd r IH]; simpl; [done|]. case_decide; [done|].
  intros H'. by rewrite IH.
Qed.

Lemma first_at_Some j l y :
  first_at j l = Some y →
  ∃ l1 nd l2, l = l1 ++ nd :: l2 ∧ Forall (low j) l1 ∧ (j ≤ nh nd)%nat ∧
              na nd = y ∧ dist_at j l = length l1 + 1.
Proof.
  induction l as [|nd r IH]; simpl; [done|]. case_decide.
  - intros [= <-]. exists [], nd, r. repeat split; auto.
  - intros Hy. destruct (IH Hy) as (l1 & nd' & l2 & -> & Hl1 & Hnd' & <- & Hd).
    exists (nd :: l1), nd', l2. repeat split; auto.
    + constructor; [unfold low; lia|done].
    + rewrite Hd. simpl. lia.
Qed.

Lemma first_at_cons_tall j nd r :
  (j ≤ nh nd)%nat → first_at j (nd :: r) = Some (na nd) ∧ dist_at j (nd :: r) = 1.
Proof. intros. simpl. by rewrite !decide_True. Qed.

(** Two ways of cutting one list at an element. *)
Lemma app_cons_cases {A} (l1 l2 k1 k2 : list A) (x y : A) :
  l1 ++ x :: l2 = k1 ++ y :: k2 →
  (∃ m, k1 = l1 ++ x :: m ∧ l2 = m ++ y :: k2) ∨
  (l1 = k1 ∧ x = y ∧ l2 = k2) ∨
  (∃ m, l1 = k1 ++ y :: m ∧ k2 = m ++ x :: l2).
Proof.
  revert k1. induction l1 as [|a l1 IH]; intros [|b k1]; simpl; intros [= ? H']; subst.
  - right; left; done.
  - left. by exists k1.
  - right; right. by exists l1.
  - destruct (IH _ H') as [(m & -> & ->)|[(-> & -> & ->)|(m & -> & ->)]].
    + left. by exists m.
    + right; left; done.
    + right; right. by exists m.
Qed.

(** ** What the heap is observed through *)

Section heap.
Context {T : Type}.
Implicit Types h : gmap addr (@Entry T).

(** Key and vector sizes of a cell. *)
Definition get_shape h (a : addr) : option (Z * nat * nat) :=
  e ← h !! a; Some (value e, length (forward e), length (link_length e)).

(** The cells of [h'] are those of [h], with their keys, handles and sizes. *)
Definition frame h h' : Prop :=
  dom h' = dom h ∧
  ∀ a, get_shape h' a = get_shape h a ∧ get_obj h' a = get_obj h a.

Lemma frame_refl h : frame h h.
Proof. by split. Qed.

Lemma frame_trans h1 h2 h3 : frame h1 h2 → frame h2 h3 → frame h1 h3.
Proof.
  intros [Hd1 H1] [Hd2 H2]. split; [congruence|]. intros a.
  destruct (H1 a), (H2 a). split; congruence.
Qed.

Lemma get_value_shape h a k n m :
  get_shape h a = Some (k, n, m) → get_value h a = Some k.
Proof.
  unfold get_shape, get_value. destruct (h !! a); simpl; [|done]. by intros [= -> _ _].
Qed.

Lemma set_forward_ok h x i p k n m :
  get_shape h x = Some (k, n, m) → (i < n)%nat →
  ∃ h', set_forward h x i p = Some h' ∧ frame h h' ∧
    (∀ a j, get_link h' a j = get_link h a j) ∧
    (∀ a j, get_forward h' a j =
             if decide (a = x ∧ j = i) then Some p else get_forward h a j).
Proof.
  unfold get_shape, set_forward. destruct (h !! x) as [e|] eqn:He; simpl; [|done].
  intros [= <- <- <-] Hi. rewrite vset_Some by done. simpl.
  eexists; split; [done|]. split; [split|split].
  - rewrite dom_insert_L. apply elem_of_dom_2 in He. set_solver.
  - intros a. unfold get_shape, get_obj.
    destruct (decide (a = x)) as [->|Hne].
    + rewrite lookup_insert_eq, He. simpl. by rewrite length_insert.
    + by rewrite lookup_insert_ne.
  - intros a j. unfold get_link. destruct (decide (a = x)) as [->|Hne].
    + by rewrite lookup_insert_eq, He.
    + by rewrite lookup_insert_ne.
  - intros a j. unfold get_forward. destruct (decide (a = x)) as [->|Hne].
    + rewrite lookup_insert_eq, He. simpl. case_decide as Hd.
      * destruct Hd as [_ ->]. by rewrite list_lookup_insert_eq.
      * rewrite list_lookup_insert_ne; [done|]. naive_solver.
    + rewrite lookup_insert_ne by done. rewrite decide_False; [done|naive_solver].
Qed.

Lemma set_link_ok h x i z k n m :
  get_shape h x = Some (k, n, m) → (i < m)%nat →
  ∃ h', set_link h x i z = Some h' ∧ frame h h' ∧
    (∀ a j, get_forward h' a j = get_forward h a j) ∧
    (∀ a j, get_link h' a j =
             if decide (a = x ∧ j = i) then Some z else get_link h a j).
Proof.
  unfold get_shape, set_link. destruct (h !! x) as [e|] eqn:He; simpl; [|done].
  intros [= <- <- <-] Hi. rewrite vset_Some by done. simpl.
  eexists; split; [done|]. split; [split|split].
  - rewrite dom_insert_L. apply elem_of_dom_2 in He. set_solver.
  - intros a. unfold get_shape, get_obj.
    destruct (decide (a = x)) as [->|Hne].
    + rewrite lookup_insert_eq, He. simpl. by rewrite length_insert.
    + by rewrite lookup_insert_ne.
  - intros a j. unfold get_forward. destruct (decide (a = x)) as [->|Hne].
    + by rewrite lookup_insert_eq, He.
    + by rewrite lookup_insert_ne.
  - intros a j. unfold get_link. destruct (decide (a = x)) as [->|Hne].
    + rewrite lookup_insert_eq, He. simpl. case_decide as Hd.
      * destruct Hd as [_ ->]. by rewrite list_lookup_insert_eq.
      * rewrite list_lookup_insert_ne; [done|]. naive_solver.
    + rewrite lookup_insert_ne by done. rewrite decide_False; [done|naive_solver].
Qed.

Lemma set_obj_ok h x o k n m :
  get_shape h x = Some (k, n, m) →
  ∃ h', set_obj h x o = Some h' ∧ dom h' = dom h ∧
    (∀ a, get_shape h' a = get_shape h a) ∧
    (∀ a j, get_forward h' a j = get_forward h a j) ∧
    (∀ a j, get_link h' a j = get_link h a j) ∧
    (∀ a, get_obj h' a = if decide (a = x) then Some o else get_obj h a).
Proof.
  unfold get_shape, set_obj. destruct (h !! x) as [e|] eqn:He; simpl; [|done].
  intros _. eexists; split; [done|]. repeat split.
  - rewrite dom_insert_L. apply elem_of_dom_2 in He. set_solver.
  - intros a. unfold get_shape. destruct (decide (a = x)) as [->|Hne].
    + by rewrite lookup_insert_eq, He.
    + by rewrite lookup_insert_ne.
  - intros a j. unfold get_forward. destruct (decide (a = x)) as [->|Hne].
    + by rewrite lookup_insert_eq, He.
    + by rewrite lookup_insert_ne.
  - intros a j. unfold get_link. destruct (decide (a = x)) as [->|Hne].
    + by rewrite lookup_insert_eq, He.
    + by rewrite lookup_insert_ne.
  - intros a. unfold get_obj. case_decide as Hd.
    + subst. by rewrite lookup_insert_eq.
    + by rewrite lookup_insert_ne.
Qed.

End heap.

(** ** The representation invariant *)

Section invariant.
Context {T : Type}.
Implicit Types (h : gmap addr (@Entry T)) (s : @ObjectStore T).

(** The cell of a tower holds its key and vectors of its height. *)
Definition cell_ok h (nd : anode) : Prop :=
  get_shape h (na nd) = Some (nk nd, S (nh nd), S (nh nd)).

(** At level [j], the link of [nd] goes to the first tower of [R] that
    reaches [j] and carries its distance; it is null, with the distance to
    the end, when there is none. *)
Definition link_ok h (j : nat) (nd : anode) (R : list anode) : Prop :=
  (j ≤ nh nd)%nat →
  get_forward h (na nd) j = Some (first_at j R) ∧
  get_link h (na nd) j = Some (dist_at j R).

Definition level_ok h (j : nat) (chain : list anode) : Prop :=
  ∀ A nd R, chain = A ++ nd :: R → link_ok h j nd R.

Definition hd_node s : anode := mkNode (header s) 0 MAX_LEVEL.

Definition key_lt (a b : anode) : Prop := nk a < nk b.

Record Inv s (ns : list anode) : Prop := {
  inv_nodup : NoDup (header s :: (na <$> ns));
  inv_dom : dom (heap s) = list_to_set (header s :: (na <$> ns));
  inv_level : (level s ≤ MAX_LEVEL)%nat;
  inv_header : cell_ok (heap s) (hd_node s);
  inv_cells : Forall (cell_ok (heap s)) ns;
  inv_heights : Forall (λ nd, nh nd ≤ level s)%nat ns;
  inv_sorted : StronglySorted key_lt ns;
  inv_links : ∀ j, (j ≤ level s)%nat → level_ok (heap s) j (hd_node s :: ns);
  inv_top : ∀ j, (level s < j ≤ MAX_LEVEL)%nat →
            get_forward (heap s) (header s) j = Some None;
  inv_size : num_entries s = length ns
}.

Lemma Inv_fuel s ns : Inv s ns → base.size (heap s) = S (length ns).
Proof.
  intros H'. rewrite <-size_dom, (inv_dom _ _ H').
  rewrite size_list_to_set by apply H'. simpl. by rewrite length_fmap.
Qed.

(** The towers below and from a key. *)
Lemma sorted_split (ns : list anode) (v : Z) :
  StronglySorted key_lt ns →
  ∃ pre post, ns = pre ++ post ∧
    Forall (λ n, nk n < v) pre ∧ Forall (λ n, v ≤ nk n) post.
Proof.
  induction 1 as [|nd r Hr IH Hnd].
  - exists [], []. by repeat split.
  - destruct (decide (nk nd < v)) as [Hlt|Hge].
    + destruct IH as (pre & post & -> & Hpre & Hpost).
      exists (nd :: pre), post. repeat split; [by constructor|done].
    + exists [], (nd :: r). repeat split; [constructor|].
      constructor; [lia|]. eapply Forall_impl; [exact Hnd|].
      unfold key_lt. simpl. intros; lia.
Qed.

(** [u] is the last tower of [L] reaching level [j]; it sits at position [p]. *)
Definition upd_ok (L : list anode) (j : nat) (u : addr) (p : Z) : Prop :=
  ∃ A nd B, L = A ++ nd :: B ∧ u = na nd ∧ (j ≤ nh nd)%nat ∧
            Forall (low j) B ∧ p = length A.

Lemma low_0_nil (B : list anode) : Forall (low 0) B → B = [].
Proof. destruct 1 as [|nd ? Hnd]; [done|]. unfold low in Hnd. lia. Qed.

Lemma cons_split_suffix {A} (x : A) l l1 y l2 :
  x :: l = l1 ++ y :: l2 → ∃ l0, l = l0 ++ l2.
Proof.
  destruct l1 as [|a l1]; simpl; intros [= -> ->].
  - by exists [].
  - exists (l1 ++ [y]). by rewrite <-app_assoc.
Qed.

Section search.
Variables (h : gmap addr (@Entry T)) (j : nat) (v : Z).
Variables (hdn : anode) (pre post : list anode).
Hypothesis Hlinks : level_ok h j (hdn :: pre ++ post).
Hypothesis Hcells : Forall (cell_ok h) (pre ++ post).
Hypothesis Hpre : Forall (λ n, nk n < v) pre.
Hypothesis Hpost : Forall (λ n, v ≤ nk n) post.

(** One test of the search loop, from a tower of [hdn :: pre]. *)
Lemma search_test A nd B :
  hdn :: pre = A ++ nd :: B → (j ≤ nh nd)%nat →
  get_forward h (na nd) j = Some (first_at j (B ++ post)) ∧
  get_link h (na nd) j = Some (dist_at j (B ++ post)) ∧
  ((Forall (low j) B ∧ search_cond h j v (na nd) = Some false) ∨
   (∃ B1 nd' B2, B = B1 ++ nd' :: B2 ∧ Forall (low j) B1 ∧
      (j ≤ nh nd')%nat ∧ first_at j (B ++ post) = Some (na nd') ∧
      dist_at j (B ++ post) = length B1 + 1 ∧
      search_cond h j v (na nd) = Some true)).
Proof.
  intros Hsplit Hj.
  destruct (Hlinks A nd (B ++ post)) as [Hf Hl]; [|done|].
  { rewrite app_comm_cons, Hsplit, <-app_assoc. done. }
  split; [done|]. split; [done|].
  destruct (cons_split_suffix _ _ _ _ _ Hsplit) as (A' & HA').
  unfold search_cond. rewrite Hf. simpl.
  destruct (first_at j B) as [y|] eqn:HB.
  - right. destruct (first_at_Some _ _ _ HB) as (B1 & nd' & B2 & -> & ? & ? & <- & Hd).
    exists B1, nd', B2.
    rewrite (first_at_app_tall _ _ _ _ HB), (dist_at_app_tall _ _ _ _ HB).
    repeat split; try done.
    assert (nd' ∈ pre) as Hin by (rewrite HA'; set_solver).
    assert (cell_ok h nd') as Hc.
    { rewrite Forall_forall in Hcells. apply Hcells. set_solver. }
    rewrite (get_value_shape _ _ _ _ _ Hc). simpl.
    rewrite Forall_forall in Hpre. by rewrite bool_decide_eq_true_2 by auto.
  - left. apply first_at_None in HB. split; [done|].
    rewrite first_at_app_low by done.
    destruct (first_at j post) as [z|] eqn:Hz; [|done].
    destruct (first_at_Some _ _ _ Hz) as (B1 & nd' & B2 & Hp & ? & ? & <- & Hd).
    assert (nd' ∈ post) as Hin by (rewrite Hp; set_solver).
    assert (cell_ok h nd') as Hc.
    { rewrite Forall_forall in Hcells. apply Hcells. set_solver. }
    rewrite (get_value_shape _ _ _ _ _ Hc). simpl.
    rewrite Forall_forall in Hpost. specialize (Hpost _ Hin).
    by rewrite bool_decide_eq_false_2 by lia.
Qed.

(** The [while] loop of [insert] at level [j]. *)
Lemma insert_walk fuel upd0 spl0 c A nd B :
  hdn :: pre = A ++ nd :: B → (j ≤ nh nd)%nat → (length B < fuel)%nat →
  (j < length spl0)%nat →
  c = mkCursor (na nd) upd0 (<[j:=Z.of_nat (length A)]> spl0) (length A) →
  ∃ c', while fuel (λ c, search_cond h j v (cur c)) (insert_step h j) c = Some c' ∧
        upd_ok (hdn :: pre) j (cur c') (skipped_positions c') ∧
        update c' = upd0 ∧
        skipped_positions_per_level c' = <[j:=skipped_positions c']> spl0.
Proof.
  intros Hsplit Hj Hfuel Hlen ->.
  set (I := λ (n : nat) (c : cursor),
    ∃ A nd B, hdn :: pre = A ++ nd :: B ∧ (j ≤ nh nd)%nat ∧ n = length B ∧
      c = mkCursor (na nd) upd0 (<[j:=Z.of_nat (length A)]> spl0) (length A)).
  destruct (while_rule I (λ c, search_cond h j v (cur c)) (insert_step h j))
    with (fuel := fuel) (n := length B)
         (s := mkCursor (na nd) upd0 (<[j:=Z.of_nat (length A)]> spl0) (length A))
    as (c' & n' & Hw & (A' & nd' & B' & HA' & Hj' & -> & ->) & Hc); [| |done|].
  - clear Hsplit Hj Hfuel. intros n c (A0 & nd0 & B0 & Hsplit & Hj & -> & ->). simpl.
    clear A nd B. rename A0 into A, nd0 into nd, B0 into B.
    destruct (search_test A nd B Hsplit Hj) as (Hf & Hl & [[Hlow Hc]|Hc]).
    { exists false. split; [done|]. done. }
    destruct Hc as (B1 & nd' & B2 & -> & Hlow & Hj' & Hfa & Hda & Hc).
    exists true. split; [done|]. intros _.
    unfold insert_step, step. simpl. rewrite Hl, Hf, Hfa, Hda. simpl.
    rewrite list_lookup_insert_eq by done. simpl.
    rewrite vset_Some by (by rewrite length_insert). simpl.
    eexists _, (length B2). split; [done|]. split.
    + exists (A ++ nd :: B1), nd', B2. split; [by rewrite <-app_assoc|].
      split; [done|]. split; [done|].
      rewrite list_insert_insert_eq, length_app. simpl.
      replace (Z.of_nat (length A) + (Z.of_nat (length B1) + 1))
        with (Z.of_nat (length A + S (length B1))) by lia. done.
    + rewrite length_app. simpl. lia.
  - exists A, nd, B. done.
  - exists (mkCursor (na nd') upd0 (<[j:=Z.of_nat (length A')]> spl0) (length A')).
    split; [done|]. simpl in *. split; [|done].
    destruct (search_test A' nd' B' HA' Hj') as (_ & _ & [[Hlow _]|Hc']).
    + by exists A', nd', B'.
    + destruct Hc' as (? & ? & ? & _ & _ & _ & _ & _ & Hc'). congruence.
Qed.

(** One round of the search of [insert]. *)
Lemma insert_level_ok fuel c A nd B :
  hdn :: pre = A ++ nd :: B → (j ≤ nh nd)%nat → (length B < fuel)%nat →
  (j < length (skipped_positions_per_level c))%nat →
  (j < length (update c))%nat →
  cur c = na nd → skipped_positions c = length A →
  ∃ c', insert_level h fuel v j c = Some c' ∧
        upd_ok (hdn :: pre) j (cur c') (skipped_positions c') ∧
        update c' = <[j:=Some (cur c')]> (update c) ∧
        skipped_positions_per_level c' =
          <[j:=skipped_positions c']> (skipped_positions_per_level c).
Proof.
  intros Hsplit Hj Hfuel Hl1 Hl2 Hcur Hsk. unfold insert_level.
  rewrite vset_Some by done. simpl. rewrite Hcur, Hsk.
  destruct (insert_walk fuel (update c) (skipped_positions_per_level c) _
              A nd B Hsplit Hj Hfuel Hl1 eq_refl) as (c' & -> & Hu & Hupd & Hspl).
  simpl. rewrite Hupd, vset_Some by done. simpl.
  eexists; split; [done|]. simpl. by rewrite Hspl.
Qed.

End search.

(** The searches of [erase], [contains] and [get] visit the entries that the
    search of [insert] visits. *)
Lemma while_cur h i v fuel (c c' : cursor) :
  while fuel (λ c, search_cond h i v (cur c)) (insert_step h i) c = Some c' →
  while fuel (search_cond h i v) (step h i) (cur c) = Some (cur c') ∧
  update c' = update c.
Proof.
  revert c. induction fuel as [|fuel IH]; intros c; simpl; [done|].
  destruct (search_cond h i v (cur c)) as [[]|]; simpl; [|by intros [= ->]|done].
  destruct (insert_step h i c) as [c1|] eqn:Hs; simpl; [|done].
  intros Hw. apply IH in Hw. unfold insert_step in Hs.
  destruct (get_link h (cur c) i); simpl in Hs; [|done].
  destruct (skipped_positions_per_level c !! i); simpl in Hs; [|done].
  destruct (vset _ _ _); simpl in Hs; [|done].
  destruct (step h i (cur c)) as [y|]; simpl in Hs; [|done].
  injection Hs as <-. done.
Qed.

Lemma erase_level_cur h fuel v i (c c' : cursor) :
  insert_level h fuel v i c = Some c' →
  erase_level h fuel v i (cur c, update c) = Some (cur c', update c').
Proof.
  unfold insert_level, erase_level. simpl.
  destruct (vset (skipped_positions_per_level c) i _) as [spl|]; simpl; [|done].
  destruct (while fuel _ (insert_step h i) _) as [c1|] eqn:Hw; simpl; [|done].
  apply while_cur in Hw as [Hw Hupd]. simpl in Hw, Hupd. rewrite Hw. simpl.
  rewrite Hupd. destruct (vset (update c) i _); simpl; [|done].
  by intros [= <-].
Qed.

Lemma descend_level_cur h fuel v i (c c' : cursor) :
  insert_level h fuel v i c = Some c' →
  while fuel (search_cond h i v) (step h i) (cur c) = Some (cur c').
Proof.
  intros Hc. apply erase_level_cur in Hc. unfold erase_level in Hc.
  simpl in Hc. destruct (while _ _ _ _); simpl in Hc; [|done].
  destruct (vset _ _ _); simpl in Hc; [|done]. by injection Hc as -> _.
Qed.

Lemma erase_search_cur h fuel v n (c c' : cursor) :
  for_down n (insert_level h fuel v) c = Some c' →
  for_down n (erase_level h fuel v) (cur c, update c) = Some (cur c', update c').
Proof.
  revert c. induction n as [|n IH]; intros c; simpl.
  - destruct (insert_level h fuel v 0 c) as [c1|] eqn:H1; simpl; [|done].
    intros [= ->]. by rewrite (erase_level_cur _ _ _ _ _ _ H1).
  - destruct (insert_level h fuel v (S n) c) as [c1|] eqn:H1; simpl; [|done].
    rewrite (erase_level_cur _ _ _ _ _ _ H1). simpl. apply IH.
Qed.

Lemma descend_search_cur h fuel v n (c c' : cursor) :
  for_down n (insert_level h fuel v) c = Some c' →
  for_down n (λ i x, while fuel (search_cond h i v) (step h i) x) (cur c)
    = Some (cur c').
Proof.
  revert c. induction n as [|n IH]; intros c; simpl.
  - destruct (insert_level h fuel v 0 c) as [c1|] eqn:H1; simpl; [|done].
    intros [= ->]. by rewrite (descend_level_cur _ _ _ _ _ _ H1).
  - destruct (insert_level h fuel v (S n) c) as [c1|] eqn:H1; simpl; [|done].
    rewrite (descend_level_cur _ _ _ _ _ _ H1). simpl. apply IH.
Qed.

(** *** The search of [insert], [erase], [contains] and [get] *)

(** What the search leaves in its variables: for each level in use, the last
    tower below the key that reaches it, and its position. *)
Record searched s (pre : list anode) (c : cursor) : Prop := {
  sr_last : upd_ok (hd_node s :: pre) 0 (cur c) (skipped_positions c);
  sr_levels : ∀ j, (j ≤ level s)%nat → ∃ u p,
      update c !! j = Some (Some u) ∧
      skipped_positions_per_level c !! j = Some p ∧
      upd_ok (hd_node s :: pre) j u p;
  sr_top : ∀ j, (level s < j ≤ MAX_LEVEL)%nat →
      update c !! j = Some None ∧
      skipped_positions_per_level c !! j = Some 0;
}.

Definition cursor0 s : cursor :=
  mkCursor (header s) (replicate (S MAX_LEVEL) None)
    (replicate (S MAX_LEVEL) 0) 0.

Lemma insert_search s ns v pre post :
  Inv s ns → ns = pre ++ post →
  Forall (λ n, nk n < v) pre → Forall (λ n, v ≤ nk n) post →
  ∃ c, for_down (level s) (insert_level (heap s) (base.size (heap s)) v)
         (cursor0 s) = Some c ∧ searched s pre c.
Proof.
  intros HI -> Hpre Hpost.
  set (Lp := hd_node s :: pre).
  set (known := λ (i : nat) (c : cursor),
    length (update c) = S MAX_LEVEL ∧
    length (skipped_positions_per_level c) = S MAX_LEVEL ∧
    (∀ j, (i < j ≤ level s)%nat → ∃ u p,
      update c !! j = Some (Some u) ∧
      skipped_positions_per_level c !! j = Some p ∧ upd_ok Lp j u p) ∧
    (∀ j, (level s < j ≤ MAX_LEVEL)%nat →
      update c !! j = Some None ∧
      skipped_positions_per_level c !! j = Some 0)).
  set (P := λ (i : nat) (c : cursor),
    known i c ∧
    ∃ A nd B, Lp = A ++ nd :: B ∧ cur c = na nd ∧ (i ≤ nh nd)%nat ∧
              skipped_positions c = length A).
  set (Q := λ (i : nat) (c : cursor),
    known i c ∧ upd_ok Lp i (cur c) (skipped_positions c) ∧
    update c !! i = Some (Some (cur c)) ∧
    skipped_positions_per_level c !! i = Some (skipped_positions c)).
  pose proof (inv_level _ _ HI) as Hlev.
  destruct (for_down_rule P Q
              (insert_level (heap s) (base.size (heap s)) v) (level s))
    with (s := cursor0 s) as (c & Hc & HQ).
  - intros i c Hi ((Hl1 & Hl2 & Hk & Ht) & A & nd & B & Hsplit & Hcur & Hnd & Hsk).
    destruct (insert_level_ok (heap s) i v (hd_node s) pre post) with
      (fuel := base.size (heap s)) (c := c) (A := A) (nd := nd) (B := B)
      as (c' & Hc' & Hu & Hupd & Hspl); try done.
    + apply (inv_links _ _ HI); lia.
    + apply HI.
    + rewrite (Inv_fuel _ _ HI), length_app.
      destruct (cons_split_suffix _ _ _ _ _ Hsplit) as (A' & ->).
      rewrite length_app. lia.
    + rewrite Hl2. lia.
    + rewrite Hl1. lia.
    + exists c'. split; [done|]. split; [|split; [done|]].
      * split; [by rewrite Hupd, length_insert|].
        split; [by rewrite Hspl, length_insert|]. split.
        -- intros j Hj. rewrite Hupd, Hspl.
           rewrite !list_lookup_insert_ne by lia. apply Hk. lia.
        -- intros j Hj. rewrite Hupd, Hspl.
           rewrite !list_lookup_insert_ne by lia. apply Ht. lia.
      * rewrite Hupd, Hspl.
        rewrite !list_lookup_insert_eq by (rewrite ?Hl1, ?Hl2; lia). done.
  - intros i c Hi ((Hl1 & Hl2 & Hk & Ht) & Hu & Hupd & Hspl). split.
    + split; [done|]. split; [done|]. split; [|done].
      intros j Hj. destruct (decide (j = S i)) as [->|Hne].
      * eauto.
      * apply Hk. lia.
    + destruct Hu as (A & nd & B & Hsplit & Hcur & Hnd & _ & Hsk).
      exists A, nd, B. repeat split; try done. lia.
  - split.
    + unfold known, cursor0. cbn [update skipped_positions_per_level].
      split; [by rewrite length_replicate|].
      split; [by rewrite length_replicate|]. split.
      * intros j Hj. lia.
      * intros j Hj. rewrite !lookup_replicate_2 by (unfold MAX_LEVEL in *; lia).
        done.
    + exists [], (hd_node s), pre. simpl. repeat split; try done.
  - exists c. split; [done|].
    destruct HQ as ((Hl1 & Hl2 & Hk & Ht) & Hu & Hupd & Hspl).
    split; [done| |done].
    intros j Hj. destruct (decide (j = 0%nat)) as [->|Hne].
    + eauto.
    + apply Hk. lia.
Qed.

Lemma upd_ok_0 (L : list anode) u p :
  upd_ok L 0 u p → ∃ A nd, L = A ++ [nd] ∧ u = na nd ∧ p = length A.
Proof.
  intros (A & nd & B & -> & -> & _ & HB & ->). apply low_0_nil in HB as ->.
  by exists A, nd.
Qed.

End invariant.

(** ** One level of the structure under insertion and removal *)

Section levels.
Context {T : Type}.
Implicit Types (h : gmap addr (@Entry T)) (s : @ObjectStore T).

Lemma first_at_stop j (m : list anode) nd X Y :
  (j ≤ nh nd)%nat →
  first_at j (m ++ nd :: X) = first_at j (m ++ nd :: Y) ∧
  dist_at j (m ++ nd :: X) = dist_at j (m ++ nd :: Y).
Proof.
  intros Hj. induction m as [|a m [IH1 IH2]]; simpl.
  - by rewrite !decide_True.
  - case_decide; [done|]. by rewrite IH1, IH2.
Qed.

(** [h'] agrees with [h] at level [j], on the entries outside [U]. *)
Definition same_level h h' (j : nat) (U : list addr) : Prop :=
  ∀ a, a ∉ U → get_forward h' a j = get_forward h a j ∧
               get_link h' a j = get_link h a j.

Lemma level_ok_ext h h' j L :
  same_level h h' j [] → level_ok h j L → level_ok h' j L.
Proof.
  intros Hs HL A nd R Hsplit Hj.
  destruct (Hs (na nd)) as [-> ->]; [set_solver|]. by apply (HL A nd R).
Qed.

Lemma level_ok_ext_out h h' j L U :
  same_level h h' j U → (∀ a, a ∈ U → a ∉ na <$> L) →
  level_ok h j L → level_ok h' j L.
Proof.
  intros Hs HU HL A nd R Hsplit Hj.
  destruct (Hs (na nd)) as [-> ->]; [|by apply (HL A nd R)].
  intros Hin. apply (HU _ Hin). subst L. rewrite fmap_app, fmap_cons. set_solver.
Qed.

Lemma NoDup_na_split (A B : list anode) nd nd' l :
  NoDup (na <$> l) → l = A ++ nd :: B → nd' ∈ A ++ B → na nd' ≠ na nd.
Proof.
  intros Hnd -> Hin Heq. rewrite fmap_app, fmap_cons in Hnd.
  apply NoDup_app in Hnd as (_ & Hd & Hnd). apply NoDup_cons in Hnd as [Hn _].
  apply elem_of_app in Hin as [Hin|Hin].
  - apply (Hd (na nd')); [by apply list_elem_of_fmap_2|]. rewrite Heq. set_solver.
  - apply Hn. rewrite <-Heq. by apply list_elem_of_fmap_2.
Qed.

(** A new tower [xn] after the last tower [u] of [Lp] that reaches level [j]. *)
Lemma level_ok_insert h h' j Lp post xn u p :
  level_ok h j (Lp ++ post) →
  upd_ok Lp j u p →
  NoDup (na <$> (Lp ++ xn :: post)) →
  same_level h h' j [u; na xn] →
  ((j ≤ nh xn)%nat →
     get_forward h' u j = Some (Some (na xn)) ∧
     get_link h' u j = Some (length Lp - p) ∧
     get_forward h' (na xn) j = Some (first_at j post) ∧
     get_link h' (na xn) j = Some (dist_at j post)) →
  ((nh xn < j)%nat →
     get_forward h' u j = get_forward h u j ∧
     ∃ l, get_link h u j = Some l ∧ get_link h' u j = Some (l + 1)) →
  level_ok h' j (Lp ++ xn :: post).
Proof.
  intros HL (Au & ndu & Bu & HLp & -> & Hju & HBu & ->) Hnd Hsame Htall Hlow.
  intros A nd R Hsplit Hj. symmetry in Hsplit.
  destruct (app_cons_cases _ _ _ _ _ _ Hsplit) as
    [(m & Hm1 & ->)|[(-> & -> & ->)|(m & -> & Hm2)]].
  - (* [nd] is a tower of [Lp] *)
    assert (na nd ≠ na xn) as Hx.
    { intros Heq. eapply (NoDup_na_split Lp post xn nd); [done..| |done].
      rewrite Hm1. set_solver. }
    rewrite HLp in Hm1. symmetry in Hm1.
    destruct (app_cons_cases _ _ _ _ _ _ Hm1) as
      [(m' & -> & ->)|[(-> & -> & ->)|(m' & -> & ->)]].
    + (* before [u] *)
      assert (na nd ≠ na ndu) as Hu.
      { intros Heq. subst Lp. rewrite fmap_app in Hnd.
        apply NoDup_app in Hnd as (Hnd & _).
        rewrite <-app_assoc in Hnd. simpl in Hnd.
        rewrite fmap_app, fmap_cons, fmap_app, fmap_cons in Hnd.
        apply NoDup_app in Hnd as (_ & _ & Hnd).
        apply NoDup_cons in Hnd as [Hn _]. apply Hn. rewrite Heq. set_solver. }
      destruct (Hsame (na nd)) as [-> ->]; [set_solver|].
      destruct (HL A nd ((m' ++ ndu :: Bu) ++ post)) as [-> ->]; [|done|].
      { rewrite HLp. by rewrite <-!app_assoc. }
      rewrite <-!app_assoc. simpl.
      destruct (first_at_stop j m' ndu (Bu ++ post) (Bu ++ xn :: post) Hju)
        as [-> ->]. done.
    + (* [u] itself *)
      destruct (HL Au ndu (Bu ++ post)) as [Hf Hl]; [|done|].
      { rewrite HLp. by rewrite <-!app_assoc. }
      rewrite first_at_app_low in Hf by done.
      rewrite dist_at_app_low in Hl by done.
      rewrite first_at_app_low, dist_at_app_low by done.
      destruct (decide (j ≤ nh xn)%nat) as [Hjx|Hjx].
      * destruct (Htall Hjx) as (-> & -> & _ & _).
        destruct (first_at_cons_tall j xn post Hjx) as [-> ->].
        split; [done|]. f_equal. rewrite HLp, length_app. simpl. lia.
      * destruct Hlow as (-> & l & Hl' & ->); [lia|].
        simpl. rewrite !decide_False by done. split; [done|].
        rewrite Hl in Hl'. injection Hl' as <-. f_equal. lia.
    + (* after [u]: too low *)
      apply Forall_app in HBu as [_ HBu]. apply Forall_cons in HBu as [HBu _].
      unfold low in HBu. lia.
  - (* the new tower *)
    destruct (Htall Hj) as (_ & _ & -> & ->). done.
  - (* [nd] is a tower of [post] *)
    assert (na nd ≠ na xn) as Hx.
    { intros Heq. eapply (NoDup_na_split Lp _ xn nd); [done..| |done].
      rewrite Hm2. set_solver. }
    assert (na nd ≠ na ndu) as Hu.
    { intros Heq. subst Lp post. rewrite fmap_app in Hnd.
      apply NoDup_app in Hnd as (_ & Hd & _).
      apply (Hd (na ndu)); [rewrite fmap_app, fmap_cons; set_solver|].
      rewrite <-Heq, fmap_cons, fmap_app, fmap_cons. set_solver. }
    destruct (Hsame (na nd)) as [-> ->]; [set_solver|].
    apply (HL (Lp ++ m) nd R); [|done]. rewrite Hm2. by rewrite <-app_assoc.
Qed.

Lemma NoDup_na_apart (l X Y Z : list anode) a b :
  NoDup (na <$> l) → l = X ++ a :: Y ++ b :: Z → na a ≠ na b.
Proof.
  intros Hnd -> Heq. rewrite fmap_app, fmap_cons, fmap_app, fmap_cons in Hnd.
  apply NoDup_app in Hnd as (_ & _ & Hnd). apply NoDup_cons in Hnd as [Hn _].
  apply Hn. rewrite Heq. set_solver.
Qed.

Lemma app_app_cases {A} (l1 l2 k1 k2 : list A) (y : A) :
  l1 ++ l2 = k1 ++ y :: k2 →
  (∃ m, l1 = k1 ++ y :: m ∧ k2 = m ++ l2) ∨
  (∃ m, k1 = l1 ++ m ∧ l2 = m ++ y :: k2).
Proof.
  revert k1. induction l1 as [|a l1 IH]; intros k1; simpl.
  - intros ->. right. by exists k1.
  - destruct k1 as [|b k1]; simpl; intros [= -> H'].
    + left. by exists l1.
    + destruct (IH _ H') as [(m & -> & ->)|(m & -> & ->)].
      * left. by exists m.
      * right. by exists m.
Qed.

(** The tower [xn] after [Lp] goes away. *)
Lemma level_ok_erase h h' j Lp post xn u p :
  level_ok h j (Lp ++ xn :: post) →
  upd_ok Lp j u p →
  NoDup (na <$> (Lp ++ xn :: post)) →
  same_level h h' j [u; na xn] →
  ((j ≤ nh xn)%nat →
     get_forward h' u j = Some (first_at j post) ∧
     get_link h' u j = Some (length Lp - p - 1 + dist_at j post)) →
  ((nh xn < j)%nat →
     get_forward h' u j = get_forward h u j ∧
     ∃ l, get_link h u j = Some l ∧ get_link h' u j = Some (l - 1)) →
  level_ok h' j (Lp ++ post).
Proof.
  intros HL (Au & ndu & Bu & HLp & -> & Hju & HBu & ->) Hnd Hsame Htall Hlow.
  intros A nd R Hsplit Hj.
  destruct (app_app_cases _ _ _ _ _ Hsplit) as [(m & Hm & ->)|(m & -> & ->)].
  - (* [nd] is a tower of [Lp] *)
    assert (na nd ≠ na xn) as Hx.
    { eapply (NoDup_na_apart _ A m post); [done|].
      by rewrite Hm, <-app_assoc. }
    rewrite HLp in Hm.
    destruct (app_cons_cases _ _ _ _ _ _ Hm) as
      [(m' & -> & ->)|[(-> & -> & ->)|(m' & -> & ->)]].
    + (* after [u]: too low *)
      apply Forall_app in HBu as [_ HBu]. apply Forall_cons in HBu as [HBu _].
      unfold low in HBu. lia.
    + (* [u] itself *)
      destruct (HL A nd (m ++ xn :: post)) as [Hf Hl]; [|done|].
      { rewrite HLp. by rewrite <-!app_assoc. }
      rewrite first_at_app_low in Hf by done.
      rewrite dist_at_app_low in Hl by done.
      rewrite first_at_app_low, dist_at_app_low by done.
      destruct (decide (j ≤ nh xn)%nat) as [Hjx|Hjx].
      * destruct (Htall Hjx) as (-> & ->). split; [done|]. f_equal.
        rewrite HLp, length_app. simpl. lia.
      * destruct Hlow as (Hf' & l & Hl' & ->); [lia|]. rewrite Hf', Hf.
        simpl in Hl |- *. rewrite decide_False in Hl by done.
        rewrite decide_False by done.
        split; [done|]. rewrite Hl in Hl'. injection Hl' as <-. f_equal. lia.
    + (* before [u] *)
      assert (na nd ≠ na ndu) as Hu.
      { eapply (NoDup_na_apart _ A m' (Bu ++ xn :: post)); [done|].
        by rewrite HLp, <-!app_assoc. }
      destruct (Hsame (na nd)) as [-> ->]; [set_solver|].
      destruct (HL A nd ((m' ++ ndu :: Bu) ++ xn :: post)) as [-> ->]; [|done|].
      { rewrite HLp. by rewrite <-!app_assoc. }
      rewrite <-!app_assoc. simpl.
      destruct (first_at_stop j m' ndu (Bu ++ post) (Bu ++ xn :: post) Hju)
        as [-> ->]. done.
  - (* [nd] is a tower of [post] *)
    assert (na xn ≠ na nd) as Hx.
    { eapply (NoDup_na_apart _ Lp m R); [done|]. done. }
    assert (na ndu ≠ na nd) as Hu.
    { eapply (NoDup_na_apart _ Au (Bu ++ xn :: m) R); [done|].
      by rewrite HLp, <-!app_assoc. }
    destruct (Hsame (na nd)) as [-> ->]; [set_solver|].
    apply (HL (Lp ++ xn :: m) nd R); [|done]. by rewrite <-app_assoc.
Qed.

End levels.

(** ** Insertion of a new key *)

Section alloc.
Context {T : Type}.
Implicit Types (h : gmap addr (@Entry T)).

Lemma alloc_ok h e :
  ∃ x h', alloc h e = (x, h') ∧ (x ∉ dom h) ∧ dom h' = {[x]} ∪ dom h ∧
    h' !! x = Some e ∧ ∀ a, a ≠ x → h' !! a = h !! a.
Proof.
  unfold alloc. eexists _, _. split; [done|].
  split; [apply is_fresh|]. split; [by rewrite dom_insert_L|].
  split; [by rewrite lookup_insert_eq|].
  intros a Ha. by rewrite lookup_insert_ne.
Qed.

End alloc.

Section insert_new.
Context {T : Type}.
Variables (s : @ObjectStore T) (ns pre post : list anode).
Variables (v : Z) (o : T) (lvl : nat) (c : cursor).
Hypothesis HI : Inv s ns.
Hypothesis Hns : ns = pre ++ post.
Hypothesis Hlvl : (lvl ≤ MAX_LEVEL)%nat.
Hypothesis Hc : searched s pre c.

Let Lp := hd_node s :: pre.
Let n := num_entries s + 1.

(** The state in which the new entry is linked in: every level up to
    [level'] is in use and has its last tower below the key in [upd]. *)
Record ready (level' : nat) (upd : list (option addr))
    (h1 : gmap addr (@Entry T)) : Prop := {
  rd_frame : frame (heap s) h1;
  rd_links : ∀ j, (j ≤ level')%nat → level_ok h1 j (Lp ++ post);
  rd_upd : ∀ j, (j ≤ level')%nat → ∃ u p,
      upd !! j = Some (Some u) ∧
      skipped_positions_per_level c !! j = Some p ∧ upd_ok Lp j u p;
  rd_top : ∀ j, (level' < j ≤ MAX_LEVEL)%nat →
      get_forward h1 (header s) j = Some None
}.

Lemma no_raise_ok : ready (level s) (update c) (heap s).
Proof.
  split.
  - apply frame_refl.
  - intros j Hj. unfold Lp. simpl. rewrite <-Hns. by apply (inv_links _ _ HI).
  - apply Hc.
  - apply HI.
Qed.

Lemma raise_ok :
  (level s < lvl)%nat →
  ∃ upd h1,
    for_up (lvl - level s) (S (level s)) (raise_level (header s) n)
      (update c, heap s) = Some (upd, h1) ∧
    ready lvl upd h1.
Proof.
  intros Hlt.
  set (I := λ (k : nat) (st : list (option addr) * gmap addr (@Entry T)),
    frame (heap s) st.2 ∧
    (∀ a j, get_forward st.2 a j = get_forward (heap s) a j) ∧
    (∀ a j, get_link st.2 a j =
       if decide (a = header s ∧ (level s < j < k)%nat) then Some n
       else get_link (heap s) a j) ∧
    (∀ j, st.1 !! j =
       if decide (level s < j < k)%nat then Some (Some (header s))
       else update c !! j)).
  destruct (for_up_rule I (raise_level (header s) n) (lvl - level s)
              (S (level s))) with (s := (update c, heap s))
    as ([upd h1] & Hrun & Hfr & Hfw & Hlk & Hupd).
  - intros k [upd h] Hk (Hfr & Hfw & Hlk & Hupd). simpl in *.
    unfold raise_level. simpl.
    assert (upd !! k = Some None) as Hk0.
    { rewrite Hupd, decide_False by lia. apply (sr_top _ _ _ Hc). lia. }
    rewrite vset_Some by (by eapply lookup_lt_Some). simpl.
    unfold update_at. rewrite list_lookup_insert_eq by (by eapply lookup_lt_Some).
    simpl.
    destruct (set_link_ok h (header s) k n 0 (S MAX_LEVEL) (S MAX_LEVEL))
      as (h' & -> & Hfr' & Hfw' & Hlk'); [|lia|].
    { destruct Hfr as [_ Hfr]. destruct (Hfr (header s)) as [-> _].
      apply (inv_header _ _ HI). }
    simpl. eexists; split; [done|]. simpl. split; [|split; [|split]].
    + by eapply frame_trans.
    + intros a j. by rewrite Hfw'.
    + intros a j. rewrite Hlk', Hlk. repeat case_decide; try done; try lia.
      all: exfalso; naive_solver lia.
    + intros j. simpl. destruct (decide (j = k)) as [->|Hne].
      * rewrite list_lookup_insert_eq by (by eapply lookup_lt_Some).
        by rewrite decide_True by lia.
      * rewrite list_lookup_insert_ne by done. rewrite Hupd.
        repeat case_decide; try done; lia.
  - unfold I. simpl. split; [apply frame_refl|]. split; [done|]. split.
    + intros a j. rewrite decide_False; [done|]. lia.
    + intros j. rewrite decide_False; [done|]. lia.
  - simpl in *. exists upd, h1. split; [done|].
    replace (S (level s) + (lvl - level s))%nat with (S lvl) in * by lia.
    split.
    + done.
    + intros j Hj. destruct (decide (j ≤ level s)%nat) as [Hjl|Hjl].
      * apply (level_ok_ext (heap s)).
        { intros a _. rewrite Hfw, Hlk. rewrite decide_False; [done|lia]. }
        unfold Lp. simpl. rewrite <-Hns. by apply (inv_links _ _ HI).
      * intros A nd R Hsplit Hnd.
        assert (Forall (low j) ns) as Hlow.
        { eapply Forall_impl; [apply (inv_heights _ _ HI)|].
          unfold low. simpl. intros; lia. }
        destruct A as [|a A].
        -- unfold Lp in Hsplit. simpl in Hsplit. rewrite <-Hns in Hsplit.
           injection Hsplit as <- <-. simpl.
           rewrite Hfw, Hlk, decide_True by (split; [done|lia]).
           rewrite (inv_top _ _ HI) by lia.
           assert (first_at j ns = None) as -> by by apply first_at_None.
           rewrite dist_at_low by done. split; [done|]. f_equal.
           unfold n. rewrite (inv_size _ _ HI). lia.
        -- unfold Lp in Hsplit. simpl in Hsplit. rewrite <-Hns in Hsplit.
           injection Hsplit as _ ->.
           apply Forall_app in Hlow as [_ Hlow].
           apply Forall_cons in Hlow as [Hlow _]. unfold low in Hlow. lia.
    + intros j Hj. rewrite Hupd. case_decide as Hd.
      * destruct (sr_top _ _ _ Hc j) as [_ Hs]; [lia|].
        exists (header s), 0. split; [done|]. split; [done|].
        exists [], (hd_node s), pre. repeat split; try done.
        { simpl. lia. }
        eapply Forall_impl.
        { pose proof (inv_heights _ _ HI) as Hh. rewrite Hns in Hh.
          apply Forall_app in Hh as [Hh _]. exact Hh. }
        unfold low. simpl. intros; lia.
      * apply (sr_levels _ _ _ Hc). lia.
    + intros j Hj. rewrite Hfw. apply (inv_top _ _ HI). lia.
Qed.

Lemma searched_skipped : skipped_positions c = length pre.
Proof.
  destruct (upd_ok_0 _ _ _ (sr_last _ _ _ Hc)) as (A & nd & HA & _ & ->).
  unfold Lp in *. apply (f_equal length) in HA.
  rewrite length_app in HA. simpl in HA. f_equal. lia.
Qed.

Variables (level' : nat) (upd : list (option addr)).
Variables (h1 : gmap addr (@Entry T)).
Hypothesis Hready : ready level' upd h1.
Hypothesis Hlevel' : (lvl ≤ level' ≤ MAX_LEVEL)%nat.

Let x : addr := fresh (dom h1).
Let h2 : gmap addr (@Entry T) := <[x := new_Entry lvl v o]> h1.
Let xn : anode := mkNode x v lvl.

Lemma new_fresh : x ∉ header s :: (na <$> ns).
Proof.
  pose proof (is_fresh (dom h1)) as Hf. fold x in Hf.
  destruct (rd_frame _ _ _ Hready) as [Hd _].
  rewrite Hd, (inv_dom _ _ HI) in Hf. intros Hin. apply Hf.
  by apply elem_of_list_to_set.
Qed.

Lemma new_NoDup : NoDup (na <$> (Lp ++ xn :: post)).
Proof.
  pose proof (inv_nodup _ _ HI) as Hnd. pose proof new_fresh as Hx.
  rewrite Hns in Hnd, Hx. unfold Lp. simpl in *.
  rewrite fmap_app in *. simpl.
  apply NoDup_cons in Hnd as [Hh Hnd].
  apply NoDup_app in Hnd as (Hp & Hd & Hq).
  apply NoDup_cons. split; [set_solver|].
  apply NoDup_app. split; [done|]. split; [|apply NoDup_cons; set_solver].
  intros a Ha. specialize (Hd a Ha). set_solver.
Qed.

Lemma new_other a : a ≠ x → h2 !! a = h1 !! a.
Proof. intros. unfold h2. by rewrite lookup_insert_ne. Qed.

Lemma new_shape : get_shape h2 x = Some (v, S lvl, S lvl).
Proof.
  unfold get_shape, h2. rewrite lookup_insert_eq. simpl.
  by rewrite !length_replicate.
Qed.

Lemma old_in_chain nd : nd ∈ Lp ++ post → na nd ≠ x.
Proof.
  intros Hin Heq. apply new_fresh. rewrite <-Heq. unfold Lp in Hin.
  simpl in Hin. rewrite <-Hns in Hin. apply elem_of_cons in Hin as [->|Hin].
  - set_solver.
  - apply elem_of_cons. right. by apply list_elem_of_fmap_2.
Qed.

Lemma old_cells h : frame h2 h → Forall (cell_ok h) (Lp ++ post).
Proof.
  intros [_ Hfr]. apply Forall_forall. intros nd Hin.
  pose proof (old_in_chain nd Hin) as Hne. unfold cell_ok.
  destruct (Hfr (na nd)) as [-> _]. unfold get_shape.
  rewrite new_other by done.
  destruct (rd_frame _ _ _ Hready) as [_ Hfr1].
  destruct (Hfr1 (na nd)) as [Hs _]. unfold get_shape in Hs. rewrite Hs.
  unfold Lp in Hin. simpl in Hin. rewrite <-Hns in Hin.
  apply elem_of_cons in Hin as [->|Hin]; [apply (inv_header _ _ HI)|].
  pose proof (inv_cells _ _ HI) as Hc'. rewrite Forall_forall in Hc'. by apply Hc'.
Qed.

Lemma old_links j : (j ≤ level')%nat → level_ok h2 j (Lp ++ post).
Proof.
  intros Hj. apply (level_ok_ext_out h1 h2 j _ [x]).
  - intros a Ha. unfold get_forward, get_link. rewrite new_other; [done|set_solver].
  - intros a Ha Hin. apply list_elem_of_singleton in Ha as ->.
    apply list_elem_of_fmap in Hin as (nd & Hx & Hin).
    by apply (old_in_chain nd).
  - by apply (rd_links _ _ _ Hready).
Qed.

Lemma same_level_trans (ha hb hc : gmap addr (@Entry T)) j :
  same_level ha hb j [] → same_level hb hc j [] → same_level ha hc j [].
Proof.
  intros H1 H2 a Ha. destruct (H1 a Ha) as [<- <-]. by apply H2.
Qed.

(** Linking the new entry in at level [i]. *)
Lemma splice_step i h :
  (i ≤ lvl)%nat → frame h2 h → same_level h2 h i [] →
  ∃ h', splice_level x upd (skipped_positions_per_level c)
          (skipped_positions c) n i h = Some h' ∧
        frame h h' ∧ level_ok h' i (Lp ++ xn :: post) ∧
        ∀ j, j ≠ i → same_level h h' j [].
Proof.
  intros Hi Hfr Hsame.
  destruct (rd_upd _ _ _ Hready i) as (u & p & Hu & Hp & Hup); [lia|].
  assert (level_ok h i (Lp ++ post)) as HL.
  { apply (level_ok_ext h2); [done|]. apply old_links. lia. }
  pose proof Hup as (Au & ndu & Bu & HLp & -> & Hju & HBu & ->).
  destruct (HL Au ndu (Bu ++ post)) as [Hf Hl]; [by rewrite HLp, <-app_assoc|done|].
  rewrite first_at_app_low in Hf by done. rewrite dist_at_app_low in Hl by done.
  assert (ndu ∈ Lp ++ post) as Hin by (rewrite HLp; set_solver).
  pose proof (old_in_chain _ Hin) as Hne.
  pose proof (old_cells h Hfr) as Hcells. rewrite Forall_forall in Hcells.
  pose proof (Hcells _ Hin) as Hcu. unfold cell_ok in Hcu.
  assert (get_shape h x = Some (v, S lvl, S lvl)) as Hcx.
  { destruct Hfr as [_ Hfr]. destruct (Hfr x) as [-> _]. apply new_shape. }
  assert (length Lp = S (length pre)) as HlenLp by done.
  assert (Z.of_nat (length Bu) = length pre - length Au) as HlenB.
  { rewrite HLp, length_app in HlenLp. simpl in HlenLp. lia. }
  unfold splice_level, update_at. rewrite Hp, Hu. simpl. rewrite Hf. simpl.
  destruct (set_forward_ok h x i (first_at i post) _ _ _ Hcx)
    as (ha & -> & Hfra & Hla & Hfa); [lia|]. simpl.
  rewrite Hfa, decide_False, Hf by naive_solver. simpl.
  assert (get_shape ha x = Some (v, S lvl, S lvl)) as Hcxa.
  { destruct Hfra as [_ Hfra]. by destruct (Hfra x) as [-> _]. }
  assert (∃ hb, match first_at i post with
                | Some _ => get_link ha (na ndu) i ≫= λ l,
                    set_link ha x i (l - (skipped_positions c - length Au))
                | None => set_link ha x i (n - skipped_positions c)
                end = Some hb ∧ frame ha hb ∧
            (∀ a j, get_forward hb a j = get_forward ha a j) ∧
            (∀ a j, get_link hb a j =
               if decide (a = x ∧ j = i) then Some (dist_at i post)
               else get_link ha a j)) as (hb & -> & Hfrb & Hfb & Hlb).
  { rewrite searched_skipped.
    destruct (first_at i post) as [y|] eqn:Hfp.
    - rewrite Hla, Hl. simpl.
      replace (length Bu + dist_at i post - (length pre - length Au))
        with (dist_at i post) by lia.
      apply (set_link_ok ha x i _ _ _ _ Hcxa). lia.
    - apply first_at_None in Hfp. rewrite (dist_at_low _ _ Hfp).
      replace (n - length pre) with (length post + 1).
      + apply (set_link_ok ha x i _ _ _ _ Hcxa). lia.
      + unfold n. rewrite (inv_size _ _ HI), Hns, length_app. lia. }
  simpl.
  assert (get_shape hb (na ndu) = Some (nk ndu, S (nh ndu), S (nh ndu))) as Hcub.
  { destruct Hfra as [_ Hfra]. destruct Hfrb as [_ Hfrb].
    destruct (Hfrb (na ndu)) as [-> _]. by destruct (Hfra (na ndu)) as [-> _]. }
  destruct (set_forward_ok hb (na ndu) i (Some x) _ _ _ Hcub)
    as (hc & -> & Hfrc & Hlc & Hfc); [lia|]. simpl.
  assert (get_shape hc (na ndu) = Some (nk ndu, S (nh ndu), S (nh ndu))) as Hcuc.
  { destruct Hfrc as [_ Hfrc]. by destruct (Hfrc (na ndu)) as [-> _]. }
  destruct (set_link_ok hc (na ndu) i (skipped_positions c - length Au + 1)
              _ _ _ Hcuc) as (h' & -> & Hfr' & Hf' & Hl'); [lia|].
  exists h'. split; [done|].
  split; [eauto using frame_trans|]. split.
  - apply (level_ok_insert h h' i Lp post xn (na ndu) (length Au)); try done.
    + apply new_NoDup.
    + intros a Ha. rewrite Hf', Hfc, Hfb, Hfa, Hl', Hlc, Hlb, Hla.
      rewrite !decide_False; [done|set_solver..].
    + intros _. repeat split.
      * rewrite Hf', Hfc. by rewrite decide_True.
      * rewrite Hl', decide_True by done. f_equal. rewrite searched_skipped. lia.
      * rewrite Hf', Hfc, decide_False by naive_solver.
        rewrite Hfb, Hfa. by rewrite decide_True.
      * rewrite Hl', decide_False by naive_solver.
        rewrite Hlc, Hlb. by rewrite decide_True.
    + simpl. lia.
  - intros j Hj a _. rewrite Hf', Hfc, Hfb, Hfa, Hl', Hlc, Hlb, Hla.
    rewrite !decide_False; [done|naive_solver..].
Qed.

(** The links that pass over the new entry get one longer. *)
Lemma bump_step i h :
  (lvl < i ≤ level')%nat → frame h2 h → same_level h2 h i [] →
  ∃ h', bump_level upd i h = Some h' ∧
        frame h h' ∧ level_ok h' i (Lp ++ xn :: post) ∧
        ∀ j, j ≠ i → same_level h h' j [].
Proof.
  intros Hi Hfr Hsame.
  destruct (rd_upd _ _ _ Hready i) as (u & p & Hu & Hp & Hup); [lia|].
  assert (level_ok h i (Lp ++ post)) as HL.
  { apply (level_ok_ext h2); [done|]. apply old_links. lia. }
  pose proof Hup as (Au & ndu & Bu & HLp & -> & Hju & HBu & ->).
  destruct (HL Au ndu (Bu ++ post)) as [Hf Hl]; [by rewrite HLp, <-app_assoc|done|].
  assert (ndu ∈ Lp ++ post) as Hin by (rewrite HLp; set_solver).
  pose proof (old_cells h Hfr) as Hcells. rewrite Forall_forall in Hcells.
  pose proof (Hcells _ Hin) as Hcu. unfold cell_ok in Hcu.
  unfold bump_level, update_at. rewrite Hu. simpl. rewrite Hl. simpl.
  destruct (set_link_ok h (na ndu) i (dist_at i (Bu ++ post) + 1) _ _ _ Hcu)
    as (h' & -> & Hfr' & Hf' & Hl'); [lia|].
  exists h'. split; [done|]. split; [done|]. split.
  - apply (level_ok_insert h h' i Lp post xn (na ndu) (length Au)); try done.
    + apply new_NoDup.
    + intros a Ha. rewrite Hf', Hl'. rewrite decide_False; [done|set_solver].
    + simpl. lia.
    + intros _. rewrite Hf', Hl', decide_True by done. split; [done|]. eauto.
  - intros j Hj a _. rewrite Hf', Hl'. rewrite decide_False; [done|naive_solver].
Qed.

(** Both loops over the levels keep this. *)
Definition linked (k : nat) (h : gmap addr (@Entry T)) : Prop :=
  frame h2 h ∧
  (∀ j, (j < k)%nat → (j ≤ level')%nat → level_ok h j (Lp ++ xn :: post)) ∧
  (∀ j, (k ≤ j)%nat → same_level h2 h j []).

Lemma linked_step i h h' :
  linked i h → frame h h' → level_ok h' i (Lp ++ xn :: post) →
  (∀ j, j ≠ i → same_level h h' j []) → linked (S i) h'.
Proof.
  intros (Hfr & Hdone & Htodo) Hfr' Hi Hrest. split; [|split].
  - by eapply frame_trans.
  - intros j Hj Hjl. destruct (decide (j = i)) as [->|Hne]; [done|].
    apply (level_ok_ext h); [apply Hrest; lia|]. apply Hdone; [lia|done].
  - intros j Hj. eapply same_level_trans; [apply Htodo; lia|apply Hrest; lia].
Qed.

Lemma link_loops :
  ∃ h3 h4,
    for_up (S lvl) 0
      (splice_level x upd (skipped_positions_per_level c)
         (skipped_positions c) n) h2 = Some h3 ∧
    for_up (level' - lvl) (S lvl) (bump_level upd) h3 = Some h4 ∧
    linked (S level') h4.
Proof.
  destruct (for_up_rule linked
              (splice_level x upd (skipped_positions_per_level c)
                 (skipped_positions c) n) (S lvl) 0) with (s := h2)
    as (h3 & Hrun3 & H3).
  { intros k h Hk HL. pose proof HL as (Hfr & _ & Htodo).
    destruct (splice_step k h) as (h' & Hs & Hfr' & Hk' & Hrest);
      [lia|done|apply Htodo; lia|].
    exists h'. split; [done|]. by apply (linked_step k h). }
  { split; [apply frame_refl|]. split; [intros; lia|]. by intros j _ a _. }
  destruct (for_up_rule linked (bump_level upd) (level' - lvl) (S lvl))
    with (s := h3) as (h4 & Hrun4 & H4).
  { intros k h Hk HL. pose proof HL as (Hfr & _ & Htodo).
    destruct (bump_step k h) as (h' & Hs & Hfr' & Hk' & Hrest);
      [lia|done|apply Htodo; lia|].
    exists h'. split; [done|]. by apply (linked_step k h). }
  { exact H3. }
  exists h3, h4. split; [done|]. split; [done|].
  replace (S lvl + (level' - lvl))%nat with (S level') in H4 by lia. done.
Qed.

Hypothesis Hpre : Forall (λ nd, nk nd < v) pre.
Hypothesis Hpost : Forall (λ nd, v < nk nd) post.
Hypothesis Hlevel : (level s ≤ level')%nat.

Lemma linked_Inv h4 :
  linked (S level') h4 →
  Inv (mkStore h4 (header s) level' n) (pre ++ xn :: post) ∧
  ∀ a, get_obj h4 a = if decide (a = x) then Some o else get_obj (heap s) a.
Proof.
  intros (Hfr & Hdone & Htodo). split.
  - pose proof new_fresh as Hx. pose proof new_NoDup as Hnd.
    split; simpl.
    + exact Hnd.
    + destruct Hfr as [-> _]. unfold h2. rewrite dom_insert_L.
      destruct (rd_frame _ _ _ Hready) as [-> _]. rewrite (inv_dom _ _ HI).
      rewrite Hns, !fmap_app. simpl. rewrite !list_to_set_app_L. simpl.
      set_solver.
    + lia.
    + unfold cell_ok. simpl.
      pose proof (old_cells h4 Hfr) as Hcells. rewrite Forall_forall in Hcells.
      apply (Hcells (hd_node s)). unfold Lp. set_solver.
    + pose proof (old_cells h4 Hfr) as Hcells. unfold Lp in Hcells.
      simpl in Hcells. apply Forall_cons in Hcells as [_ Hcells].
      apply Forall_app in Hcells as [Hc1 Hc2].
      apply Forall_app. split; [done|]. apply Forall_cons. split; [|done].
      unfold cell_ok. simpl. destruct Hfr as [_ Hfr].
      destruct (Hfr x) as [-> _]. apply new_shape.
    + pose proof (inv_heights _ _ HI) as Hh. rewrite Hns in Hh.
      apply Forall_app in Hh as [Hh1 Hh2].
      apply Forall_app. split; [|apply Forall_cons; split].
      * eapply Forall_impl; [exact Hh1|]. simpl. intros; lia.
      * simpl. lia.
      * eapply Forall_impl; [exact Hh2|]. simpl. intros; lia.
    + pose proof (inv_sorted _ _ HI) as Hs. rewrite Hns in Hs.
      apply StronglySorted_app in Hs as (Hs0 & Hs1 & Hs2).
      apply StronglySorted_app. split; [|split; [done|]].
      * intros a b Ha Hb. apply elem_of_cons in Hb as [->|Hb].
        -- rewrite Forall_forall in Hpre. unfold key_lt. simpl. by apply Hpre.
        -- by apply Hs0.
      * apply StronglySorted_cons. split; [|done].
        eapply Forall_impl; [exact Hpost|]. unfold key_lt. simpl. done.
    + intros j Hj. apply Hdone; [lia|done].
    + intros j Hj. destruct (Htodo j) with (a := header s) as [-> _];
        [lia|set_solver|].
      unfold get_forward. rewrite new_other.
      * apply (rd_top _ _ _ Hready). lia.
      * intros Heq. apply Hx. rewrite <-Heq. set_solver.
    + unfold n. rewrite (inv_size _ _ HI), Hns, !length_app. simpl. lia.
  - intros a. destruct Hfr as [_ Hfr]. destruct (Hfr a) as [_ ->].
    unfold get_obj, h2. case_decide as Ha.
    + subst a. by rewrite lookup_insert_eq.
    + rewrite lookup_insert_ne by done.
      destruct (rd_frame _ _ _ Hready) as [_ Hfr1]. by destruct (Hfr1 a) as [_ ?].
Qed.

End insert_new.

(** ** [insert] keeps the invariant *)

#[local] Arguments for_up : simpl never.
#[local] Arguments for_down : simpl never.

Section insert.
Context {T : Type}.
Implicit Types (h : gmap addr (@Entry T)) (s : @ObjectStore T).

Lemma first_at_0 (l : list anode) : first_at 0 l = na <$> head l.
Proof.
  destruct l as [|nd l]; [done|]. unfold first_at.
  destruct (decide (0 ≤ nh nd)%nat); [done|lia].
Qed.

(** The entry that follows the last one below the key. *)
Lemma searched_next s ns pre post c :
  Inv s ns → ns = pre ++ post → searched s pre c →
  get_forward (heap s) (cur c) 0 = Some (na <$> head post).
Proof.
  intros HI -> Hc.
  destruct (upd_ok_0 _ _ _ (sr_last _ _ _ Hc)) as (A & nd & HA & -> & _).
  destruct (inv_links _ _ HI 0%nat) with (A := A) (nd := nd) (R := post)
    as [Hf _]; [lia| |lia|].
  - rewrite app_comm_cons, HA, <-app_assoc. done.
  - by rewrite Hf, first_at_0.
Qed.

Lemma insert_new_ok s ns pre post v o lvl :
  Inv s ns → ns = pre ++ post →
  Forall (λ nd, nk nd < v) pre → Forall (λ nd, v < nk nd) post →
  (lvl ≤ MAX_LEVEL)%nat →
  ∃ s' x, insert lvl v o s = Some s' ∧
    (x ∉ header s :: (na <$> ns)) ∧
    Inv s' (pre ++ mkNode x v lvl :: post) ∧
    header s' = header s ∧
    ∀ a, get_obj (heap s') a =
         if decide (a = x) then Some o else get_obj (heap s) a.
Proof.
  intros HI Hns Hpre Hpost Hlvl.
  destruct (insert_search s ns v pre post HI Hns Hpre) as (c & Hsearch & Hc).
  { eapply Forall_impl; [exact Hpost|]. simpl. intros; lia. }
  unfold insert. unfold cursor0 in Hsearch. rewrite Hsearch. simpl.
  rewrite (searched_next s ns pre post c HI Hns Hc). simpl.
  assert ((match na <$> head post with
           | Some x => get_value (heap s) x ≫= λ k, Some (bool_decide (k ≠ v))
           | None => Some true
           end) = Some true) as ->.
  { destruct post as [|nd post']; simpl; [done|].
    pose proof (inv_cells _ _ HI) as Hcells. rewrite Hns in Hcells.
    apply Forall_app in Hcells as [_ Hcells].
    apply Forall_cons in Hcells as [Hcell _].
    rewrite (get_value_shape _ _ _ _ _ Hcell). simpl.
    apply Forall_cons in Hpost as [Hnd _].
    by rewrite bool_decide_eq_true_2 by lia. }
  simpl.
  assert (∃ level' upd h1,
    (if decide (level s < lvl)%nat
     then for_up (lvl - level s) (S (level s))
            (raise_level (header s) (num_entries s + 1)) (update c, heap s)
     else Some (update c, heap s)) = Some (upd, h1) ∧
    level' = (if decide (level s < lvl)%nat then lvl else level s) ∧
    ready s pre post c level' upd h1 ∧
    (lvl ≤ level' ≤ MAX_LEVEL)%nat ∧ (level s ≤ level')%nat)
    as (level' & upd & h1 & -> & <- & Hready & Hl' & Hl).
  { pose proof (inv_level _ _ HI). case_decide as Hlt.
    - destruct (raise_ok s ns pre post lvl c HI Hns Hlvl Hc Hlt)
        as (upd & h1 & -> & Hready).
      exists lvl, upd, h1.
      split; [done|]. split; [done|]. split; [done|]. split; lia.
    - exists (level s), (update c), (heap s).
      split; [done|]. split; [done|].
      split; [by apply (no_raise_ok s ns)|]. split; lia. }
  simpl.
  destruct (link_loops s ns pre post v o lvl c HI Hns Hlvl Hc level' upd h1
              Hready Hl') as (h3 & h4 & -> & H4 & Hlinked).
  simpl. rewrite H4. simpl.
  destruct (linked_Inv s ns pre post v o lvl c HI Hns Hlvl Hc level' upd h1
              Hready Hl' Hpre Hpost Hl h4 Hlinked) as [HI' Hobj].
  eexists _, (fresh (dom h1)). split; [done|]. split.
  { apply (new_fresh s ns pre post c HI level' upd h1 Hready). }
  split; [done|]. split; [done|]. done.
Qed.

Lemma insert_present_ok s ns pre xn post v o lvl :
  Inv s ns → ns = pre ++ xn :: post →
  Forall (λ nd, nk nd < v) pre → nk xn = v →
  ∃ h', set_obj (heap s) (na xn) o = Some h' ∧
    insert lvl v o s = Some (mkStore h' (header s) (level s) (num_entries s)) ∧
    Inv (mkStore h' (header s) (level s) (num_entries s)) ns ∧
    (∀ a j, get_forward h' a j = get_forward (heap s) a j) ∧
    (∀ a j, get_link h' a j = get_link (heap s) a j) ∧
    ∀ a, get_obj h' a =
         if decide (a = na xn) then Some o else get_obj (heap s) a.
Proof.
  intros HI Hns Hpre Hkey.
  assert (Forall (λ nd, v ≤ nk nd) (xn :: post)) as Hpost.
  { pose proof (inv_sorted _ _ HI) as Hs. rewrite Hns in Hs.
    apply StronglySorted_app in Hs as (_ & _ & Hs).
    apply StronglySorted_cons in Hs as [Hs _].
    apply Forall_cons. split; [lia|].
    eapply Forall_impl; [exact Hs|]. unfold key_lt. simpl. intros; lia. }
  destruct (insert_search s ns v pre (xn :: post) HI Hns Hpre Hpost)
    as (c & Hsearch & Hc).
  pose proof (inv_cells _ _ HI) as Hcells. rewrite Hns in Hcells.
  apply Forall_app in Hcells as [_ Hcells].
  apply Forall_cons in Hcells as [Hcell _].
  destruct (set_obj_ok (heap s) (na xn) o _ _ _ Hcell)
    as (h' & Hset & Hdom & Hshape & Hfw & Hlk & Hobj).
  exists h'. split; [done|]. split; [|split; [|done]].
  - unfold insert. unfold cursor0 in Hsearch. rewrite Hsearch. simpl.
    rewrite (searched_next s ns pre (xn :: post) c HI Hns Hc). simpl.
    rewrite (get_value_shape _ _ _ _ _ Hcell). simpl.
    rewrite bool_decide_eq_false_2 by naive_solver. simpl.
    by rewrite Hset.
  - split; simpl.
    + apply (inv_nodup _ _ HI).
    + rewrite Hdom. apply (inv_dom _ _ HI).
    + apply (inv_level _ _ HI).
    + unfold cell_ok. rewrite Hshape. apply (inv_header _ _ HI).
    + eapply Forall_impl; [apply (inv_cells _ _ HI)|]. unfold cell_ok. simpl.
      intros nd. by rewrite Hshape.
    + apply (inv_heights _ _ HI).
    + apply (inv_sorted _ _ HI).
    + intros j Hj. apply (level_ok_ext (heap s)); [|by apply (inv_links _ _ HI)].
      intros a _. by rewrite Hfw, Hlk.
    + intros j Hj. rewrite Hfw. by apply (inv_top _ _ HI).
    + apply (inv_size _ _ HI).
Qed.

End insert.

(** ** Removal of a present key *)

Section erase_present.
Context {T : Type}.
Variables (s : @ObjectStore T) (ns pre post : list anode) (xn : anode).
Variables (c : cursor).
Hypothesis HI : Inv s ns.
Hypothesis Hns : ns = pre ++ xn :: post.
Hypothesis Hc : searched s pre c.

Let Lp := hd_node s :: pre.
Let x := na xn.

Lemma erase_NoDup : NoDup (na <$> (Lp ++ xn :: post)).
Proof.
  pose proof (inv_nodup _ _ HI) as Hnd. rewrite Hns in Hnd. done.
Qed.

Lemma erase_cells h : frame (heap s) h → Forall (cell_ok h) (Lp ++ xn :: post).
Proof.
  intros [_ Hfr]. unfold Lp. simpl. rewrite <-Hns. apply Forall_cons. split.
  - unfold cell_ok. destruct (Hfr (na (hd_node s))) as [-> _]. apply HI.
  - eapply Forall_impl; [apply (inv_cells _ _ HI)|]. unfold cell_ok. simpl.
    intros nd. by destruct (Hfr (na nd)) as [-> _].
Qed.

Lemma erase_links j : (j ≤ level s)%nat → level_ok (heap s) j (Lp ++ xn :: post).
Proof.
  intros Hj. unfold Lp. simpl. rewrite <-Hns. by apply (inv_links _ _ HI).
Qed.

Lemma first_at_in j (l : list anode) y : first_at j l = Some y → y ∈ na <$> l.
Proof.
  intros Hy. destruct (first_at_Some _ _ _ Hy) as (l1 & nd & l2 & -> & _ & _ & <- & _).
  rewrite fmap_app, fmap_cons. set_solver.
Qed.

Lemma first_at_cons_low j (nd : anode) r :
  ¬ (j ≤ nh nd)%nat →
  first_at j (nd :: r) = first_at j r ∧ dist_at j (nd :: r) = 1 + dist_at j r.
Proof. intros. simpl. by rewrite !decide_False. Qed.

(** Unlinking the entry at level [i]. *)
Lemma unlink_step i h :
  (i ≤ level s)%nat → frame (heap s) h → same_level (heap s) h i [] →
  ∃ h', unlink_level x (update c) i h = Some h' ∧
        frame h h' ∧ level_ok h' i (Lp ++ post) ∧
        ∀ j, j ≠ i → same_level h h' j [].
Proof.
  intros Hi Hfr Hsame.
  destruct (sr_levels _ _ _ Hc i) as (u & p & Hu & _ & Hup); [lia|].
  fold Lp in Hup.
  assert (level_ok h i (Lp ++ xn :: post)) as HL.
  { apply (level_ok_ext (heap s)); [done|]. by apply erase_links. }
  pose proof Hup as (Au & ndu & Bu & HLp & -> & Hju & HBu & ->).
  destruct (HL Au ndu (Bu ++ xn :: post)) as [Hf Hl];
    [by rewrite HLp, <-app_assoc|done|].
  rewrite first_at_app_low in Hf by done. rewrite dist_at_app_low in Hl by done.
  pose proof (erase_cells h Hfr) as Hcells. rewrite Forall_forall in Hcells.
  assert (cell_ok h ndu) as Hcu by (apply Hcells; rewrite HLp; set_solver).
  assert (cell_ok h xn) as Hcx by (apply Hcells; set_solver).
  unfold cell_ok in Hcu, Hcx.
  assert (na ndu ≠ x) as Hne.
  { eapply (NoDup_na_apart _ Au Bu post); [apply erase_NoDup|].
    by rewrite HLp, <-app_assoc. }
  unfold unlink_level, update_at. rewrite Hu. simpl.
  destruct (decide (i ≤ nh xn)%nat) as [Hix|Hix].
  - (* the entry reaches level [i] *)
    destruct (first_at_cons_tall i xn post Hix) as [Hft Hdt].
    rewrite Hft in Hf. rewrite Hdt in Hl. rewrite Hf. simpl.
    rewrite bool_decide_eq_false_2 by naive_solver.
    destruct (HL Lp xn post) as [Hfx Hlx]; [done..|].
    fold x in Hfx, Hlx. rewrite Hfx. simpl.
    destruct (set_forward_ok h (na ndu) i (first_at i post) _ _ _ Hcu)
      as (ha & -> & Hfra & Hla & Hfa); [lia|]. simpl.
    rewrite !Hla, Hl, Hlx. simpl.
    assert (get_shape ha (na ndu) = Some (nk ndu, S (nh ndu), S (nh ndu))) as Hca.
    { destruct Hfra as [_ Hfra]. by destruct (Hfra (na ndu)) as [-> _]. }
    destruct (set_link_ok ha (na ndu) i
                (length Bu + 1 + (dist_at i post - 1)) _ _ _ Hca)
      as (h' & -> & Hfr' & Hf' & Hl'); [lia|].
    exists h'. split; [done|]. split; [by eapply frame_trans|]. split.
    + apply (level_ok_erase h h' i Lp post xn (na ndu) (length Au)); try done.
      * apply erase_NoDup.
      * intros a Ha. rewrite Hf', Hfa, Hl', Hla.
        rewrite !decide_False; [done|set_solver..].
      * intros _. rewrite Hf', Hfa, Hl'. rewrite !decide_True by done.
        split; [done|]. f_equal.
        assert (length Lp = (length Au + S (length Bu))%nat) as ->.
        { rewrite HLp, length_app. done. }
        lia.
      * lia.
    + intros j Hj a _. rewrite Hf', Hfa, Hl', Hla.
      rewrite !decide_False; [done|naive_solver..].
  - (* the entry is lower: the link passes over it *)
    destruct (first_at_cons_low i xn post Hix) as [Hft Hdt].
    rewrite Hft in Hf. rewrite Hdt in Hl. rewrite Hf. simpl.
    rewrite bool_decide_eq_true_2.
    2:{ intros Heq. apply first_at_in in Heq.
        apply list_elem_of_fmap in Heq as (nd & Hx & Hin).
        apply list_elem_of_split in Hin as (m1 & m2 & Hm).
        eapply (NoDup_na_apart _ Lp m1 m2 xn nd);
          [apply erase_NoDup|by rewrite Hm|done]. }
    rewrite Hl. simpl.
    destruct (set_link_ok h (na ndu) i (length Bu + (1 + dist_at i post) - 1)
                _ _ _ Hcu) as (h' & -> & Hfr' & Hf' & Hl'); [lia|].
    exists h'. split; [done|]. split; [done|]. split.
    + apply (level_ok_erase h h' i Lp post xn (na ndu) (length Au)); try done.
      * apply erase_NoDup.
      * intros a Ha. rewrite Hf', Hl'. rewrite decide_False; [done|set_solver].
      * intros _. rewrite Hf', Hl', decide_True by done. split; [done|].
        exists (length Bu + (1 + dist_at i post)). split; [done|f_equal; lia].
    + intros j Hj a _. rewrite Hf', Hl'. rewrite decide_False; [done|naive_solver].
Qed.

Definition unlinked (k : nat) (h : gmap addr (@Entry T)) : Prop :=
  frame (heap s) h ∧
  (∀ j, (j < k)%nat → (j ≤ level s)%nat → level_ok h j (Lp ++ post)) ∧
  (∀ j, (k ≤ j)%nat → same_level (heap s) h j []).

Lemma unlink_loop :
  ∃ h3, for_up (S (level s)) 0 (unlink_level x (update c)) (heap s) = Some h3 ∧
        unlinked (S (level s)) h3.
Proof.
  destruct (for_up_rule unlinked (unlink_level x (update c)) (S (level s)) 0)
    with (s := heap s) as (h3 & Hrun & H3).
  - intros k h Hk (Hfr & Hdone & Htodo).
    destruct (unlink_step k h) as (h' & Hs & Hfr' & Hk' & Hrest);
      [lia|done|apply Htodo; lia|].
    exists h'. split; [done|]. split; [|split].
    + by eapply frame_trans.
    + intros j Hj Hjl. destruct (decide (j = k)) as [->|Hne]; [done|].
      apply (level_ok_ext h); [apply Hrest; lia|]. apply Hdone; [lia|done].
    + intros j Hj.
      eapply same_level_trans; [apply Htodo; lia|apply Hrest; lia].
  - split; [apply frame_refl|]. split; [intros; lia|]. by intros j _ a _.
  - by exists h3.
Qed.

Lemma shrink_level_ok (h : gmap addr (@Entry T)) hd lvl :
  (∀ j, (j ≤ lvl)%nat → is_Some (get_forward h hd j)) →
  ∃ l, shrink_level h hd lvl = Some l ∧ (l ≤ lvl)%nat ∧
       ∀ j, (l < j ≤ lvl)%nat → get_forward h hd j = Some None.
Proof.
  induction lvl as [|lvl IH]; intros Hdef; simpl.
  - exists 0%nat. split; [done|]. split; [done|]. intros; lia.
  - destruct (Hdef (S lvl)) as [f Hf]; [lia|]. rewrite Hf. simpl.
    destruct f as [y|].
    + exists (S lvl). split; [done|]. split; [done|]. intros; lia.
    + destruct IH as (l & -> & Hl & Hnone); [intros; apply Hdef; lia|].
      exists l. split; [done|]. split; [lia|]. intros j Hj.
      destruct (decide (j = S lvl)) as [->|Hne]; [done|]. apply Hnone. lia.
Qed.

Lemma unlinked_Inv h3 :
  unlinked (S (level s)) h3 →
  ∃ l, shrink_level (delete x h3) (header s) (level s) = Some l ∧
       Inv (mkStore (delete x h3) (header s) l (num_entries s - 1))
         (pre ++ post) ∧
       ∀ a, a ≠ x → get_obj (delete x h3) a = get_obj (heap s) a.
Proof.
  intros (Hfr & Hdone & Htodo).
  pose proof erase_NoDup as Hnd.
  assert (x ∉ na <$> (Lp ++ post)) as Hx.
  { intros Hin. apply list_elem_of_fmap in Hin as (nd & Heq & Hin).
    eapply (NoDup_na_split Lp post xn nd); done. }
  assert (∀ a, a ≠ x → delete x h3 !! a = h3 !! a) as Hdel.
  { intros a Ha. by rewrite lookup_delete_ne. }
  assert (∀ j, (j ≤ level s)%nat → level_ok (delete x h3) j (Lp ++ post)) as HL.
  { intros j Hj. apply (level_ok_ext_out h3 _ j _ [x]).
    - intros a Ha. unfold get_forward, get_link. rewrite Hdel; [done|set_solver].
    - intros a Ha. by apply list_elem_of_singleton in Ha as ->.
    - apply Hdone; [lia|done]. }
  assert (header s ≠ x) as Hhx.
  { intros Heq. apply Hx. rewrite <-Heq. unfold Lp. set_solver. }
  pose proof (inv_level _ _ HI) as Hlev.
  destruct (shrink_level_ok (delete x h3) (header s) (level s))
    as (l & Hl & Hle & Hnone).
  { intros j Hj. destruct (HL j Hj [] (hd_node s) (pre ++ post)) as [Hf _];
      [done|simpl; lia|]. simpl in Hf. by rewrite Hf. }
  exists l. split; [done|]. split.
  - split; simpl.
    + unfold Lp in Hnd. simpl in Hnd. rewrite fmap_app in Hnd |- *.
      simpl in Hnd. apply NoDup_cons in Hnd as [Hh Hnd].
      apply NoDup_app in Hnd as (Hp & Hd & Hq).
      apply NoDup_cons in Hq as [_ Hq].
      apply NoDup_cons. split; [set_solver|].
      apply NoDup_app. split; [done|]. split; [|done].
      intros a Ha. specialize (Hd a Ha). set_solver.
    + rewrite dom_delete_L. destruct Hfr as [-> _]. rewrite (inv_dom _ _ HI).
      rewrite Hns. unfold Lp in Hx. simpl in Hx.
      rewrite !fmap_app in *. simpl. rewrite !list_to_set_app_L. simpl.
      fold x. set_solver.
    + lia.
    + unfold cell_ok, get_shape. simpl. rewrite Hdel by done.
      destruct Hfr as [_ Hfr]. destruct (Hfr (header s)) as [Hs _].
      unfold get_shape in Hs. rewrite Hs. apply (inv_header _ _ HI).
    + pose proof (erase_cells h3 Hfr) as Hcells. apply Forall_forall.
      intros nd Hin. unfold cell_ok, get_shape. rewrite Hdel.
      * rewrite Forall_forall in Hcells. apply (Hcells nd).
        unfold Lp. set_solver.
      * intros Heq. apply Hx. rewrite <-Heq. apply list_elem_of_fmap_2.
        unfold Lp. set_solver.
    + apply Forall_forall. intros nd Hin.
      destruct (decide (nh nd ≤ l)%nat) as [|Hgt]; [done|]. exfalso.
      assert (nh nd ≤ level s)%nat as Hh.
      { pose proof (inv_heights _ _ HI) as Hh. rewrite Forall_forall in Hh.
        apply Hh. rewrite Hns. set_solver. }
      destruct (HL (nh nd) Hh [] (hd_node s) (pre ++ post)) as [Hf _];
        [done|simpl; lia|].
      simpl in Hf. rewrite Hnone in Hf by lia. injection Hf as Hf.
      symmetry in Hf. apply first_at_None in Hf. rewrite Forall_forall in Hf.
      specialize (Hf nd Hin). unfold low in Hf. lia.
    + pose proof (inv_sorted _ _ HI) as Hs. rewrite Hns in Hs.
      apply StronglySorted_app in Hs as (Hs0 & Hs1 & Hs2).
      apply StronglySorted_cons in Hs2 as [_ Hs2].
      apply StronglySorted_app. split; [|done].
      intros a b Ha Hb. apply Hs0; [done|]. set_solver.
    + intros j Hj. apply HL. lia.
    + intros j Hj. destruct (decide (j ≤ level s)%nat) as [Hjl|Hjl].
      * apply Hnone. lia.
      * unfold get_forward. rewrite Hdel by done.
        destruct (Htodo j) with (a := header s) as [Hf _]; [lia|set_solver|].
        unfold get_forward in Hf. rewrite Hf. apply (inv_top _ _ HI). lia.
    + rewrite (inv_size _ _ HI), Hns, !length_app. simpl. lia.
  - intros a Ha. unfold get_obj. rewrite Hdel by done.
    destruct Hfr as [_ Hfr]. by destruct (Hfr a) as [_ ?].
Qed.

End erase_present.

(** ** [erase] keeps the invariant *)

Section erase.
Context {T : Type}.
Implicit Types (h : gmap addr (@Entry T)) (s : @ObjectStore T).

Lemma erase_search s ns v pre post :
  Inv s ns → ns = pre ++ post →
  Forall (λ n, nk n < v) pre → Forall (λ n, v ≤ nk n) post →
  ∃ c, for_down (level s) (erase_level (heap s) (base.size (heap s)) v)
         (header s, replicate (S MAX_LEVEL) None) = Some (cur c, update c) ∧
       searched s pre c.
Proof.
  intros HI Hns Hpre Hpost.
  destruct (insert_search s ns v pre post HI Hns Hpre Hpost) as (c & Hs & Hc).
  exists c. split; [|done]. by apply erase_search_cur in Hs.
Qed.

Lemma erase_present_ok s ns pre xn post v :
  Inv s ns → ns = pre ++ xn :: post →
  Forall (λ nd, nk nd < v) pre → nk xn = v →
  ∃ s', erase v s = Some s' ∧ Inv s' (pre ++ post) ∧
    header s' = header s ∧
    ∀ a, a ≠ na xn → get_obj (heap s') a = get_obj (heap s) a.
Proof.
  intros HI Hns Hpre Hkey.
  assert (Forall (λ nd, v ≤ nk nd) (xn :: post)) as Hpost.
  { pose proof (inv_sorted _ _ HI) as Hs. rewrite Hns in Hs.
    apply StronglySorted_app in Hs as (_ & _ & Hs).
    apply StronglySorted_cons in Hs as [Hs _].
    apply Forall_cons. split; [lia|].
    eapply Forall_impl; [exact Hs|]. unfold key_lt. simpl. intros; lia. }
  destruct (erase_search s ns v pre (xn :: post) HI Hns Hpre Hpost)
    as (c & Hsearch & Hc).
  pose proof (inv_cells _ _ HI) as Hcells. rewrite Hns in Hcells.
  apply Forall_app in Hcells as [_ Hcells].
  apply Forall_cons in Hcells as [Hcell _].
  unfold erase. rewrite Hsearch. simpl.
  rewrite (searched_next s ns pre (xn :: post) c HI Hns Hc). simpl.
  rewrite (get_value_shape _ _ _ _ _ Hcell). simpl.
  rewrite bool_decide_eq_true_2 by done.
  destruct (unlink_loop s ns pre post xn c HI Hns Hc) as (h3 & -> & H3).
  simpl.
  destruct (unlinked_Inv s ns pre post xn c HI Hns Hc h3 H3)
    as (l & -> & HI' & Hobj).
  simpl. eexists. split; [done|]. split; [done|]. split; [done|]. done.
Qed.

Lemma erase_absent_ok s ns v :
  Inv s ns → v ∉ nk <$> ns → erase v s = Some s.
Proof.
  intros HI Hv.
  destruct (sorted_split ns v (inv_sorted _ _ HI))
    as (pre & post & Hns & Hpre & Hpost).
  destruct (erase_search s ns v pre post HI Hns Hpre Hpost)
    as (c & Hsearch & Hc).
  unfold erase. rewrite Hsearch. simpl.
  rewrite (searched_next s ns pre post c HI Hns Hc). simpl.
  destruct post as [|nd post]; simpl; [done|].
  pose proof (inv_cells _ _ HI) as Hcells. rewrite Hns in Hcells.
  apply Forall_app in Hcells as [_ Hcells].
  apply Forall_cons in Hcells as [Hcell _].
  rewrite (get_value_shape _ _ _ _ _ Hcell). simpl.
  rewrite bool_decide_eq_false_2; [done|].
  intros Heq. apply Hv. rewrite Hns, <-Heq, fmap_app, fmap_cons. set_solver.
Qed.

End erase.

(** ** The operations that only read *)

Section reads.
Context {T : Type}.
Variable NULL : T.
Implicit Types (h : gmap addr (@Entry T)) (s : @ObjectStore T).

Lemma descend_ok s ns v pre post :
  Inv s ns → ns = pre ++ post →
  Forall (λ n, nk n < v) pre → Forall (λ n, v ≤ nk n) post →
  ∃ u, descend s v = Some u ∧
       get_forward (heap s) u 0 = Some (na <$> head post).
Proof.
  intros HI Hns Hpre Hpost.
  destruct (insert_search s ns v pre post HI Hns Hpre Hpost) as (c & Hs & Hc).
  exists (cur c). split.
  - apply descend_search_cur in Hs. done.
  - by apply (searched_next s ns pre post).
Qed.

Lemma key_absent (pre post : list anode) v :
  Forall (λ n, nk n < v) pre → Forall (λ n, v < nk n) post →
  v ∉ nk <$> (pre ++ post).
Proof.
  intros Hpre Hpost Hin. apply list_elem_of_fmap in Hin as (nd & -> & Hin).
  rewrite Forall_forall in Hpre, Hpost.
  apply elem_of_app in Hin as [Hin|Hin].
  - specialize (Hpre _ Hin). simpl in Hpre. lia.
  - specialize (Hpost _ Hin). simpl in Hpost. lia.
Qed.

(** Where a key sits among sorted towers. *)
Lemma sorted_find (ns : list anode) v :
  StronglySorted key_lt ns →
  (∃ pre xn post, ns = pre ++ xn :: post ∧ nk xn = v ∧
      Forall (λ n, nk n < v) pre ∧ Forall (λ n, v < nk n) post) ∨
  (∃ pre post, ns = pre ++ post ∧
      Forall (λ n, nk n < v) pre ∧ Forall (λ n, v < nk n) post).
Proof.
  intros Hs. destruct (sorted_split ns v Hs) as (pre & post & Hns & Hpre & Hpost).
  destruct post as [|xn post].
  - right. exists pre, []. by repeat split.
  - rewrite Hns in Hs. apply StronglySorted_app in Hs as (_ & _ & Hs).
    apply StronglySorted_cons in Hs as [Hs _].
    apply Forall_cons in Hpost as [Hx Hpost].
    destruct (decide (nk xn = v)) as [Heq|Hne].
    + left. exists pre, xn, post. repeat split; try done.
      eapply Forall_impl; [exact Hs|]. unfold key_lt. simpl. intros; lia.
    + right. exists pre, (xn :: post). repeat split; try done.
      apply Forall_cons. split; [lia|].
      eapply Forall_impl; [exact Hs|]. unfold key_lt. simpl. intros; lia.
Qed.

Lemma contains_present s ns pre xn post :
  Inv s ns → ns = pre ++ xn :: post → Forall (λ n, nk n < nk xn) pre →
  contains s (nk xn) = Some true ∧
  get NULL s (nk xn) = get_obj (heap s) (na xn).
Proof.
  intros HI Hns Hpre.
  assert (Forall (λ nd, nk xn ≤ nk nd) (xn :: post)) as Hpost.
  { pose proof (inv_sorted _ _ HI) as Hs. rewrite Hns in Hs.
    apply StronglySorted_app in Hs as (_ & _ & Hs).
    apply StronglySorted_cons in Hs as [Hs _].
    apply Forall_cons. split; [lia|].
    eapply Forall_impl; [exact Hs|]. unfold key_lt. simpl. intros; lia. }
  destruct (descend_ok s ns (nk xn) pre (xn :: post) HI Hns Hpre Hpost)
    as (u & Hd & Hf).
  pose proof (inv_cells _ _ HI) as Hcells. rewrite Hns in Hcells.
  apply Forall_app in Hcells as [_ Hcells].
  apply Forall_cons in Hcells as [Hcell _].
  unfold contains, get. rewrite Hd. simpl. rewrite Hf. simpl.
  rewrite (get_value_shape _ _ _ _ _ Hcell). simpl.
  by rewrite bool_decide_eq_true_2.
Qed.

Lemma contains_absent s ns v :
  Inv s ns → v ∉ nk <$> ns →
  contains s v = Some false ∧ get NULL s v = Some NULL.
Proof.
  intros HI Hv.
  destruct (sorted_split ns v (inv_sorted _ _ HI))
    as (pre & post & Hns & Hpre & Hpost).
  destruct (descend_ok s ns v pre post HI Hns Hpre Hpost) as (u & Hd & Hf).
  unfold contains, get. rewrite Hd. simpl. rewrite Hf. simpl.
  destruct post as [|nd post]; simpl; [done|].
  pose proof (inv_cells _ _ HI) as Hcells. rewrite Hns in Hcells.
  apply Forall_app in Hcells as [_ Hcells].
  apply Forall_cons in Hcells as [Hcell _].
  rewrite (get_value_shape _ _ _ _ _ Hcell). simpl.
  rewrite bool_decide_eq_false_2; [done|].
  intros Heq. apply Hv. rewrite Hns, <-Heq, fmap_app, fmap_cons. set_solver.
Qed.

(** *** Lookup by rank *)

Section rank.
Variables (s : @ObjectStore T) (ns : list anode) (pos : Z).
Hypothesis HI : Inv s ns.
Hypothesis Hpos : 0 ≤ pos < length ns.

Let chain := hd_node s :: ns.

(** The search stands on a tower, having counted the towers before it. *)
Definition at_tower (i : nat) (st : addr * Z) (B : list anode) : Prop :=
  ∃ A nd, chain = A ++ nd :: B ∧ st = (na nd, Z.of_nat (length A)) ∧
          (i ≤ nh nd)%nat ∧ length A ≤ pos + 1.

Lemma rank_walk i fuel st B :
  (i ≤ level s)%nat → at_tower i st B → (length B < fuel)%nat →
  ∃ st' B', while fuel (rank_cond (heap s) i pos) (rank_step (heap s) i) st
              = Some st' ∧
    at_tower i st' B' ∧
    (first_at i B' = None ∨ pos + 1 < st'.2 + dist_at i B').
Proof.
  intros Hi Hst Hfuel.
  destruct (while_rule (λ n st, ∃ B, at_tower i st B ∧ n = length B)
              (rank_cond (heap s) i pos) (rank_step (heap s) i))
    with (fuel := fuel) (n := length B) (s := st)
    as (st' & n' & Hw & (B' & Hst' & ->) & Hc); [|by exists B|done|].
  - clear st B Hst Hfuel.
    intros n st (B & (A & nd & Hch & -> & Hnd & HA) & ->).
    destruct (inv_links _ _ HI i Hi A nd B Hch Hnd) as [Hf Hl].
    unfold rank_cond. simpl. rewrite Hf. simpl.
    destruct (first_at i B) as [y|] eqn:Hy; [|by exists false].
    rewrite Hl. simpl. eexists; split; [done|]. intros Hb.
    apply bool_decide_eq_true_1 in Hb.
    destruct (first_at_Some _ _ _ Hy) as (B1 & nd' & B2 & -> & _ & Hnd' & <- & Hd).
    unfold rank_step, step. simpl. rewrite Hl, Hf. simpl.
    eexists _, (length B2). split; [done|]. split.
    + exists B2. split; [|done]. exists (A ++ nd :: B1), nd'.
      split; [by rewrite Hch, <-app_assoc|]. rewrite length_app. simpl.
      split; [f_equal; lia|]. split; [done|lia].
    + rewrite length_app. simpl. lia.
  - exists st', B'. split; [done|]. split; [done|].
    destruct Hst' as (A & nd & Hch & -> & Hnd & HA).
    destruct (inv_links _ _ HI i Hi A nd B' Hch Hnd) as [Hf Hl].
    unfold rank_cond in Hc. simpl in Hc. rewrite Hf in Hc. simpl in Hc.
    destruct (first_at i B') as [y|]; [|by left]. right.
    rewrite Hl in Hc. simpl in Hc. injection Hc as Hc.
    apply bool_decide_eq_false_1 in Hc. simpl. lia.
Qed.

Lemma rank_search :
  ∃ nd, ns !! Z.to_nat pos = Some nd ∧
    for_down (level s)
      (λ i st, while (base.size (heap s)) (rank_cond (heap s) i pos)
                 (rank_step (heap s) i) st) (header s, 0)
    = Some (na nd, pos + 1).
Proof.
  pose proof (inv_level _ _ HI) as Hlev.
  destruct (for_down_rule
    (λ i st, ∃ B, at_tower i st B)
    (λ i st, ∃ B, at_tower i st B ∧
                  (first_at i B = None ∨ pos + 1 < st.2 + dist_at i B))
    (λ i st, while (base.size (heap s)) (rank_cond (heap s) i pos)
               (rank_step (heap s) i) st) (level s))
    with (s := (header s, 0)) as (st & Hrun & B & Hst & Hstop).
  - intros i st Hi (B & Hst).
    destruct (rank_walk i (base.size (heap s)) st B Hi Hst)
      as (st' & B' & Hw & Hst' & Hstop).
    { rewrite (Inv_fuel _ _ HI). destruct Hst as (A & nd & Hch & _).
      destruct (cons_split_suffix _ _ _ _ _ Hch) as (A' & ->).
      rewrite length_app. lia. }
    exists st'. split; [done|]. by exists B'.
  - intros i st Hi (B & (A & nd & Hch & -> & Hnd & HA) & _).
    exists B, A, nd. repeat split; try done. lia.
  - exists ns, [], (hd_node s). repeat split; try done. simpl. lia.
  - destruct Hst as (A & nd & Hch & -> & Hnd & HA). simpl in Hstop.
    assert (Z.of_nat (length A) = pos + 1) as HlenA.
    { destruct Hstop as [Hnone|Hlt].
      - rewrite first_at_0 in Hnone. destruct B; [|done].
        apply (f_equal length) in Hch. rewrite length_app in Hch.
        simpl in Hch. lia.
      - pose proof (dist_at_pos 0 B).
        destruct B as [|b B]; simpl in Hlt.
        + apply (f_equal length) in Hch. rewrite length_app in Hch.
          simpl in Hch. lia.
        + destruct (decide (0 ≤ nh b)%nat); lia. }
    destruct A as [|a A]; [simpl in HlenA; lia|].
    unfold chain in Hch. simpl in Hch. injection Hch as _ Hns.
    exists nd. split.
    + simpl in HlenA. replace (Z.to_nat pos) with (length A) by lia.
      by rewrite Hns, list_lookup_middle.
    + rewrite Hrun. by rewrite HlenA.
Qed.

Lemma get_at_index_in :
  ∃ nd, ns !! Z.to_nat pos = Some nd ∧
    get_at_index s pos =
      match get_obj (heap s) (na nd) with Some o => Ok o | None => Undefined end.
Proof.
  destruct rank_search as (nd & Hnd & Hrun). exists nd. split; [done|].
  unfold get_at_index. rewrite bool_decide_eq_false_2.
  2:{ rewrite (inv_size _ _ HI). lia. }
  rewrite Hrun. done.
Qed.

End rank.

Lemma get_at_index_out s pos :
  ¬ (0 ≤ pos < num_entries s) →
  get_at_index s pos = Throw ElementNotFoundException.
Proof.
  intros Hpos. unfold get_at_index. rewrite bool_decide_eq_true_2; [done|lia].
Qed.

End reads.

(** ** The store as a sorted association list *)

Section reference.
Context {T : Type}.

(** The specification's view of the store: pairs of key and handle,
    ascending by key. *)
Fixpoint ref_put (k : Z) (o : T) (l : list (Z * T)) : list (Z * T) :=
  match l with
  | [] => [(k, o)]
  | kv :: r =>
      if decide (k < kv.1) then (k, o) :: l
      else if decide (k = kv.1) then (k, o) :: r
      else kv :: ref_put k o r
  end.

Fixpoint ref_del (k : Z) (l : list (Z * T)) : list (Z * T) :=
  match l with
  | [] => []
  | kv :: r => if decide (k = kv.1) then r else kv :: ref_del k r
  end.

Fixpoint ref_find (k : Z) (l : list (Z * T)) : option T :=
  match l with
  | [] => None
  | kv :: r => if decide (k = kv.1) then Some kv.2 else ref_find k r
  end.

Implicit Types (l pre post : list (Z * T)).

Lemma ref_put_new k o pre post :
  Forall (λ kv, kv.1 < k) pre → Forall (λ kv, k < kv.1) post →
  ref_put k o (pre ++ post) = pre ++ (k, o) :: post.
Proof.
  intros Hpre Hpost. induction Hpre as [|kv pre Hkv Hpre IH]; simpl.
  - destruct Hpost as [|kv post Hkv Hpost]; simpl; [done|].
    by rewrite decide_True.
  - rewrite decide_False by lia. rewrite decide_False by lia. by rewrite IH.
Qed.

Lemma ref_put_present k o o' pre post :
  Forall (λ kv, kv.1 < k) pre →
  ref_put k o (pre ++ (k, o') :: post) = pre ++ (k, o) :: post.
Proof.
  intros Hpre. induction Hpre as [|kv pre Hkv Hpre IH]; simpl.
  - rewrite decide_False by lia. by rewrite decide_True.
  - rewrite decide_False by lia. rewrite decide_False by lia. by rewrite IH.
Qed.

Lemma ref_del_present k o' pre post :
  Forall (λ kv, kv.1 < k) pre →
  ref_del k (pre ++ (k, o') :: post) = pre ++ post.
Proof.
  intros Hpre. induction Hpre as [|kv pre Hkv Hpre IH]; simpl.
  - by rewrite decide_True.
  - rewrite decide_False by lia. by rewrite IH.
Qed.

Lemma ref_del_absent k l : k ∉ l.*1 → ref_del k l = l.
Proof.
  induction l as [|kv l IH]; simpl; [done|]. intros Hk.
  rewrite decide_False by set_solver. rewrite IH; [done|set_solver].
Qed.

Lemma ref_find_present k o pre post :
  Forall (λ kv, kv.1 < k) pre → ref_find k (pre ++ (k, o) :: post) = Some o.
Proof.
  intros Hpre. induction Hpre as [|kv pre Hkv Hpre IH]; simpl.
  - by rewrite decide_True.
  - by rewrite decide_False by lia.
Qed.

Lemma ref_find_absent k l : k ∉ l.*1 → ref_find k l = None.
Proof.
  induction l as [|kv l IH]; simpl; [done|]. intros Hk.
  rewrite decide_False by set_solver. apply IH. set_solver.
Qed.

End reference.

(** ** The abstraction relation *)

Section abstraction.
Context {T : Type}.
Variable NULL : T.
Implicit Types (h : gmap addr (@Entry T)) (s : @ObjectStore T).
Implicit Types (kvs : list (Z * T)).

(** The pair a tower stands for. *)
Definition tagged h (nd : anode) (kv : Z * T) : Prop :=
  nk nd = kv.1 ∧ get_obj h (na nd) = Some kv.2.

(** [s] is a well-formed skip list that holds the pairs [kvs]. *)
Definition Abs s kvs : Prop :=
  ∃ ns, Inv s ns ∧ Forall2 (tagged (heap s)) ns kvs.

Lemma tagged_keys h ns kvs : Forall2 (tagged h) ns kvs → kvs.*1 = nk <$> ns.
Proof.
  induction 1 as [|nd kv ns kvs [Hk _] _ IH]; [done|].
  by rewrite !fmap_cons, Hk, IH.
Qed.

Lemma tagged_Forall h ns kvs (P : Z → Prop) :
  Forall2 (tagged h) ns kvs → Forall (λ nd, P (nk nd)) ns →
  Forall (λ kv, P kv.1) kvs.
Proof.
  induction 1 as [|nd kv ns kvs [Hk _] _ IH]; [done|].
  intros Hall. apply Forall_cons in Hall as [Hnd Hall].
  apply Forall_cons. split; [by rewrite <-Hk|auto].
Qed.

Lemma tagged_ext h h' ns kvs :
  (∀ nd, nd ∈ ns → get_obj h' (na nd) = get_obj h (na nd)) →
  Forall2 (tagged h) ns kvs → Forall2 (tagged h') ns kvs.
Proof.
  intros Hext Hall. induction Hall as [|nd kv ns kvs [Hk Ho] _ IH]; [done|].
  constructor.
  - split; [done|]. rewrite Hext; [done|set_solver].
  - apply IH. intros nd' Hin. apply Hext. set_solver.
Qed.

Lemma Abs_sorted s kvs : Abs s kvs → StronglySorted Z.lt kvs.*1.
Proof.
  intros (ns & HI & Htag). rewrite (tagged_keys _ _ _ Htag).
  pose proof (inv_sorted _ _ HI) as Hs. clear Htag HI.
  induction Hs as [|nd r Hr IH Hnd]; [constructor|].
  rewrite fmap_cons. apply SSorted_cons; [exact IH|].
  apply Forall_fmap. exact Hnd.
Qed.

Lemma Abs_size s kvs : Abs s kvs → size s = length kvs.
Proof.
  intros (ns & HI & Htag). unfold size. rewrite (inv_size _ _ HI).
  by rewrite (Forall2_length _ _ _ Htag).
Qed.

Lemma na_ne_of_NoDup s ns pre xn post nd :
  Inv s ns → ns = pre ++ xn :: post → nd ∈ pre ++ post → na nd ≠ na xn.
Proof.
  intros HI Hns Hin. pose proof (inv_nodup _ _ HI) as Hnd.
  apply NoDup_cons in Hnd as [_ Hnd].
  by eapply (NoDup_na_split pre post xn nd ns).
Qed.

Lemma tagged_overwrite s ns kvs pre xn post k o h' :
  Inv s ns → ns = pre ++ xn :: post → nk xn = k →
  Forall (λ nd, nk nd < k) pre → Forall (λ nd, k < nk nd) post →
  Forall2 (tagged (heap s)) ns kvs →
  (∀ a, get_obj h' a =
        if decide (a = na xn) then Some o else get_obj (heap s) a) →
  ∃ kpre ox kpost,
    kvs = kpre ++ (k, ox) :: kpost ∧
    Forall (λ kv, kv.1 < k) kpre ∧ Forall (λ kv, k < kv.1) kpost ∧
    Forall2 (tagged h') ns (kpre ++ (k, o) :: kpost).
Proof.
  intros HI Hns Hkey Hpre Hpost Htag Hobj. rewrite Hns in Htag.
  apply Forall2_app_inv_l in Htag as (kpre & kpost' & Hp & Hq & ->).
  apply Forall2_cons_inv_l in Hq as ([kx ox] & kpost & [Hkx Hox] & Hq & ->).
  simpl in Hkx. subst kx. rewrite Hkey.
  exists kpre, ox, kpost. split; [done|].
  split; [by apply (tagged_Forall _ _ _ (λ z, z < k) Hp)|].
  split; [by apply (tagged_Forall _ _ _ (λ z, k < z) Hq)|].
  rewrite Hns. apply Forall2_app; [|constructor].
  - apply (tagged_ext (heap s)); [|done]. intros nd Hin. rewrite Hobj.
    rewrite decide_False; [done|].
    apply (na_ne_of_NoDup s ns pre xn post nd HI Hns). set_solver.
  - split; [done|]. simpl. rewrite Hobj. by rewrite decide_True.
  - apply (tagged_ext (heap s)); [|done]. intros nd Hin. rewrite Hobj.
    rewrite decide_False; [done|].
    apply (na_ne_of_NoDup s ns pre xn post nd HI Hns). set_solver.
Qed.

Theorem Abs_insert s kvs lvl k o :
  Abs s kvs → (lvl ≤ MAX_LEVEL)%nat →
  ∃ s', insert lvl k o s = Some s' ∧ Abs s' (ref_put k o kvs) ∧
        header s' = header s.
Proof.
  intros (ns & HI & Htag) Hlvl.
  destruct (sorted_find ns k (inv_sorted _ _ HI))
    as [(pre & xn & post & Hns & Hkey & Hpre & Hpost)|
        (pre & post & Hns & Hpre & Hpost)].
  - destruct (insert_present_ok s ns pre xn post k o lvl HI Hns Hpre Hkey)
      as (h' & Hset & Hins & HI' & _ & _ & Hobj).
    eexists. split; [exact Hins|]. split; [|done].
    exists ns. split; [done|]. simpl.
    destruct (tagged_overwrite s ns kvs pre xn post k o h' HI Hns Hkey Hpre
                Hpost Htag Hobj) as (kpre & ox & kpost & -> & Hkp & _ & Htag').
    by rewrite (ref_put_present k o ox).
  - destruct (insert_new_ok s ns pre post k o lvl HI Hns Hpre Hpost Hlvl)
      as (s' & x & Hins & Hx & HI' & Hhd & Hobj).
    exists s'. split; [done|]. split; [|done].
    eexists. split; [exact HI'|]. rewrite Hns in Htag.
    apply Forall2_app_inv_l in Htag as (kpre & kpost & Hp & Hq & ->).
    rewrite ref_put_new.
    2:{ by apply (tagged_Forall _ _ _ (λ z, z < k) Hp). }
    2:{ by apply (tagged_Forall _ _ _ (λ z, k < z) Hq). }
    assert (∀ nd, nd ∈ ns → get_obj (heap s') (na nd) = get_obj (heap s) (na nd))
      as Hold.
    { intros nd Hin. rewrite Hobj. rewrite decide_False; [done|].
      intros Heq. apply Hx. rewrite <-Heq. apply elem_of_cons. right.
      by apply list_elem_of_fmap_2. }
    apply Forall2_app; [|constructor].
    + apply (tagged_ext (heap s)); [|done]. intros nd Hin. apply Hold.
      rewrite Hns. set_solver.
    + split; [done|]. simpl. rewrite Hobj. by rewrite decide_True.
    + apply (tagged_ext (heap s)); [|done]. intros nd Hin. apply Hold.
      rewrite Hns. set_solver.
Qed.

Theorem Abs_erase s kvs k :
  Abs s kvs →
  ∃ s', erase k s = Some s' ∧ Abs s' (ref_del k kvs) ∧ header s' = header s ∧
        (k ∉ kvs.*1 → s' = s).
Proof.
  intros (ns & HI & Htag).
  destruct (sorted_find ns k (inv_sorted _ _ HI))
    as [(pre & xn & post & Hns & Hkey & Hpre & Hpost)|
        (pre & post & Hns & Hpre & Hpost)].
  - destruct (erase_present_ok s ns pre xn post k HI Hns Hpre Hkey)
      as (s' & Her & HI' & Hhd & Hobj).
    exists s'. split; [done|]. split; [|split; [done|]].
    + eexists. split; [exact HI'|]. rewrite Hns in Htag.
      apply Forall2_app_inv_l in Htag as (kpre & kpost' & Hp & Hq & ->).
      apply Forall2_cons_inv_l in Hq as ([kx ox] & kpost & [Hkx Hox] & Hq & ->).
      simpl in Hkx. subst kx. rewrite Hkey.
      rewrite (ref_del_present k ox).
      2:{ by apply (tagged_Forall _ _ _ (λ z, z < k) Hp). }
      apply Forall2_app.
      * apply (tagged_ext (heap s)); [|done]. intros nd Hin. apply Hobj.
        apply (na_ne_of_NoDup s ns pre xn post nd HI Hns). set_solver.
      * apply (tagged_ext (heap s)); [|done]. intros nd Hin. apply Hobj.
        apply (na_ne_of_NoDup s ns pre xn post nd HI Hns). set_solver.
    + intros Hk. exfalso. apply Hk. rewrite (tagged_keys _ _ _ Htag), Hns.
      rewrite fmap_app, fmap_cons, Hkey. set_solver.
  - assert (k ∉ nk <$> ns) as Hk by (rewrite Hns; by apply key_absent).
    exists s. split; [by apply (erase_absent_ok s ns)|].
    split; [|done]. rewrite ref_del_absent.
    + by exists ns.
    + by rewrite (tagged_keys _ _ _ Htag).
Qed.

Theorem Abs_lookup s kvs k :
  Abs s kvs →
  contains s k = Some (bool_decide (k ∈ kvs.*1)) ∧
  get NULL s k = Some (default NULL (ref_find k kvs)).
Proof.
  intros (ns & HI & Htag).
  destruct (sorted_find ns k (inv_sorted _ _ HI))
    as [(pre & xn & post & Hns & Hkey & Hpre & Hpost)|
        (pre & post & Hns & Hpre & Hpost)].
  - subst k. destruct (contains_present NULL s ns pre xn post HI Hns Hpre)
      as [-> ->].
    rewrite Hns in Htag.
    apply Forall2_app_inv_l in Htag as (kpre & kpost' & Hp & Hq & ->).
    apply Forall2_cons_inv_l in Hq as ([kx ox] & kpost & [Hkx Hox] & Hq & ->).
    simpl in Hkx, Hox. subst kx. split.
    + rewrite bool_decide_eq_true_2; [done|].
      rewrite fmap_app, fmap_cons. set_solver.
    + rewrite ref_find_present; [done|].
      by apply (tagged_Forall _ _ _ (λ z, z < nk xn) Hp).
  - assert (k ∉ nk <$> ns) as Hk by (rewrite Hns; by apply key_absent).
    destruct (contains_absent NULL s ns k HI Hk) as [-> ->].
    rewrite <-(tagged_keys _ _ _ Htag) in Hk.
    rewrite bool_decide_eq_false_2 by done.
    by rewrite ref_find_absent.
Qed.

Theorem Abs_get_at_index s kvs pos :
  Abs s kvs → 0 ≤ pos < length kvs →
  ∃ kv, kvs !! Z.to_nat pos = Some kv ∧ get_at_index s pos = Ok kv.2.
Proof.
  intros (ns & HI & Htag) Hpos.
  rewrite <-(Forall2_length _ _ _ Htag) in Hpos.
  destruct (get_at_index_in s ns pos HI Hpos) as (nd & Hnd & ->).
  destruct (Forall2_lookup_l _ _ _ _ _ Htag Hnd) as (kv & Hkv & _ & Ho).
  exists kv. split; [done|]. by rewrite Ho.
Qed.

(** *** Iteration *)

Lemma collect_ok {A} s ns (f : gmap addr (@Entry T) → addr → option A)
    post (l : list A) :
  Inv s ns →
  ∀ pre fuel, ns = pre ++ post →
  Forall2 (λ nd a, f (heap s) (na nd) = Some a) post l →
  (length post < fuel)%nat →
  collect fuel s f (na <$> head post) = Some l.
Proof.
  intros HI pre fuel Hns Hall. revert pre fuel Hns.
  induction Hall as [|nd a post l Hnd Hall IH]; intros pre fuel Hns Hfuel.
  - destruct fuel; [simpl in Hfuel; lia|done].
  - destruct fuel as [|fuel]; [simpl in Hfuel; lia|]. simpl. rewrite Hnd. simpl.
    destruct (inv_links _ _ HI 0%nat) with (A := hd_node s :: pre) (nd := nd)
      (R := post) as [Hf _]; [lia|by rewrite Hns|lia|].
    rewrite Hf, first_at_0. simpl.
    rewrite (IH (pre ++ [nd])); [done|by rewrite <-app_assoc|simpl in Hfuel; lia].
Qed.

Lemma begin_ok s ns : Inv s ns → begin s = Some (na <$> head ns).
Proof.
  intros HI. unfold begin.
  destruct (inv_links _ _ HI 0%nat) with (A := @nil anode) (nd := hd_node s)
    (R := ns) as [Hf _]; [lia|done|simpl; lia|].
  simpl in Hf. by rewrite Hf, first_at_0.
Qed.

Theorem Abs_iterate s kvs fuel :
  Abs s kvs → (length kvs < fuel)%nat →
  iterate_entries fuel s = Some kvs ∧ iterate fuel s = Some kvs.*2.
Proof.
  intros (ns & HI & Htag) Hfuel.
  rewrite <-(Forall2_length _ _ _ Htag) in Hfuel.
  unfold iterate_entries, iterate. rewrite (begin_ok s ns HI). simpl. split.
  - apply (collect_ok s ns _ ns kvs HI []); [done| |done].
    pose proof (inv_cells _ _ HI) as Hcells.
    clear Hfuel HI. induction Htag as [|nd [k o] ns' kvs' [Hk Ho] _ IH]; [done|].
    apply Forall_cons in Hcells as [Hcell Hcells]. constructor; [|auto].
    rewrite (get_value_shape _ _ _ _ _ Hcell). simpl. rewrite Ho. simpl.
    simpl in Hk. by rewrite Hk.
  - apply (collect_ok s ns _ ns (kvs.*2) HI []); [done| |done].
    apply Forall2_fmap_r. eapply Forall2_impl; [exact Htag|].
    by intros nd kv [_ Ho].
Qed.

Lemma collect_det {A} s (f : gmap addr (@Entry T) → addr → option A) f1 :
  ∀ f2 it l1 l2,
  collect f1 s f it = Some l1 → collect f2 s f it = Some l2 → l1 = l2.
Proof.
  induction f1 as [|f1 IH]; intros f2 it l1 l2; simpl; [done|].
  destruct f2 as [|f2]; simpl; [done|].
  destruct it as [x|]; [|by intros [= <-] [= <-]].
  destruct (f (heap s) x) as [a|]; simpl; [|done].
  destruct (get_forward (heap s) x 0) as [it'|]; simpl; [|done].
  destruct (collect f1 s f it') as [r1|] eqn:H1; simpl; [|done].
  destruct (collect f2 s f it') as [r2|] eqn:H2; simpl; [|done].
  intros [= <-] [= <-]. f_equal. by eapply IH.
Qed.

Lemma iterate_det s f1 f2 l1 l2 :
  iterate f1 s = Some l1 → iterate f2 s = Some l2 → l1 = l2.
Proof.
  unfold iterate. destruct (begin s) as [it|]; simpl; [|done].
  apply collect_det.
Qed.

End abstraction.

(** ** The store right after construction *)

Section fresh.
Context {T : Type}.
Variable NULL : T.
Implicit Types (h : gmap addr (@Entry T)) (s : @ObjectStore T).
Implicit Types (kvs : list (Z * T)).

(** The constructor leaves [link_length[0]] of the header at 0, where an
    empty list that has been in use has 1.  Nothing reads the slot before
    the first insertion overwrites it. *)
Definition create_linked : @ObjectStore T :=
  mkStore
    {[ 0%nat := mkEntry 0 NULL (replicate (S MAX_LEVEL) None)
                  (1 :: replicate MAX_LEVEL 0) ]}
    0%nat 0%nat 0.

Lemma Inv_create_linked : Inv create_linked [].
Proof.
  split; simpl.
  - apply NoDup_singleton.
  - rewrite dom_singleton_L. set_solver.
  - lia.
  - done.
  - done.
  - done.
  - constructor.
  - intros j Hj. assert (j = 0%nat) as -> by lia.
    intros A nd R Hch _. destruct A as [|a A].
    + injection Hch as <- <-. done.
    + injection Hch as _ Hch. by destruct A.
  - intros j Hj. unfold MAX_LEVEL in Hj.
    do 7 (destruct j as [|j]; [first [lia|done]|]). lia.
  - done.
Qed.

Lemma insert_create lvl k o :
  (lvl ≤ MAX_LEVEL)%nat →
  insert lvl k o (create NULL) = insert lvl k o create_linked.
Proof.
  intros Hlvl. unfold MAX_LEVEL in Hlvl.
  do 7 (destruct lvl as [|lvl]; [reflexivity|]). lia.
Qed.

Lemma erase_create k : erase k (create NULL) = Some (create NULL).
Proof. reflexivity. Qed.

Lemma lookup_create k :
  contains (create NULL) k = Some false ∧ get NULL (create NULL) k = Some NULL.
Proof. split; reflexivity. Qed.

Lemma iterate_create fuel :
  iterate (S fuel) (create NULL) = Some [] ∧
  iterate_entries (S fuel) (create NULL) = Some [].
Proof. split; reflexivity. Qed.

(** What a store reached from [create] stands for. *)
Definition Rep s kvs : Prop := (s = create NULL ∧ kvs = []) ∨ Abs s kvs.

Lemma Rep_sorted s kvs : Rep s kvs → StronglySorted Z.lt kvs.*1.
Proof. intros [[-> ->]|Ha]; [constructor|by eapply Abs_sorted]. Qed.

Lemma Rep_size s kvs : Rep s kvs → size s = length kvs.
Proof. intros [[-> ->]|Ha]; [done|by apply Abs_size]. Qed.

Lemma Rep_insert s kvs lvl k o :
  Rep s kvs → (lvl ≤ MAX_LEVEL)%nat →
  ∃ s', insert lvl k o s = Some s' ∧ Abs s' (ref_put k o kvs).
Proof.
  intros [[-> ->]|Ha] Hlvl.
  - rewrite insert_create by done.
    destruct (Abs_insert create_linked [] lvl k o) as (s' & Hs' & Ha & _);
      [|done|by exists s'].
    exists []. split; [apply Inv_create_linked|constructor].
  - destruct (Abs_insert s kvs lvl k o Ha Hlvl) as (s' & Hs' & Ha' & _).
    by exists s'.
Qed.

Lemma Rep_erase s kvs k :
  Rep s kvs →
  ∃ s', erase k s = Some s' ∧ Rep s' (ref_del k kvs) ∧
        (Abs s kvs → Abs s' (ref_del k kvs)) ∧ (k ∉ kvs.*1 → s' = s).
Proof.
  intros [[-> ->]|Ha].
  - exists (create NULL). split; [apply erase_create|]. split; [by left|].
    split; [|done]. intros Ha. destruct (Abs_erase _ _ k Ha) as (s' & Hs' & Ha' & _).
    rewrite erase_create in Hs'. by injection Hs' as <-.
  - destruct (Abs_erase s kvs k Ha) as (s' & Hs' & Ha' & _ & Hid).
    exists s'. split; [done|]. split; [by right|]. done.
Qed.

Lemma Rep_lookup s kvs k :
  Rep s kvs →
  contains s k = Some (bool_decide (k ∈ kvs.*1)) ∧
  get NULL s k = Some (default NULL (ref_find k kvs)).
Proof.
  intros [[-> ->]|Ha]; [|by apply Abs_lookup].
  destruct (lookup_create k) as [-> ->]. split; [|done].
  rewrite bool_decide_eq_false_2; [done|]. simpl. apply not_elem_of_nil.
Qed.

Lemma Rep_get_at_index s kvs pos :
  Rep s kvs → 0 ≤ pos < length kvs →
  ∃ kv, kvs !! Z.to_nat pos = Some kv ∧ get_at_index s pos = Ok kv.2.
Proof.
  intros [[-> ->]|Ha] Hpos; [simpl in Hpos; lia|]. by apply Abs_get_at_index.
Qed.

Lemma Rep_fuel s kvs : Rep s kvs → (length kvs < base.size (heap s))%nat.
Proof.
  intros [[-> ->]|(ns & HI & Htag)].
  - change (base.size (heap (create NULL))) with 1%nat. simpl. lia.
  - rewrite (Inv_fuel _ _ HI), (Forall2_length _ _ _ Htag). lia.
Qed.

Lemma Rep_iterate s kvs fuel :
  Rep s kvs → (length kvs < fuel)%nat →
  iterate_entries fuel s = Some kvs ∧ iterate fuel s = Some kvs.*2.
Proof.
  intros [[-> ->]|Ha] Hfuel; [|by apply Abs_iterate].
  destruct fuel as [|fuel]; [simpl in Hfuel; lia|].
  destruct (iterate_create fuel) as [-> ->]. done.
Qed.

End fresh.

(** ** Sequences of operations *)

Section runs.
Context {T : Type}.
Variable NULL : T.
Implicit Types (s : @ObjectStore T) (kvs : list (Z * T)).

(** A call of [insert], with the level that [random_level] returns in it,
    or a call of [erase]. *)
Inductive op :=
  | Insert (lvl : nat) (k : Z) (o : T)
  | Erase (k : Z).

Definition apply_op (a : op) s : option ObjectStore :=
  match a with
  | Insert lvl k o => insert lvl k o s
  | Erase k => erase k s
  end.

Fixpoint run (ops : list op) s : option ObjectStore :=
  match ops with
  | [] => Some s
  | a :: r => s' ← apply_op a s; run r s'
  end.

(** [random_level(MAX_LEVEL,P)] is capped at [MAX_LEVEL]. *)
Definition valid_op (a : op) : Prop :=
  match a with
  | Insert lvl _ _ => (lvl ≤ MAX_LEVEL)%nat
  | Erase _ => True
  end.

Definition is_insert (a : op) : Prop :=
  match a with Insert _ _ _ => True | Erase _ => False end.

Definition model_op (a : op) kvs : list (Z * T) :=
  match a with
  | Insert _ k o => ref_put k o kvs
  | Erase k => ref_del k kvs
  end.

Fixpoint model_from (ops : list op) kvs : list (Z * T) :=
  match ops with
  | [] => kvs
  | a :: r => model_from r (model_op a kvs)
  end.

Definition model (ops : list op) : list (Z * T) := model_from ops [].

(** The states that calls of [insert] and [erase] lead to. *)
Definition reachable s : Prop :=
  ∃ ops, Forall valid_op ops ∧ run ops (create NULL) = Some s.

Lemma run_Rep ops :
  Forall valid_op ops → ∀ s kvs, Rep NULL s kvs →
  ∃ s', run ops s = Some s' ∧ Rep NULL s' (model_from ops kvs) ∧
        (Abs s kvs ∨ Exists is_insert ops → Abs s' (model_from ops kvs)).
Proof.
  induction 1 as [|a ops Ha Hops IH]; intros s kvs HR; simpl.
  - exists s. split; [done|]. split; [done|].
    intros [?|Hex]; [done|]. by apply Exists_nil in Hex.
  - destruct a as [lvl k o|k]; simpl in *.
    + destruct (Rep_insert NULL s kvs lvl k o HR Ha) as (s1 & -> & Ha1). simpl.
      destruct (IH s1 (ref_put k o kvs)) as (s' & Hrun & HR' & Habs);
        [by right|].
      exists s'. split; [done|]. split; [done|]. intros _. apply Habs. by left.
    + destruct (Rep_erase NULL s kvs k HR) as (s1 & -> & HR1 & Ha1 & _). simpl.
      destruct (IH s1 (ref_del k kvs) HR1) as (s' & Hrun & HR' & Habs).
      exists s'. split; [done|]. split; [done|].
      intros [Ha0|Hex]; apply Habs.
      * left. auto.
      * apply Exists_cons in Hex as [[]|Hex]. by right.
Qed.

Lemma run_create ops :
  Forall valid_op ops →
  ∃ s, run ops (create NULL) = Some s ∧ Rep NULL s (model ops) ∧
       (Exists is_insert ops → Abs s (model ops)).
Proof.
  intros Hops. destruct (run_Rep ops Hops (create NULL) []) as (s & Hs & HR & Ha).
  { by left. }
  exists s. split; [done|]. split; [done|]. intros Hex. apply Ha. by right.
Qed.

Lemma reachable_Rep s : reachable s → ∃ kvs, Rep NULL s kvs.
Proof.
  intros (ops & Hops & Hrun).
  destruct (run_create ops Hops) as (s' & Hs' & HR & _).
  rewrite Hrun in Hs'. injection Hs' as <-. by exists (model ops).
Qed.

(** *** Facts about sorted association lists *)

Lemma sorted_kvs_find kvs k :
  StronglySorted Z.lt kvs.*1 →
  (∃ pre o post, kvs = pre ++ (k, o) :: post ∧
      Forall (λ kv, kv.1 < k) pre ∧ Forall (λ kv, k < kv.1) post) ∨
  (k ∉ kvs.*1).
Proof.
  induction kvs as [|[k' o'] kvs IH]; simpl; intros Hs.
  - right. apply not_elem_of_nil.
  - apply StronglySorted_cons in Hs as [Hall Hs].
    rewrite Forall_fmap in Hall.
    destruct (decide (k = k')) as [->|Hne].
    + left. exists [], o', kvs. repeat split; [constructor|done].
    + destruct (IH Hs) as [(pre & o & post & -> & Hpre & Hpost)|Hk].
      * left. exists ((k', o') :: pre), o, post. repeat split; [|done].
        constructor; [|done]. simpl.
        apply Forall_app in Hall as [_ Hall].
        apply Forall_cons in Hall as [Hk _]. done.
      * right. set_solver.
Qed.

Definition ith_smallest (keys : list Z) (i : nat) (k : Z) : Prop :=
  k ∈ keys ∧ length (filter (λ k', k' < k) keys) = i.

Lemma filter_lt_split (pre post : list Z) k :
  Forall (λ k', k' < k) pre → Forall (λ k', k ≤ k') post →
  length (filter (λ k', k' < k) (pre ++ post)) = length pre.
Proof.
  intros Hpre Hpost. rewrite filter_app, length_app.
  assert (filter (λ k', k' < k) post = []) as ->.
  { induction Hpost as [|k' post Hk' _ IH]; [done|].
    rewrite filter_cons_False by lia. done. }
  assert (filter (λ k', k' < k) pre = pre) as ->.
  { induction Hpre as [|k' pre Hk' _ IH]; [done|].
    rewrite filter_cons_True by done. by rewrite IH. }
  simpl. lia.
Qed.

Lemma sorted_nth kvs i k o :
  StronglySorted Z.lt kvs.*1 → kvs !! i = Some (k, o) →
  ith_smallest kvs.*1 i k ∧ ref_find k kvs = Some o.
Proof.
  intros Hs Hi.
  pose proof (take_drop_middle _ _ _ Hi) as Hsplit.
  pose proof (lookup_lt_Some _ _ _ Hi) as Hlen.
  rewrite <-Hsplit in Hs |- *. rewrite fmap_app, fmap_cons in Hs |- *.
  apply StronglySorted_app in Hs as (Hlt & _ & Hs).
  apply StronglySorted_cons in Hs as [Hgt _].
  assert (Forall (λ kv : Z * T, kv.1 < k) (take i kvs)) as Hpre.
  { apply Forall_forall. intros kv Hin. apply Hlt; [|set_solver].
    by apply list_elem_of_fmap_2. }
  split; [split|].
  - set_solver.
  - rewrite filter_lt_split.
    + rewrite length_fmap, length_take. lia.
    + by apply Forall_fmap.
    + constructor; [simpl; lia|]. eapply Forall_impl; [exact Hgt|].
      simpl. intros; lia.
  - by apply ref_find_present.
Qed.

Lemma sorted_NoDup (keys : list Z) : StronglySorted Z.lt keys → NoDup keys.
Proof.
  induction 1 as [|k keys Hs IH Hall]; [constructor|].
  apply NoDup_cons. split; [|done]. intros Hin.
  rewrite Forall_forall in Hall. specialize (Hall k Hin). lia.
Qed.

Lemma ref_del_gone kvs k :
  StronglySorted Z.lt kvs.*1 → k ∉ (ref_del k kvs).*1.
Proof.
  intros Hs. destruct (sorted_kvs_find kvs k Hs)
    as [(pre & o & post & -> & Hpre & Hpost)|Hk].
  - rewrite ref_del_present by done. rewrite fmap_app.
    intros Hin. apply elem_of_app in Hin as [Hin|Hin];
      apply list_elem_of_fmap in Hin as (kv & -> & Hin).
    + rewrite Forall_forall in Hpre. specialize (Hpre _ Hin). simpl in Hpre. lia.
    + rewrite Forall_forall in Hpost. specialize (Hpost _ Hin). simpl in Hpost. lia.
  - by rewrite ref_del_absent.
Qed.

Lemma ref_del_length kvs k :
  StronglySorted Z.lt kvs.*1 → k ∈ kvs.*1 →
  Z.of_nat (length (ref_del k kvs)) = length kvs - 1.
Proof.
  intros Hs Hk. destruct (sorted_kvs_find kvs k Hs)
    as [(pre & o & post & -> & Hpre & Hpost)|Hk']; [|done].
  rewrite ref_del_present by done. rewrite !length_app. simpl. lia.
Qed.

End runs.

(** ** Span bookkeeping, stated on the heap *)

Section spans.
Context {T : Type}.
Variable NULL : T.
Implicit Types (h : gmap addr (@Entry T)) (s : @ObjectStore T).

(** [rest] lists the entries that follow [x] along [forward[0]], up to the
    null pointer. *)
Fixpoint level0_chain h (x : addr) (rest : list addr) : Prop :=
  match rest with
  | [] => get_forward h x 0 = Some None
  | y :: r => get_forward h x 0 = Some (Some y) ∧ level0_chain h y r
  end.

(** The link of entry [a], the [p]-th of the list, at level [i]: its length
    is the number of level-0 links to the entry it designates, or to the end
    of the list past the last entry when it is null. *)
Definition span_ok (chain : list addr) (p : nat) (e : @Entry T) (i : nat)
  : Prop :=
  ∃ l, link_length e !! i = Some l ∧
    match forward e !! i with
    | Some (Some b) => ∃ q, chain !! q = Some b ∧ (p < q)%nat ∧ l = q - p
    | Some None => l = length chain - p
    | None => False
    end.

Definition spans_consistent s : Prop :=
  ∃ rest,
    level0_chain (heap s) (header s) rest ∧
    num_entries s = length rest ∧
    ∀ p a e, (header s :: rest) !! p = Some a → heap s !! a = Some e →
      link_length e !! 0%nat = Some 1 ∧
      ∀ i, (i ≤ level s)%nat → (i < length (forward e))%nat →
           span_ok (header s :: rest) p e i.

Lemma Inv_level0 s ns :
  Inv s ns → level0_chain (heap s) (header s) (na <$> ns).
Proof.
  intros HI.
  assert (∀ post pre nd, hd_node s :: ns = pre ++ nd :: post →
            level0_chain (heap s) (na nd) (na <$> post)) as Hgen.
  { induction post as [|b post IH]; intros pre nd Hch.
    - destruct (inv_links _ _ HI 0%nat) with (A := pre) (nd := nd)
        (R := @nil anode) as [Hf _]; [lia|done|lia|]. done.
    - destruct (inv_links _ _ HI 0%nat) with (A := pre) (nd := nd)
        (R := b :: post) as [Hf _]; [lia|done|lia|].
      rewrite first_at_0 in Hf. simpl in Hf. split; [done|].
      apply (IH (pre ++ [nd])). by rewrite <-app_assoc. }
  apply (Hgen ns [] (hd_node s)). done.
Qed.

Lemma Inv_spans s ns : Inv s ns → spans_consistent s.
Proof.
  intros HI. exists (na <$> ns). split; [by apply Inv_level0|].
  split; [by rewrite length_fmap; apply HI|].
  intros p a e Hp He.
  change (header s :: (na <$> ns)) with (na <$> (hd_node s :: ns)) in *.
  apply list_lookup_fmap_Some in Hp as (nd & -> & Hp).
  pose proof (take_drop_middle _ _ _ Hp) as Hch. symmetry in Hch.
  pose proof (lookup_lt_Some _ _ _ Hp) as Hlt.
  assert (length (take p (hd_node s :: ns)) = p) as Hlen
    by (rewrite length_take; lia).
  set (A := take p (hd_node s :: ns)) in *.
  set (R := drop (S p) (hd_node s :: ns)) in *.
  assert (length (hd_node s :: ns) = (p + S (length R))%nat) as Htot.
  { rewrite Hch at 1. rewrite length_app. simpl. lia. }
  assert (cell_ok (heap s) nd) as Hcell.
  { apply list_elem_of_lookup_2 in Hp. apply elem_of_cons in Hp as [->|Hin].
    - apply HI.
    - pose proof (inv_cells _ _ HI) as Hc. rewrite Forall_forall in Hc. auto. }
  unfold cell_ok, get_shape in Hcell. rewrite He in Hcell. simpl in Hcell.
  injection Hcell as Hk Hfl Hll.
  assert (∀ i, (i ≤ level s)%nat → (i < length (forward e))%nat →
            forward e !! i = Some (first_at i R) ∧
            link_length e !! i = Some (dist_at i R)) as Hlinks.
  { intros i Hi Hie.
    destruct (inv_links _ _ HI i Hi A nd R Hch) as [Hf Hl]; [lia|].
    unfold get_forward, get_link in Hf, Hl. rewrite He in Hf, Hl. done. }
  split.
  - destruct (Hlinks 0%nat) as [_ ->]; [lia|lia|]. f_equal.
    destruct R as [|b R]; [done|]. simpl. by destruct (decide (0 ≤ nh b)%nat); [|lia].
  - intros i Hi Hie. destruct (Hlinks i Hi Hie) as [Hf Hl].
    exists (dist_at i R). split; [done|]. rewrite Hf.
    destruct (first_at i R) as [b|] eqn:Hb.
    + destruct (first_at_Some _ _ _ Hb) as (l1 & nd' & l2 & HR & _ & _ & <- & ->).
      exists (p + S (length l1))%nat. split; [|split; [lia|lia]].
      rewrite list_lookup_fmap, Hch, HR.
      rewrite lookup_app_r by lia.
      replace (p + S (length l1) - length A)%nat with (S (length l1)) by lia.
      simpl. by rewrite list_lookup_middle.
    + apply first_at_None in Hb. rewrite (dist_at_low _ _ Hb).
      rewrite length_fmap, Htot. lia.
Qed.

End spans.

(** ** The store as a finite map: lookups after calls *)

Section reference_lookup.
Context {T : Type}.
Implicit Types (l : list (Z * T)).

Lemma ref_find_is_Some k l : k ∈ l.*1 ↔ is_Some (ref_find k l).
Proof.
  induction l as [|kv l IH]; simpl.
  - split; [by intros ?%elem_of_nil|by intros [? ?]].
  - case_decide as Hk.
    + split; [by eexists|]. intros _. rewrite Hk. by left.
    + rewrite <- IH. split; [|by right].
      intros [?|?]%elem_of_cons; [congruence|done].
Qed.

Lemma ref_find_put k k' o l :
  ref_find k (ref_put k' o l) =
  if decide (k' = k) then Some o else ref_find k l.
Proof.
  induction l as [|kv l IH]; simpl.
  - destruct (decide (k = k')), (decide (k' = k)); congruence.
  - destruct (decide (k' < kv.1)); [|destruct (decide (k' = kv.1))]; simpl.
    + destruct (decide (k = k')), (decide (k' = k)); congruence.
    + destruct (decide (k = k')), (decide (k' = k)); try congruence.
      rewrite decide_False by congruence. done.
    + rewrite IH. destruct (decide (k = kv.1)), (decide (k' = k)); congruence.
Qed.

Lemma ref_find_del k k' l :
  StronglySorted Z.lt l.*1 →
  ref_find k (ref_del k' l) = if decide (k' = k) then None else ref_find k l.
Proof.
  intros Hs. destruct (decide (k' = k)) as [->|Hne].
  - apply ref_find_absent. by apply ref_del_gone.
  - clear Hs. induction l as [|kv l IH]; simpl; [done|].
    destruct (decide (k' = kv.1)); simpl.
    + rewrite decide_False by congruence. done.
    + by rewrite IH.
Qed.

Lemma ref_put_length k o l :
  StronglySorted Z.lt l.*1 →
  length (ref_put k o l) =
  if bool_decide (k ∈ l.*1) then length l else S (length l).
Proof.
  intros Hs. destruct (sorted_kvs_find l k Hs)
    as [(pre & o' & post & -> & Hpre & Hpost)|Hk].
  - rewrite ref_put_present by done. rewrite bool_decide_eq_true_2.
    + by rewrite !length_app.
    + rewrite fmap_app, fmap_cons. set_solver.
  - rewrite bool_decide_eq_false_2 by done. clear Hs.
    induction l as [|kv l IH]; simpl; [done|].
    destruct (decide (k < kv.1)); [done|].
    destruct (decide (k = kv.1)) as [->|?]; [set_solver|].
    simpl. rewrite IH; [done|set_solver].
Qed.

Lemma sorted_elem_find k o l :
  StronglySorted Z.lt l.*1 → (k, o) ∈ l → ref_find k l = Some o.
Proof.
  intros Hs [i Hi]%list_elem_of_lookup_1.
  by destruct (sorted_nth l i k o Hs Hi).
Qed.

Lemma ref_del_put k o l : k ∉ l.*1 → ref_del k (ref_put k o l) = l.
Proof.
  induction l as [|kv l IH]; simpl; intros Hk.
  - by rewrite decide_True.
  - destruct (decide (k < kv.1)); simpl.
    + by rewrite decide_True.
    + destruct (decide (k = kv.1)) as [->|Hne]; [set_solver|]. simpl.
      rewrite decide_False by done. rewrite IH; [done|set_solver].
Qed.

Lemma filter_below k (pre post : list (Z * T)) :
  Forall (λ kv, kv.1 < k) pre → Forall (λ kv, k ≤ kv.1) post →
  length (filter (λ kv, kv.1 < k) (pre ++ post)) = length pre.
Proof.
  intros Hpre Hpost. induction Hpre as [|kv pre Hkv _ IH]; simpl.
  - induction Hpost as [|kv r Hkv _ IH]; [done|].
    rewrite filter_cons_False by lia. done.
  - rewrite filter_cons_True by done. simpl. by rewrite IH.
Qed.

(** The pairs below a key and from it on. *)
Lemma sorted_kvs_split k l :
  StronglySorted Z.lt l.*1 →
  ∃ pre post, l = pre ++ post ∧
    Forall (λ kv, kv.1 < k) pre ∧ Forall (λ kv, k ≤ kv.1) post ∧
    length (filter (λ kv, kv.1 < k) l) = length pre.
Proof.
  induction l as [|kv l IH]; intros Hs.
  - exists [], []. by repeat split.
  - rewrite fmap_cons in Hs. apply StronglySorted_inv in Hs as [Hs Hall].
    destruct (decide (kv.1 < k)) as [Hlt|Hge].
    + destruct (IH Hs) as (pre & post & -> & Hpre & Hpost & Hlen).
      exists (kv :: pre), post. split; [done|]. split; [by constructor|].
      split; [done|]. rewrite filter_cons_True by done. simpl. by rewrite Hlen.
    + exists [], (kv :: l). split; [done|]. split; [constructor|].
      assert (Forall (λ kv' : Z * T, k ≤ kv'.1) (kv :: l)) as Hpost.
      { constructor; [lia|]. rewrite Forall_fmap in Hall.
        eapply Forall_impl; [exact Hall|]. simpl. intros; lia. }
      split; [done|]. simpl.
      clear -Hpost. induction Hpost as [|kv' r Hkv' _ IHr]; [done|].
      rewrite filter_cons_False by lia. done.
Qed.

End reference_lookup.

(** ** The calls behind a store *)

Section history.
Context {T : Type}.
Variable NULL : T.
Implicit Types (s : @ObjectStore T) (kvs : list (Z * T)).

(** The handle that the calls [ops] leave under the key [k]: the one of the
    last [insert] of [k], unless an [erase] of [k] came after it. *)
Definition write (k : Z) (acc : option T) (a : @op T) : option T :=
  match a with
  | Insert _ k' o => if decide (k' = k) then Some o else acc
  | Erase k' => if decide (k' = k) then None else acc
  end.

Definition last_write (k : Z) (ops : list (@op T)) : option T :=
  foldl (write k) None ops.

Lemma run_find ops :
  Forall valid_op ops → ∀ s kvs, Rep NULL s kvs →
  ∃ s', run ops s = Some s' ∧ Rep NULL s' (model_from ops kvs) ∧
    ∀ k, ref_find k (model_from ops kvs) = foldl (write k) (ref_find k kvs) ops.
Proof.
  induction 1 as [|a ops Ha _ IH]; intros s kvs HR.
  { exists s. by repeat split. }
  pose proof (Rep_sorted NULL s kvs HR) as Hs.
  assert (∃ s1, apply_op a s = Some s1 ∧ Rep NULL s1 (model_op a kvs) ∧
            ∀ k, ref_find k (model_op a kvs) = write k (ref_find k kvs) a)
    as (s1 & Happ & HR1 & Hfind).
  { destruct a as [lvl k' o|k']; simpl in *.
    - destruct (Rep_insert NULL s kvs lvl k' o HR Ha) as (s1 & Hins & Habs).
      exists s1. split; [done|]. split; [by right|].
      intros k. apply ref_find_put.
    - destruct (Rep_erase NULL s kvs k' HR) as (s1 & Her & HR1 & _).
      exists s1. split; [done|]. split; [done|].
      intros k. by apply ref_find_del. }
  destruct (IH s1 _ HR1) as (s' & Hrun & HR' & Hfind').
  exists s'. simpl. rewrite Happ. simpl. split; [done|]. split; [done|].
  intros k. by rewrite Hfind', Hfind.
Qed.

(** The pairs that a reachable store holds, as the traversal lists them. *)
Lemma reachable_view s :
  reachable NULL s →
  ∃ kvs, Rep NULL s kvs ∧ StronglySorted Z.lt kvs.*1 ∧
    Z.of_nat (length kvs) = size s ∧
    iterate_entries (base.size (heap s)) s = Some kvs ∧
    iterate (base.size (heap s)) s = Some kvs.*2.
Proof.
  intros Hreach. destruct (reachable_Rep NULL s Hreach) as (kvs & HR).
  exists kvs. split; [done|]. split; [by apply (Rep_sorted NULL s)|].
  split; [by rewrite (Rep_size NULL s kvs HR)|].
  apply (Rep_iterate NULL s kvs); [done|]. by apply (Rep_fuel NULL).
Qed.

End history.

(** ** The properties of the ordered indexed store *)

Section store_claims.
Context {T : Type}.
Variable NULL : T.
Implicit Types (s : @ObjectStore T) (kvs : list (Z * T)).

(** [keys] lists the keys that are present in [s]. *)
Definition present_keys s (keys : list Z) : Prop :=
  NoDup keys ∧ ∀ k, contains s k = Some (bool_decide (k ∈ keys)).

Lemma Rep_present s kvs : Rep NULL s kvs → present_keys s kvs.*1.
Proof.
  intros HR. split.
  - apply sorted_NoDup. by apply (Rep_sorted NULL s).
  - intros k. by destruct (Rep_lookup NULL s kvs k HR) as [-> _].
Qed.

(** C1: after every sequence [ops] of [insert] and [erase] calls on a new
    store, the keys present are those whose last call in [ops] was an
    [insert]; [get_at_index(i)] returns, for [i] in [[0, size)], the handle
    of the last [insert] of the key that has exactly [i] smaller keys
    present, and throws (ElementNotFoundException, "out of bounds") for
    every other [i]; it takes the store as a constant and returns no new
    state. *)
Theorem get_at_index_rank (ops : list (@op T)) :
  Forall valid_op ops →
  ∃ s keys,
    run ops (create NULL) = Some s ∧
    (∀ k, k ∈ keys ↔ is_Some (last_write k ops)) ∧
    present_keys s keys ∧
    size s = length keys ∧
    (∀ pos, 0 ≤ pos < size s →
       ∃ k o, ith_smallest keys (Z.to_nat pos) k ∧
              last_write k ops = Some o ∧
              get NULL s k = Some o ∧ get_at_index s pos = Ok o) ∧
    (∀ pos, ¬ (0 ≤ pos < size s) →
       get_at_index s pos = Throw ElementNotFoundException).
Proof.
  intros Hops.
  destruct (run_find NULL ops Hops (create NULL) []) as (s & Hrun & HR & Hfind).
  { by left. }
  fold (model ops) in HR, Hfind.
  exists s, (model ops).*1. split; [done|].
  split; [intros k; rewrite ref_find_is_Some, Hfind; done|].
  split; [by apply Rep_present|].
  pose proof (Rep_size NULL s _ HR) as Hsize.
  split; [by rewrite length_fmap|]. split.
  - intros pos Hpos. rewrite Hsize in Hpos.
    destruct (Rep_get_at_index NULL s _ pos HR Hpos) as ([k o] & Hkv & Hget).
    destruct (sorted_nth _ _ _ _ (Rep_sorted NULL s _ HR) Hkv) as [Hith Hfound].
    exists k, o. split; [done|].
    split; [rewrite <- Hfound; symmetry; apply Hfind|]. split; [|done].
    destruct (Rep_lookup NULL s _ k HR) as [_ ->]. by rewrite Hfound.
  - intros pos Hpos. by apply get_at_index_out.
Qed.

(** C2, as amended: once a sequence of calls contains an [insert], the
    spans are consistent: along level 0 every link has length 1, every link
    of every entry at a level in use has the length of the level-0 path it
    spans (to the end of the list if it is null), and [num_entries] is the
    number of entries after the header. *)
Theorem spans_after_insert (ops : list (@op T)) :
  Forall valid_op ops → Exists is_insert ops →
  ∃ s, run ops (create NULL) = Some s ∧ spans_consistent s.
Proof.
  intros Hops Hex. destruct (run_create NULL ops Hops) as (s & Hrun & _ & Ha).
  exists s. split; [done|]. destruct (Ha Hex) as (ns & HI & _).
  by apply (Inv_spans s ns).
Qed.

(** C3: [erase(k)] on a reachable store returns; afterwards [contains(k)]
    is false and [get(k)] is null; the size drops by one if the key was
    present, and the store is unchanged if it was absent. *)
Theorem erase_spec s k :
  reachable NULL s →
  ∃ s' b, erase k s = Some s' ∧ contains s k = Some b ∧
    contains s' k = Some false ∧ get NULL s' k = Some NULL ∧
    (b = true → size s' = size s - 1) ∧
    (b = false → s' = s).
Proof.
  intros Hreach. destruct (reachable_Rep NULL s Hreach) as (kvs & HR).
  destruct (Rep_erase NULL s kvs k HR) as (s' & Her & HR' & _ & Hid).
  pose proof (Rep_sorted NULL s kvs HR) as Hs.
  exists s', (bool_decide (k ∈ kvs.*1)). split; [done|].
  destruct (Rep_lookup NULL s kvs k HR) as [-> _]. split; [done|].
  destruct (Rep_lookup NULL s' _ k HR') as [-> ->].
  pose proof (ref_del_gone kvs k Hs) as Hgone.
  rewrite bool_decide_eq_false_2 by done.
  rewrite ref_find_absent by done. split; [done|]. split; [done|]. split.
  - intros Hb. apply bool_decide_eq_true_1 in Hb.
    rewrite (Rep_size NULL s' _ HR'), (Rep_size NULL s _ HR).
    by apply ref_del_length.
  - intros Hb. apply bool_decide_eq_false_1 in Hb. auto.
Qed.

Lemma filter_key_one kvs k o (pre post : list (Z * T)) :
  Forall (λ kv, kv.1 < k) pre → Forall (λ kv, k < kv.1) post →
  length (filter (λ kv : Z * T, kv.1 = k) (pre ++ (k, o) :: post)) = 1%nat.
Proof.
  intros Hpre Hpost. rewrite filter_app, filter_cons_True by done.
  assert (filter (λ kv : Z * T, kv.1 = k) pre = []) as ->.
  { induction Hpre as [|kv pre Hkv _ IH]; [done|].
    rewrite filter_cons_False by lia. done. }
  assert (filter (λ kv : Z * T, kv.1 = k) post = []) as ->.
  { induction Hpost as [|kv post Hkv _ IH]; [done|].
    rewrite filter_cons_False by lia. done. }
  done.
Qed.

(** C4: [insert(k, o)] on a reachable store that holds [k] changes the
    [obj_ptr] of the entry of [k] and nothing else: links, spans, level and
    size stay; afterwards one entry has key [k], and [get(k)] is [o]. *)
Theorem insert_overwrite s k lvl o :
  reachable NULL s → contains s k = Some true →
  ∃ x e s' kvs',
    heap s !! x = Some e ∧ value e = k ∧
    s' = mkStore
           (<[x := mkEntry (value e) o (forward e) (link_length e)]> (heap s))
           (header s) (level s) (num_entries s) ∧
    insert lvl k o s = Some s' ∧
    get NULL s' k = Some o ∧
    iterate_entries (base.size (heap s')) s' = Some kvs' ∧
    length (filter (λ kv : Z * T, kv.1 = k) kvs') = 1%nat.
Proof.
  intros Hreach Hc. destruct (reachable_Rep NULL s Hreach) as (kvs & HR).
  destruct (Rep_lookup NULL s kvs k HR) as [Hc' _].
  rewrite Hc in Hc'. injection Hc' as Hin. symmetry in Hin.
  apply bool_decide_eq_true_1 in Hin.
  destruct HR as [[-> ->]|(ns & HI & Htag)].
  { by apply not_elem_of_nil in Hin. }
  destruct (sorted_find ns k (inv_sorted _ _ HI))
    as [(pre & xn & post & Hns & Hkey & Hpre & Hpost)|
        (pre & post & Hns & Hpre & Hpost)].
  2:{ exfalso. rewrite (tagged_keys _ _ _ Htag), Hns in Hin.
      by apply (key_absent pre post k). }
  destruct (insert_present_ok s ns pre xn post k o lvl HI Hns Hpre Hkey)
    as (h' & Hset & Hins & HI' & _ & _ & Hobj).
  unfold set_obj in Hset.
  destruct (heap s !! na xn) as [e|] eqn:He; simpl in Hset; [|done].
  injection Hset as <-.
  set (s' := mkStore _ (header s) (level s) (num_entries s)) in *.
  destruct (tagged_overwrite s ns kvs pre xn post k o (heap s') HI Hns Hkey
              Hpre Hpost Htag Hobj) as (kpre & ox & kpost & _ & Hkp & Hkq & Htag').
  assert (Abs s' (kpre ++ (k, o) :: kpost)) as Ha' by (by exists ns).
  exists (na xn), e, s', (kpre ++ (k, o) :: kpost).
  split; [done|]. split.
  { pose proof (inv_cells _ _ HI) as Hcells. rewrite Hns in Hcells.
    apply Forall_app in Hcells as [_ Hcells].
    apply Forall_cons in Hcells as [Hcell _].
    unfold cell_ok, get_shape in Hcell. rewrite He in Hcell. simpl in Hcell.
    injection Hcell as -> _ _. done. }
  split; [done|]. split; [done|]. split; [|split].
  - destruct (Abs_lookup NULL s' _ k Ha') as [_ ->].
    by rewrite ref_find_present.
  - apply (Abs_iterate s' _ _ Ha'). apply (Rep_fuel NULL). by right.
  - by apply (filter_key_one kvs).
Qed.

(** C5: a traversal from [begin()] to [end()] of a reachable store ends,
    within as many steps as there are cells and with any larger bound; it
    visits [size()] entries, those that [contains] and [get] find, in
    strictly ascending order of their keys; and any two complete traversals
    of the same store give the same handles. *)
Theorem iterate_ascending s :
  reachable NULL s →
  ∃ kvs,
    iterate_entries (base.size (heap s)) s = Some kvs ∧
    iterate (base.size (heap s)) s = Some kvs.*2 ∧
    (∀ fuel, (length kvs < fuel)%nat → iterate fuel s = Some kvs.*2) ∧
    Z.of_nat (length kvs) = size s ∧
    (∀ k, contains s k = Some (bool_decide (k ∈ kvs.*1))) ∧
    (∀ k o, (k, o) ∈ kvs → get NULL s k = Some o) ∧
    StronglySorted Z.lt kvs.*1 ∧
    ∀ f1 f2 l1 l2,
      iterate f1 s = Some l1 → iterate f2 s = Some l2 → l1 = l2.
Proof.
  intros Hreach.
  destruct (reachable_view NULL s Hreach) as (kvs & HR & Hs & Hlen & Hit & Hit').
  exists kvs. split; [done|]. split; [done|].
  split; [intros fuel Hfuel; by apply (Rep_iterate NULL s kvs fuel HR)|].
  split; [done|].
  split; [intros k; by destruct (Rep_lookup NULL s kvs k HR)|].
  split.
  { intros k o Hin. destruct (Rep_lookup NULL s kvs k HR) as [_ ->].
    by rewrite (sorted_elem_find k o kvs Hs Hin). }
  split; [done|]. intros f1 f2 l1 l2. apply iterate_det.
Qed.

(** The statement of C10 at a store and a key. *)
Definition lookup_agree s (k : Z) : Prop :=
  ∃ b o, contains s k = Some b ∧ get NULL s k = Some o ∧
         (b = true ↔ o ≠ NULL).

Definition handle_set (a : @op T) : Prop :=
  match a with Insert _ _ o => o ≠ NULL | Erase _ => True end.

Lemma ref_put_handles kvs k o :
  o ≠ NULL → Forall (λ kv, kv.2 ≠ NULL) kvs →
  Forall (λ kv, kv.2 ≠ NULL) (ref_put k o kvs).
Proof.
  intros Ho. induction 1 as [|kv kvs Hkv Hall IH]; simpl.
  - by repeat constructor.
  - repeat case_decide; repeat constructor; done.
Qed.

Lemma ref_del_handles kvs k :
  Forall (λ kv, kv.2 ≠ NULL) kvs → Forall (λ kv, kv.2 ≠ NULL) (ref_del k kvs).
Proof.
  induction 1 as [|kv kvs Hkv Hall IH]; simpl; [done|].
  case_decide; [done|]. by constructor.
Qed.

Lemma model_handles ops :
  Forall handle_set ops → ∀ kvs, Forall (λ kv, kv.2 ≠ NULL) kvs →
  Forall (λ kv : Z * T, kv.2 ≠ NULL) (model_from ops kvs).
Proof.
  induction 1 as [|a ops Ha _ IH]; intros kvs Hkvs; simpl; [done|].
  apply IH. destruct a as [lvl k o|k]; simpl in *.
  - by apply ref_put_handles.
  - by apply ref_del_handles.
Qed.

(** C10, as amended: on a store into which no null handle was inserted,
    [contains(k)] and [get(k)] return, and [contains(k)] is true exactly
    when [get(k)] is not null. *)
Theorem contains_iff_get (ops : list (@op T)) s k :
  Forall valid_op ops → Forall handle_set ops →
  run ops (create NULL) = Some s →
  lookup_agree s k.
Proof.
  intros Hops Hset Hrun.
  destruct (run_create NULL ops Hops) as (s' & Hrun' & HR & _).
  rewrite Hrun in Hrun'. injection Hrun' as <-.
  pose proof (model_handles ops Hset [] (Forall_nil_2 _)) as Hh.
  fold (model ops) in Hh.
  destruct (Rep_lookup NULL s _ k HR) as [Hc Hg].
  eexists _, _. split; [exact Hc|]. split; [exact Hg|].
  destruct (sorted_kvs_find _ k (Rep_sorted NULL s _ HR))
    as [(pre & o & post & Hm & Hpre & _)|Hk].
  - rewrite Hm. rewrite ref_find_present by done. simpl.
    rewrite bool_decide_eq_true_2 by (rewrite fmap_app, fmap_cons; set_solver).
    split; [|done]. intros _. rewrite Forall_forall in Hh.
    apply (Hh (k, o)). rewrite Hm. set_solver.
  - rewrite bool_decide_eq_false_2 by done.
    rewrite ref_find_absent by done. simpl. split; [done|]. by intros [].
Qed.

End store_claims.

(** ** The properties at concrete stores *)

(** Handles are numbers here, and 0 is the null handle. *)
Definition ops_ex : list (@op nat) :=
  [Insert 2 10 1%nat; Insert 0 5 2%nat; Insert 3 7 3%nat; Erase 10;
   Insert 1 7 4%nat].

Definition store_ex : @ObjectStore nat :=
  default (create 0%nat) (run ops_ex (create 0%nat)).

Lemma ops_ex_valid : Forall valid_op ops_ex.
Proof. unfold ops_ex, valid_op, MAX_LEVEL. repeat constructor; lia. Defined.

Lemma store_ex_reachable : reachable 0%nat store_ex.
Proof. exists ops_ex. split; [exact ops_ex_valid|]. vm_compute. reflexivity. Defined.

Example store_ex_entries :
  iterate_entries 3 store_ex = Some [(5, 2%nat); (7, 4%nat)].
Proof. vm_compute. reflexivity. Qed.

Example store_ex_ranks :
  map (get_at_index store_ex) [-1; 0; 1; 2] =
  [Throw ElementNotFoundException; Ok 2%nat; Ok 4%nat;
   Throw ElementNotFoundException].
Proof. vm_compute. reflexivity. Qed.

Lemma get_at_index_rank_witness :
  Forall valid_op ops_ex ∧
  ∃ s keys,
    run ops_ex (create 0%nat) = Some s ∧
    (∀ k, k ∈ keys ↔ is_Some (last_write k ops_ex)) ∧
    present_keys s keys ∧
    size s = length keys ∧
    (∀ pos, 0 ≤ pos < size s →
       ∃ k o, ith_smallest keys (Z.to_nat pos) k ∧
              last_write k ops_ex = Some o ∧
              get 0%nat s k = Some o ∧ get_at_index s pos = Ok o) ∧
    (∀ pos, ¬ (0 ≤ pos < size s) →
       get_at_index s pos = Throw ElementNotFoundException).
Proof.
  split; [exact ops_ex_valid|].
  apply (get_at_index_rank 0%nat ops_ex). exact ops_ex_valid.
Defined.

(** C2 fails at the store the constructor returns: the header's level-0
    link is null and [link_length[0]] is 0, not the distance 1 to the end. *)
Lemma spans_create_counterexample : ¬ spans_consistent (create 0%nat).
Proof.
  intros (rest & Hchain & _ & Hspans).
  destruct (Hspans 0%nat 0%nat
              (mkEntry 0 0%nat (replicate (S MAX_LEVEL) None)
                 (replicate (S MAX_LEVEL) 0))) as [Hl _]; [done|done|].
  vm_compute in Hl. discriminate.
Qed.

Lemma spans_after_insert_witness :
  Forall valid_op ops_ex ∧ Exists is_insert ops_ex ∧
  ∃ s, run ops_ex (create 0%nat) = Some s ∧ spans_consistent s.
Proof.
  split; [exact ops_ex_valid|]. split; [by left|].
  apply (spans_after_insert 0%nat ops_ex); [exact ops_ex_valid|by left].
Defined.

Lemma erase_spec_witness :
  reachable 0%nat store_ex ∧
  ∃ s' b, erase 7 store_ex = Some s' ∧ contains store_ex 7 = Some b ∧
    contains s' 7 = Some false ∧ get 0%nat s' 7 = Some 0%nat ∧
    (b = true → size s' = size store_ex - 1) ∧
    (b = false → s' = store_ex).
Proof.
  split; [exact store_ex_reachable|].
  apply (erase_spec 0%nat store_ex 7). exact store_ex_reachable.
Defined.

Lemma insert_overwrite_witness :
  reachable 0%nat store_ex ∧ contains store_ex 5 = Some true ∧
  ∃ x e s' kvs',
    heap store_ex !! x = Some e ∧ value e = 5 ∧
    s' = mkStore
           (<[x := mkEntry (value e) 9%nat (forward e) (link_length e)]>
              (heap store_ex))
           (header store_ex) (level store_ex) (num_entries store_ex) ∧
    insert 4 5 9%nat store_ex = Some s' ∧
    get 0%nat s' 5 = Some 9%nat ∧
    iterate_entries (base.size (heap s')) s' = Some kvs' ∧
    length (filter (λ kv : Z * nat, kv.1 = 5) kvs') = 1%nat.
Proof.
  split; [exact store_ex_reachable|]. split; [vm_compute; reflexivity|].
  apply (insert_overwrite 0%nat store_ex 5 4 9%nat);
    [exact store_ex_reachable|vm_compute; reflexivity].
Defined.

Lemma iterate_ascending_witness :
  reachable 0%nat store_ex ∧
  ∃ kvs,
    iterate_entries (base.size (heap store_ex)) store_ex = Some kvs ∧
    iterate (base.size (heap store_ex)) store_ex = Some kvs.*2 ∧
    (∀ fuel, (length kvs < fuel)%nat → iterate fuel store_ex = Some kvs.*2) ∧
    Z.of_nat (length kvs) = size store_ex ∧
    (∀ k, contains store_ex k = Some (bool_decide (k ∈ kvs.*1))) ∧
    (∀ k o, (k, o) ∈ kvs → get 0%nat store_ex k = Some o) ∧
    StronglySorted Z.lt kvs.*1 ∧
    ∀ f1 f2 l1 l2,
      iterate f1 store_ex = Some l1 → iterate f2 store_ex = Some l2 → l1 = l2.
Proof.
  split; [exact store_ex_reachable|].
  apply (iterate_ascending 0%nat store_ex). exact store_ex_reachable.
Defined.

(** C10 fails once a null handle is stored: [contains] finds the key and
    [get] returns null. *)
Definition ops_null : list (@op nat) := [Insert 0 5 0%nat].

Definition store_null : @ObjectStore nat :=
  default (create 0%nat) (run ops_null (create 0%nat)).

Lemma lookup_null_counterexample :
  reachable 0%nat store_null ∧ ¬ lookup_agree 0%nat store_null 5.
Proof.
  split.
  - exists ops_null. split; [|vm_compute; reflexivity].
    unfold ops_null, valid_op, MAX_LEVEL. repeat constructor; lia.
  - intros (b & o & Hc & Hg & Hiff).
    vm_compute in Hc. vm_compute in Hg.
    injection Hc as <-. injection Hg as <-.
    destruct Hiff as [Hiff _]. by apply Hiff.
Qed.

Lemma ops_ex_handles : Forall (handle_set 0%nat) ops_ex.
Proof. unfold ops_ex, handle_set. repeat constructor; lia. Defined.

Lemma contains_iff_get_witness :
  Forall valid_op ops_ex ∧ Forall (handle_set 0%nat) ops_ex ∧
  run ops_ex (create 0%nat) = Some store_ex ∧
  lookup_agree 0%nat store_ex 7.
Proof.
  split; [exact ops_ex_valid|]. split; [exact ops_ex_handles|].
  split; [vm_compute; reflexivity|].
  apply (contains_iff_get 0%nat ops_ex store_ex 7);
    [exact ops_ex_valid|exact ops_ex_handles|vm_compute; reflexivity].
Defined.

(** ** More on the store as a finite map *)

Lemma first_at_elem j (l : list anode) y :
  first_at j l = Some y → y ∈ na <$> l.
Proof.
  intros Hy.
  destruct (first_at_Some _ _ _ Hy) as (l1 & nd & l2 & -> & _ & _ & <- & _).
  rewrite fmap_app, fmap_cons. set_solver.
Qed.

Section store_facts.
Context {T : Type}.
Variable NULL : T.
Implicit Types (s : @ObjectStore T) (kvs : list (Z * T)).

(** X1: [insert(k, o)] on a reachable store returns; afterwards
    [contains(k)] is true and [get(k)] is [o]; [size()] grows by one if the
    key was new and stays if it was present. *)
Theorem insert_lookup s lvl k o :
  reachable NULL s → (lvl ≤ MAX_LEVEL)%nat →
  ∃ s' b, insert lvl k o s = Some s' ∧ contains s k = Some b ∧
    contains s' k = Some true ∧ get NULL s' k = Some o ∧
    size s' = size s + (if b then 0 else 1).
Proof.
  intros Hreach Hlvl. destruct (reachable_Rep NULL s Hreach) as (kvs & HR).
  destruct (Rep_insert NULL s kvs lvl k o HR Hlvl) as (s' & Hins & Ha).
  pose proof (Rep_sorted NULL s kvs HR) as Hs.
  exists s', (bool_decide (k ∈ kvs.*1)). split; [done|].
  destruct (Rep_lookup NULL s kvs k HR) as [-> _]. split; [done|].
  destruct (Abs_lookup NULL s' _ k Ha) as [-> ->].
  rewrite ref_find_put, decide_True by done. simpl.
  split; [|split; [done|]].
  - f_equal. apply bool_decide_eq_true_2, ref_find_is_Some.
    rewrite ref_find_put, decide_True by done. by eexists.
  - rewrite (Abs_size s' _ Ha), (Rep_size NULL s kvs HR).
    rewrite ref_put_length by done. destruct (bool_decide _); lia.
Qed.

Definition key_of (a : @op T) : Z :=
  match a with Insert _ k _ => k | Erase k => k end.

(** X2: a call of [insert] or [erase] for one key changes neither
    [contains] nor [get] of any other key. *)
Theorem op_frame s (a : @op T) k :
  reachable NULL s → valid_op a → key_of a ≠ k →
  ∃ s', apply_op a s = Some s' ∧
    contains s' k = contains s k ∧ get NULL s' k = get NULL s k.
Proof.
  intros Hreach Hval Hk. destruct (reachable_Rep NULL s Hreach) as (kvs & HR).
  pose proof (Rep_sorted NULL s kvs HR) as Hs.
  destruct (Rep_lookup NULL s kvs k HR) as [Hc Hg].
  destruct a as [lvl k' o|k']; simpl in *.
  - destruct (Rep_insert NULL s kvs lvl k' o HR Hval) as (s' & Hins & Ha).
    exists s'. split; [done|].
    destruct (Abs_lookup NULL s' _ k Ha) as [Hc' Hg'].
    rewrite Hc, Hg, Hc', Hg'. rewrite ref_find_put, decide_False by done.
    split; [|done]. f_equal. apply bool_decide_ext.
    rewrite !ref_find_is_Some, ref_find_put, decide_False by done. done.
  - destruct (Rep_erase NULL s kvs k' HR) as (s' & Her & HR' & _).
    exists s'. split; [done|].
    destruct (Rep_lookup NULL s' _ k HR') as [Hc' Hg'].
    rewrite Hc, Hg, Hc', Hg'. rewrite ref_find_del, decide_False by done.
    split; [|done]. f_equal. apply bool_decide_ext.
    rewrite !ref_find_is_Some, ref_find_del, decide_False by done. done.
Qed.

(** X3: after any sequence of [insert] and [erase] calls on a new store,
    [contains(k)] tells whether the last call for [k] was an [insert], and
    [get(k)] is the handle of that [insert], or null. *)
Theorem lookup_last_write (ops : list (@op T)) :
  Forall valid_op ops →
  ∃ s, run ops (create NULL) = Some s ∧
    ∀ k, contains s k = Some (bool_decide (is_Some (last_write k ops))) ∧
         get NULL s k = Some (default NULL (last_write k ops)).
Proof.
  intros Hops.
  destruct (run_find NULL ops Hops (create NULL) []) as (s & Hrun & HR & Hfind).
  { by left. }
  exists s. split; [done|]. intros k.
  destruct (Rep_lookup NULL s _ k HR) as [-> ->].
  rewrite Hfind. split; [|done]. f_equal. apply bool_decide_ext.
  by rewrite ref_find_is_Some, Hfind.
Qed.

(** X4: the traversal of a reachable store visits [size()] handles, and the
    handle it visits at position [pos] is [get_at_index(pos)]. *)
Theorem iterate_ranks s :
  reachable NULL s →
  ∃ l, iterate (base.size (heap s)) s = Some l ∧
    Z.of_nat (length l) = size s ∧
    ∀ pos, 0 ≤ pos < size s →
      ∃ o, l !! Z.to_nat pos = Some o ∧ get_at_index s pos = Ok o.
Proof.
  intros Hreach.
  destruct (reachable_view NULL s Hreach) as (kvs & HR & _ & Hlen & _ & Hit).
  exists kvs.*2. split; [done|]. split; [by rewrite length_fmap|].
  intros pos Hpos.
  destruct (Rep_get_at_index NULL s kvs pos HR) as (kv & Hkv & Hget); [lia|].
  exists kv.2. split; [|done]. by rewrite list_lookup_fmap, Hkv.
Qed.

(** X5: the traversal of a reachable store lists the entries that the
    lookups find: [contains(k)] is true exactly for the keys it visits, and
    [get(k)] is the handle it visits with [k], null for other keys. *)
Theorem iterate_lookup s :
  reachable NULL s →
  ∃ kvs, iterate_entries (base.size (heap s)) s = Some kvs ∧
    ∀ k, contains s k = Some (bool_decide (k ∈ kvs.*1)) ∧
         (∀ o, (k, o) ∈ kvs → get NULL s k = Some o) ∧
         (k ∉ kvs.*1 → get NULL s k = Some NULL).
Proof.
  intros Hreach.
  destruct (reachable_view NULL s Hreach) as (kvs & HR & Hs & _ & Hit & _).
  exists kvs. split; [done|]. intros k.
  destruct (Rep_lookup NULL s kvs k HR) as [Hc Hg]. split; [done|]. split.
  - intros o Hin. by rewrite Hg, (sorted_elem_find k o kvs Hs Hin).
  - intros Hout. by rewrite Hg, ref_find_absent.
Qed.

(** X6: on a reachable store [begin() == end()] exactly when [size()] is 0;
    otherwise [*begin()] is the handle of the smallest key,
    [get_at_index(0)]. *)
Theorem begin_end s :
  reachable NULL s →
  ∃ it, begin s = Some it ∧
    (iter_eq it end_ = true ↔ size s = 0) ∧
    (iter_ne it end_ = negb (iter_eq it end_)) ∧
    (0 < size s → ∃ o, deref s it = Some o ∧ get_at_index s 0 = Ok o).
Proof.
  intros Hreach. destruct (reachable_Rep NULL s Hreach) as (kvs & HR).
  destruct HR as [[-> ->]|Ha].
  { exists None. split; [reflexivity|]. split; [done|]. split; [done|].
    unfold size. simpl. lia. }
  pose proof Ha as (ns & HI & Htag).
  exists (na <$> head ns). split; [by apply begin_ok|].
  unfold size. rewrite (inv_size _ _ HI).
  destruct Htag as [|nd kv ns kvs [Hk Ho] Htag]; simpl.
  - split; [done|]. split; [done|]. lia.
  - split; [split; [done|lia]|]. split; [done|]. intros _.
    exists kv.2. split; [done|].
    destruct (Abs_get_at_index s (kv :: kvs) 0 Ha) as (kv' & Hkv' & Hget).
    { simpl. lia. }
    simpl in Hkv'. by injection Hkv' as <-.
Qed.

(** X7: an [insert] of a new key followed by the [erase] of that key gives
    back the entries and the size of the store; the cells, their levels and
    the level in use may differ. *)
Theorem insert_erase_cancel s lvl k o :
  reachable NULL s → (lvl ≤ MAX_LEVEL)%nat → contains s k = Some false →
  ∃ s1 s2, insert lvl k o s = Some s1 ∧ erase k s1 = Some s2 ∧
    size s2 = size s ∧
    iterate_entries (base.size (heap s2)) s2 =
      iterate_entries (base.size (heap s)) s.
Proof.
  intros Hreach Hlvl Hc.
  destruct (reachable_view NULL s Hreach) as (kvs & HR & Hs & Hlen & Hit & _).
  destruct (Rep_lookup NULL s kvs k HR) as [Hc' _].
  rewrite Hc in Hc'. injection Hc' as Hc'. symmetry in Hc'.
  apply bool_decide_eq_false in Hc'.
  destruct (Rep_insert NULL s kvs lvl k o HR Hlvl) as (s1 & Hins & Ha1).
  destruct (Abs_erase s1 _ k Ha1) as (s2 & Her & Ha2 & _).
  rewrite ref_del_put in Ha2 by done.
  exists s1, s2. split; [done|]. split; [done|].
  split; [by rewrite (Abs_size s2 kvs Ha2)|].
  rewrite Hit. apply (Abs_iterate s2 kvs _ Ha2).
  apply (Rep_fuel NULL). by right.
Qed.

(** X8: [insert] of a new key shifts the ranks: with [r] smaller keys in
    the store, the new handle is at rank [r], the ranks below [r] keep their
    handles, and the handle of rank [pos], from [r] on, moves to
    [pos + 1]. *)
Theorem insert_rank s lvl k o :
  reachable NULL s → (lvl ≤ MAX_LEVEL)%nat → contains s k = Some false →
  ∃ s' kvs (r : nat), insert lvl k o s = Some s' ∧
    iterate_entries (base.size (heap s)) s = Some kvs ∧
    r = length (filter (λ kv, kv.1 < k) kvs) ∧
    get_at_index s' r = Ok o ∧
    (∀ pos, 0 ≤ pos < r → get_at_index s' pos = get_at_index s pos) ∧
    (∀ pos, r ≤ pos < size s →
       get_at_index s' (pos + 1) = get_at_index s pos).
Proof.
  intros Hreach Hlvl Hc.
  destruct (reachable_view NULL s Hreach) as (kvs & HR & Hs & Hlen & Hit & _).
  destruct (Rep_lookup NULL s kvs k HR) as [Hc' _].
  rewrite Hc in Hc'. injection Hc' as Hc'. symmetry in Hc'.
  apply bool_decide_eq_false in Hc'.
  destruct (Rep_insert NULL s kvs lvl k o HR Hlvl) as (s' & Hins & Ha').
  destruct (sorted_kvs_split k kvs Hs) as (pre & post & Hkvs & Hpre & Hpost & Hr).
  assert (Forall (λ kv : Z * T, k < kv.1) post) as Hpost'.
  { apply Forall_forall. intros kv Hin.
    rewrite Forall_forall in Hpost. specialize (Hpost kv Hin).
    assert (kv.1 ≠ k); [|lia]. intros Heq. apply Hc'. rewrite Hkvs, <- Heq.
    apply list_elem_of_fmap_2. set_solver. }
  rewrite Hkvs, ref_put_new in Ha' by done.
  exists s', kvs, (length pre). split; [done|]. split; [done|].
  split; [done|].
  assert (∀ pos kv, 0 ≤ pos → (pre ++ (k, o) :: post) !! Z.to_nat pos = Some kv →
            get_at_index s' pos = Ok kv.2) as Hnew.
  { intros pos kv Hpos Hkv.
    destruct (Abs_get_at_index s' _ pos Ha') as (kv' & Hkv' & Hget).
    - apply lookup_lt_Some in Hkv. lia.
    - rewrite Hkv in Hkv'. by injection Hkv' as <-. }
  assert (∀ pos kv, 0 ≤ pos → kvs !! Z.to_nat pos = Some kv →
            get_at_index s pos = Ok kv.2) as Hold.
  { intros pos kv Hpos Hkv.
    destruct (Rep_get_at_index NULL s kvs pos HR) as (kv' & Hkv' & Hget).
    - apply lookup_lt_Some in Hkv. lia.
    - rewrite Hkv in Hkv'. by injection Hkv' as <-. }
  split; [|split].
  - apply (Hnew _ (k, o)); [lia|]. rewrite Nat2Z.id.
    by rewrite list_lookup_middle.
  - intros pos Hpos.
    destruct (lookup_lt_is_Some_2 pre (Z.to_nat pos)) as [kv Hkv]; [lia|].
    rewrite (Hnew pos kv), (Hold pos kv); try done; try lia.
    + rewrite Hkvs. by rewrite lookup_app_l by lia.
    + by rewrite lookup_app_l by lia.
  - intros pos Hpos. rewrite Hkvs, length_app in Hlen.
    destruct (lookup_lt_is_Some_2 post (Z.to_nat pos - length pre))
      as [kv Hkv]; [lia|].
    rewrite (Hnew (pos + 1) kv), (Hold pos kv); try done; try lia.
    + rewrite Hkvs. by rewrite lookup_app_r by lia.
    + rewrite lookup_app_r by lia.
      replace (Z.to_nat (pos + 1) - length pre)%nat
        with (S (Z.to_nat pos - length pre)) by lia. done.
Qed.

(** X9: [erase] of a present key shifts the ranks: with [r] smaller keys in
    the store, the erased handle was at rank [r], the ranks below [r] keep
    their handles, and the handle of rank [pos], above [r], moves to
    [pos - 1]. *)
Theorem erase_rank s k :
  reachable NULL s → contains s k = Some true →
  ∃ s' kvs (r : nat) o, erase k s = Some s' ∧
    iterate_entries (base.size (heap s)) s = Some kvs ∧
    r = length (filter (λ kv, kv.1 < k) kvs) ∧
    get NULL s k = Some o ∧ get_at_index s r = Ok o ∧
    size s' = size s - 1 ∧
    (∀ pos, 0 ≤ pos < r → get_at_index s' pos = get_at_index s pos) ∧
    (∀ pos, r < pos < size s →
       get_at_index s' (pos - 1) = get_at_index s pos).
Proof.
  intros Hreach Hc.
  destruct (reachable_view NULL s Hreach) as (kvs & HR & Hs & Hlen & Hit & _).
  destruct (Rep_lookup NULL s kvs k HR) as [Hc' Hg].
  rewrite Hc in Hc'. injection Hc' as Hc'. symmetry in Hc'.
  apply bool_decide_eq_true in Hc'.
  destruct (Rep_erase NULL s kvs k HR) as (s' & Her & HR' & _).
  destruct (sorted_kvs_find kvs k Hs)
    as [(pre & o & post & Hkvs & Hpre & Hpost)|Hout]; [|done].
  rewrite Hkvs, ref_del_present in HR' by done.
  rewrite Hkvs, ref_find_present in Hg by done. simpl in Hg.
  assert (length (filter (λ kv : Z * T, kv.1 < k) kvs) = length pre) as Hr.
  { rewrite Hkvs. apply filter_below; [done|].
    constructor; [simpl; lia|].
    eapply Forall_impl; [exact Hpost|]. simpl. intros; lia. }
  exists s', kvs, (length pre), o.
  split; [done|]. split; [done|]. split; [done|]. split; [done|].
  assert (∀ pos kv, 0 ≤ pos → (pre ++ post) !! Z.to_nat pos = Some kv →
            get_at_index s' pos = Ok kv.2) as Hnew.
  { intros pos kv Hpos Hkv.
    destruct (Rep_get_at_index NULL s' _ pos HR') as (kv' & Hkv' & Hget).
    - apply lookup_lt_Some in Hkv. lia.
    - rewrite Hkv in Hkv'. by injection Hkv' as <-. }
  assert (∀ pos kv, 0 ≤ pos → kvs !! Z.to_nat pos = Some kv →
            get_at_index s pos = Ok kv.2) as Hold.
  { intros pos kv Hpos Hkv.
    destruct (Rep_get_at_index NULL s kvs pos HR) as (kv' & Hkv' & Hget).
    - apply lookup_lt_Some in Hkv. lia.
    - rewrite Hkv in Hkv'. by injection Hkv' as <-. }
  rewrite Hkvs, length_app in Hlen. simpl in Hlen.
  split; [|split; [|split]].
  - apply (Hold _ (k, o)); [lia|]. rewrite Nat2Z.id, Hkvs.
    by rewrite list_lookup_middle.
  - rewrite (Rep_size NULL s' _ HR'), length_app. lia.
  - intros pos Hpos.
    destruct (lookup_lt_is_Some_2 pre (Z.to_nat pos)) as [kv Hkv]; [lia|].
    rewrite (Hnew pos kv), (Hold pos kv); try done; try lia.
    + rewrite Hkvs. by rewrite lookup_app_l by lia.
    + by rewrite lookup_app_l by lia.
  - intros pos Hpos.
    destruct (lookup_lt_is_Some_2 post (Z.to_nat pos - S (length pre)))
      as [kv Hkv]; [lia|].
    rewrite (Hnew (pos - 1) kv), (Hold pos kv); try done; try lia.
    + rewrite Hkvs. rewrite lookup_app_r by lia.
      replace (Z.to_nat pos - length pre)%nat
        with (S (Z.to_nat pos - S (length pre))) by lia. done.
    + rewrite lookup_app_r by lia.
      replace (Z.to_nat (pos - 1) - length pre)%nat
        with (Z.to_nat pos - S (length pre))%nat by lia. done.
Qed.

(** X10: a reachable store owns one cell for the header and one for each
    entry, so [erase] frees what [insert] allocates; and every pointer of
    every cell designates a cell of the store other than the header. *)
Theorem heap_cells s :
  reachable NULL s →
  Z.of_nat (base.size (heap s)) = size s + 1 ∧
  is_Some (heap s !! header s) ∧
  ∀ a e j b, heap s !! a = Some e → forward e !! j = Some (Some b) →
    b ≠ header s ∧ is_Some (heap s !! b).
Proof.
  intros Hreach.
  destruct (reachable_Rep NULL s Hreach) as (kvs & [[-> ->]|(ns & HI & Htag)]).
  { split; [reflexivity|]. split; [by eexists|].
    intros a e j b Ha Hj. unfold create, alloc in Ha. simpl in Ha.
    apply lookup_insert_Some in Ha as [[_ <-]|[_ Ha]];
      [|by rewrite lookup_empty in Ha].
    unfold new_Entry in Hj. cbn [forward] in Hj.
    by apply lookup_replicate in Hj as [? _]. }
  pose proof (inv_nodup _ _ HI) as Hnd.
  apply NoDup_cons in Hnd as [Hhd Hnd].
  assert (∀ b, b ∈ na <$> ns → b ≠ header s ∧ is_Some (heap s !! b)) as Hin.
  { intros b Hb. split; [by intros ->|].
    apply elem_of_dom. rewrite (inv_dom _ _ HI).
    apply elem_of_list_to_set. by right. }
  split; [|split].
  - rewrite (Inv_fuel s ns HI). unfold size. rewrite (inv_size _ _ HI). lia.
  - pose proof (inv_header _ _ HI) as Hc. unfold cell_ok, get_shape in Hc.
    simpl in Hc. by destruct (heap s !! header s).
  - intros a e j b Ha Hj.
    assert (get_forward (heap s) a j = Some (Some b)) as Hf.
    { unfold get_forward. by rewrite Ha. }
    assert (a ∈ header s :: (na <$> ns)) as Hdom.
    { assert (a ∈ dom (heap s)) as Hd by (by apply elem_of_dom_2 in Ha).
      rewrite (inv_dom _ _ HI) in Hd. by apply elem_of_list_to_set in Hd. }
    apply elem_of_cons in Hdom as [->|Hdom].
    + pose proof (inv_header _ _ HI) as Hc. unfold cell_ok, get_shape in Hc.
      simpl in Hc. rewrite Ha in Hc. simpl in Hc. injection Hc as _ Hlen _.
      apply lookup_lt_Some in Hj. rewrite Hlen in Hj.
      destruct (decide (j ≤ level s)%nat) as [Hj'|Hj'].
      * destruct (inv_links _ _ HI j Hj' [] (hd_node s) ns eq_refl) as [Hl _].
        { simpl. lia. }
        simpl in Hl. rewrite Hf in Hl. injection Hl as Hl. symmetry in Hl.
        apply Hin. by apply (first_at_elem j).
      * rewrite (inv_top _ _ HI j) in Hf by lia. done.
    + apply list_elem_of_fmap in Hdom as (nd & -> & Hnd').
      apply list_elem_of_split in Hnd' as (A & R & Hns).
      pose proof (inv_cells _ _ HI) as Hcells.
      rewrite Forall_forall in Hcells.
      assert (nd ∈ ns) as Hnd' by (rewrite Hns; set_solver).
      pose proof (Hcells nd Hnd') as Hc. unfold cell_ok, get_shape in Hc.
      rewrite Ha in Hc. simpl in Hc. injection Hc as _ Hlen _.
      apply lookup_lt_Some in Hj. rewrite Hlen in Hj.
      pose proof (inv_heights _ _ HI) as Hh. rewrite Forall_forall in Hh.
      specialize (Hh nd Hnd').
      destruct (inv_links _ _ HI j) with (A := hd_node s :: A) (nd := nd)
        (R := R) as [Hl _]; [lia|by rewrite Hns|lia|].
      rewrite Hf in Hl. injection Hl as Hl. symmetry in Hl.
      apply Hin. apply first_at_elem in Hl. rewrite Hns, fmap_app, fmap_cons.
      set_solver.
Qed.

(** The level in use is 0 or a level at which the header has a link. *)
Definition level_used s : Prop :=
  level s = 0%nat ∨
  ∃ x, get_forward (heap s) (header s) (level s) = Some (Some x).

Lemma shrink_level_used (h : gmap addr (@Entry T)) hd lvl lvl' :
  shrink_level h hd lvl = Some lvl' →
  lvl' = 0%nat ∨ ∃ x, get_forward h hd lvl' = Some (Some x).
Proof.
  induction lvl as [|l IH]; simpl.
  - intros [= <-]. by left.
  - destruct (get_forward h hd (S l)) as [[x|]|] eqn:Hf; simpl; [|done|done].
    intros [= <-]. right. by exists x.
Qed.

Lemma erase_level_used s v s' :
  level_used s → erase v s = Some s' → level_used s'.
Proof.
  intros Hs. unfold erase. intros H.
  apply bind_Some in H as ([x upd] & _ & H).
  apply bind_Some in H as ([y|] & _ & H); [|by injection H as <-].
  apply bind_Some in H as (k & _ & H).
  destruct (bool_decide (k = v)); [|by injection H as <-].
  apply bind_Some in H as (h & _ & H).
  apply bind_Some in H as (lvl & Hshrink & H). injection H as <-.
  unfold level_used. simpl. by apply shrink_level_used in Hshrink.
Qed.

Lemma insert_level_result lvl v o s s' :
  insert lvl v o s = Some s' →
  header s' = header s ∧
  (level s' = level s ∨ ((level s < lvl)%nat ∧ level s' = lvl)).
Proof.
  unfold insert. intros H.
  apply bind_Some in H as (c & _ & H).
  apply bind_Some in H as (x & _ & H).
  apply bind_Some in H as ([|] & _ & H).
  - apply bind_Some in H as ([upd h] & _ & H).
    destruct (alloc h (new_Entry lvl v o)) as [x1 h1].
    apply bind_Some in H as (h2 & _ & H).
    apply bind_Some in H as (h3 & _ & H). injection H as <-. simpl.
    split; [done|]. case_decide; auto.
  - apply bind_Some in H as (y & _ & H).
    apply bind_Some in H as (h & _ & H). injection H as <-. simpl. auto.
Qed.

Lemma first_at_reached j (l : list anode) nd :
  nd ∈ l → (j ≤ nh nd)%nat → is_Some (first_at j l).
Proof.
  intros Hin Hj. destruct (first_at j l) as [x|] eqn:Hf; [by eexists|].
  apply first_at_None in Hf. rewrite Forall_forall in Hf.
  specialize (Hf nd Hin). unfold low in Hf. lia.
Qed.

Lemma insert_level_used s ns lvl v o s' :
  Inv s ns → level_used s → (lvl ≤ MAX_LEVEL)%nat →
  insert lvl v o s = Some s' → level_used s'.
Proof.
  intros HI Hs Hlvl Hins.
  destruct (sorted_find ns v (inv_sorted _ _ HI))
    as [(pre & xn & post & Hns & Hkey & Hpre & Hpost)|
        (pre & post & Hns & Hpre & Hpost)].
  - destruct (insert_present_ok s ns pre xn post v o lvl HI Hns Hpre Hkey)
      as (h' & _ & Hins' & _ & Hfw & _).
    rewrite Hins in Hins'. injection Hins' as ->.
    unfold level_used in *. simpl. by rewrite Hfw.
  - destruct (insert_new_ok s ns pre post v o lvl HI Hns Hpre Hpost Hlvl)
      as (s1 & x & Hins' & _ & HI' & Hhd & _).
    rewrite Hins in Hins'. injection Hins' as <-.
    destruct (insert_level_result _ _ _ _ _ Hins) as [_ Hlevel].
    assert (∀ nd, nd ∈ pre ++ mkNode x v lvl :: post →
              (level s' ≤ nh nd)%nat → level_used s') as Hreach.
    { intros nd Hin Hnd. right.
      destruct (inv_links _ _ HI' (level s')) with (A := @nil anode)
        (nd := hd_node s') (R := pre ++ mkNode x v lvl :: post) as [Hl _];
        [lia|done|simpl; apply (inv_level _ _ HI')|].
      simpl in Hl. rewrite Hl.
      destruct (first_at_reached (level s') _ nd Hin Hnd) as [y ->].
      by exists y. }
    destruct Hlevel as [Hsame|[Hlt Hnew]].
    + destruct Hs as [Hzero|[y Hy]]; [left; congruence|].
      destruct (inv_links _ _ HI (level s)) with (A := @nil anode)
        (nd := hd_node s) (R := ns) as [Hl _];
        [lia|done|simpl; apply (inv_level _ _ HI)|].
      simpl in Hl. rewrite Hy in Hl. injection Hl as Hl. symmetry in Hl.
      destruct (first_at_Some _ _ _ Hl) as (l1 & nd & l2 & Hsplit & _ & Hnd & _).
      apply (Hreach nd); [|lia]. rewrite Hns in Hsplit.
      assert (nd ∈ pre ++ post) as Hin by (rewrite Hsplit; set_solver).
      set_solver.
    + apply (Hreach (mkNode x v lvl)); [set_solver|simpl; lia].
Qed.

Lemma run_level_used ops :
  Forall valid_op ops → ∀ s kvs, Rep NULL s kvs → level_used s →
  ∀ s', run ops s = Some s' → level_used s'.
Proof.
  induction 1 as [|a ops Ha _ IH]; intros s kvs HR Hs s' Hrun.
  { by injection Hrun as <-. }
  simpl in Hrun. apply bind_Some in Hrun as (s1 & Happ & Hrun).
  destruct a as [lvl k o|k]; simpl in *.
  - destruct (Rep_insert NULL s kvs lvl k o HR Ha) as (s1' & Hins & Habs).
    rewrite Happ in Hins. injection Hins as <-.
    apply (IH s1 _ (or_intror Habs)); [|done].
    destruct HR as [[-> ->]|(ns & HI & _)].
    + rewrite insert_create in Happ by done.
      apply (insert_level_used (create_linked NULL) [] lvl k o);
        [apply Inv_create_linked|by left|done|done].
    + by apply (insert_level_used s ns lvl k o).
  - destruct (Rep_erase NULL s kvs k HR) as (s1' & Her & HR1 & _).
    rewrite Happ in Her. injection Her as <-.
    apply (IH s1 _ HR1); [|done]. by apply (erase_level_used s k).
Qed.

(** X11: in a reachable store the level in use is at most [MAX_LEVEL], the
    header has no link above it, and unless it is 0 the header has a link at
    it: [insert] raises the level to the height of a taller new tower, and
    [erase] lowers it past the levels it empties. *)
Theorem level_in_use s :
  reachable NULL s →
  (level s ≤ MAX_LEVEL)%nat ∧
  (∀ j, (level s < j ≤ MAX_LEVEL)%nat →
        get_forward (heap s) (header s) j = Some None) ∧
  (level s = 0%nat ∨
   ∃ x, get_forward (heap s) (header s) (level s) = Some (Some x)).
Proof.
  intros (ops & Hops & Hrun).
  assert (level_used s) as Hused.
  { apply (run_level_used ops Hops (create NULL) []); [by left|by left|done]. }
  split; [|split; [|done]].
  - destruct (reachable_Rep NULL s) as (kvs & [[-> ->]|(ns & HI & _)]);
      [by exists ops|simpl; lia|apply (inv_level _ _ HI)].
  - destruct (reachable_Rep NULL s) as (kvs & [[-> ->]|(ns & HI & _)]);
      [by exists ops| |apply (inv_top _ _ HI)].
    intros j Hj. unfold get_forward, create, alloc.
    cbn [heap header]. rewrite lookup_insert_eq. cbn [mbind option_bind].
    unfold new_Entry. cbn [forward]. apply lookup_replicate_2. lia.
Qed.

(** X12: the destructor of a reachable store frees the header only: the
    cells of the [size()] entries stay allocated, each with its key and its
    handle. *)
Theorem destroy_leaves s :
  reachable NULL s →
  Z.of_nat (base.size (destroy s)) = size s ∧
  ∃ kvs, iterate_entries (base.size (heap s)) s = Some kvs ∧
    ∀ k o, (k, o) ∈ kvs →
      ∃ a e, destroy s !! a = Some e ∧ value e = k ∧ obj_ptr e = o.
Proof.
  intros Hreach.
  destruct (reachable_view NULL s Hreach) as (kvs & HR & _ & Hlen & Hit & _).
  destruct HR as [[-> ->]|(ns & HI & Htag)].
  { split; [reflexivity|]. exists []. split; [done|].
    by intros k o ?%elem_of_nil. }
  split.
  - unfold destroy. rewrite map_size_delete_Some.
    + rewrite (Inv_fuel s ns HI). unfold size. rewrite (inv_size _ _ HI).
      simpl. lia.
    + pose proof (inv_header _ _ HI) as Hc. unfold cell_ok, get_shape in Hc.
      simpl in Hc. by destruct (heap s !! header s).
  - exists kvs. split; [done|]. intros k o Hin.
    apply list_elem_of_lookup_1 in Hin as [i Hi].
    destruct (Forall2_lookup_r _ _ _ _ _ Htag Hi) as (nd & Hnd & Hk & Ho).
    simpl in Hk, Ho.
    pose proof (inv_cells _ _ HI) as Hcells. rewrite Forall_forall in Hcells.
    pose proof (Hcells nd (list_elem_of_lookup_2 _ _ _ Hnd)) as Hc.
    unfold cell_ok, get_shape in Hc. unfold get_obj in Ho.
    destruct (heap s !! na nd) as [e|] eqn:He; [|done].
    simpl in Hc, Ho. injection Hc as Hv _ _. injection Ho as Ho.
    exists (na nd), e. split; [|by rewrite Hv, Hk].
    unfold destroy. rewrite lookup_delete_ne; [done|].
    pose proof (inv_nodup _ _ HI) as Hnodup.
    apply NoDup_cons in Hnodup as [Hhd _]. intros Heq. apply Hhd.
    rewrite Heq. apply list_elem_of_fmap_2.
    by apply list_elem_of_lookup_2 in Hnd.
Qed.

End store_facts.

(** *** The facts at the store of the example *)

Lemma insert_lookup_witness :
  reachable 0%nat store_ex ∧ (3 ≤ MAX_LEVEL)%nat ∧
  ∃ s' b, insert 3 6 9%nat store_ex = Some s' ∧ contains store_ex 6 = Some b ∧
    contains s' 6 = Some true ∧ get 0%nat s' 6 = Some 9%nat ∧
    size s' = size store_ex + (if b then 0 else 1).
Proof.
  split; [exact store_ex_reachable|]. split; [unfold MAX_LEVEL; lia|].
  apply (insert_lookup 0%nat store_ex 3 6 9%nat);
    [exact store_ex_reachable|unfold MAX_LEVEL; lia].
Defined.

Lemma op_frame_witness :
  reachable 0%nat store_ex ∧ valid_op (Erase 5 : @op nat) ∧
  ∃ s', apply_op (Erase 5) store_ex = Some s' ∧
    contains s' 7 = contains store_ex 7 ∧
    get 0%nat s' 7 = get 0%nat store_ex 7.
Proof.
  split; [exact store_ex_reachable|]. split; [exact I|].
  apply (op_frame 0%nat store_ex (Erase 5) 7);
    [exact store_ex_reachable|exact I|simpl; lia].
Defined.

Lemma lookup_last_write_witness :
  Forall valid_op ops_ex ∧
  ∃ s, run ops_ex (create 0%nat) = Some s ∧
    ∀ k, contains s k = Some (bool_decide (is_Some (last_write k ops_ex))) ∧
         get 0%nat s k = Some (default 0%nat (last_write k ops_ex)).
Proof.
  split; [exact ops_ex_valid|].
  apply (lookup_last_write 0%nat ops_ex). exact ops_ex_valid.
Defined.

Example last_write_ex :
  (λ k, last_write k ops_ex) <$> [5; 7; 10; 11] =
  [Some 2%nat; Some 4%nat; None; None].
Proof. vm_compute. reflexivity. Qed.

Lemma iterate_ranks_witness :
  reachable 0%nat store_ex ∧
  ∃ l, iterate (base.size (heap store_ex)) store_ex = Some l ∧
    Z.of_nat (length l) = size store_ex ∧
    ∀ pos, 0 ≤ pos < size store_ex →
      ∃ o, l !! Z.to_nat pos = Some o ∧ get_at_index store_ex pos = Ok o.
Proof.
  split; [exact store_ex_reachable|].
  apply (iterate_ranks 0%nat store_ex). exact store_ex_reachable.
Defined.

Lemma iterate_lookup_witness :
  reachable 0%nat store_ex ∧
  ∃ kvs, iterate_entries (base.size (heap store_ex)) store_ex = Some kvs ∧
    ∀ k, contains store_ex k = Some (bool_decide (k ∈ kvs.*1)) ∧
         (∀ o, (k, o) ∈ kvs → get 0%nat store_ex k = Some o) ∧
         (k ∉ kvs.*1 → get 0%nat store_ex k = Some 0%nat).
Proof.
  split; [exact store_ex_reachable|].
  apply (iterate_lookup 0%nat store_ex). exact store_ex_reachable.
Defined.

Lemma begin_end_witness :
  reachable 0%nat store_ex ∧
  ∃ it, begin store_ex = Some it ∧
    (iter_eq it end_ = true ↔ size store_ex = 0) ∧
    (iter_ne it end_ = negb (iter_eq it end_)) ∧
    (0 < size store_ex →
     ∃ o, deref store_ex it = Some o ∧ get_at_index store_ex 0 = Ok o).
Proof.
  split; [exact store_ex_reachable|].
  apply (begin_end 0%nat store_ex). exact store_ex_reachable.
Defined.

Lemma insert_erase_cancel_witness :
  reachable 0%nat store_ex ∧ (2 ≤ MAX_LEVEL)%nat ∧
  contains store_ex 6 = Some false ∧
  ∃ s1 s2, insert 2 6 9%nat store_ex = Some s1 ∧ erase 6 s1 = Some s2 ∧
    size s2 = size store_ex ∧
    iterate_entries (base.size (heap s2)) s2 =
      iterate_entries (base.size (heap store_ex)) store_ex.
Proof.
  split; [exact store_ex_reachable|]. split; [unfold MAX_LEVEL; lia|].
  split; [vm_compute; reflexivity|].
  apply (insert_erase_cancel 0%nat store_ex 2 6 9%nat);
    [exact store_ex_reachable|unfold MAX_LEVEL; lia|vm_compute; reflexivity].
Defined.

Lemma insert_rank_witness :
  reachable 0%nat store_ex ∧ (2 ≤ MAX_LEVEL)%nat ∧
  contains store_ex 6 = Some false ∧
  ∃ s' kvs (r : nat), insert 2 6 9%nat store_ex = Some s' ∧
    iterate_entries (base.size (heap store_ex)) store_ex = Some kvs ∧
    r = length (filter (λ kv, kv.1 < 6) kvs) ∧
    get_at_index s' r = Ok 9%nat ∧
    (∀ pos, 0 ≤ pos < r → get_at_index s' pos = get_at_index store_ex pos) ∧
    (∀ pos, r ≤ pos < size store_ex →
       get_at_index s' (pos + 1) = get_at_index store_ex pos).
Proof.
  split; [exact store_ex_reachable|]. split; [unfold MAX_LEVEL; lia|].
  split; [vm_compute; reflexivity|].
  apply (insert_rank 0%nat store_ex 2 6 9%nat);
    [exact store_ex_reachable|unfold MAX_LEVEL; lia|vm_compute; reflexivity].
Defined.

Lemma erase_rank_witness :
  reachable 0%nat store_ex ∧ contains store_ex 7 = Some true ∧
  ∃ s' kvs (r : nat) o, erase 7 store_ex = Some s' ∧
    iterate_entries (base.size (heap store_ex)) store_ex = Some kvs ∧
    r = length (filter (λ kv, kv.1 < 7) kvs) ∧
    get 0%nat store_ex 7 = Some o ∧ get_at_index store_ex r = Ok o ∧
    size s' = size store_ex - 1 ∧
    (∀ pos, 0 ≤ pos < r → get_at_index s' pos = get_at_index store_ex pos) ∧
    (∀ pos, r < pos < size store_ex →
       get_at_index s' (pos - 1) = get_at_index store_ex pos).
Proof.
  split; [exact store_ex_reachable|]. split; [vm_compute; reflexivity|].
  apply (erase_rank 0%nat store_ex 7);
    [exact store_ex_reachable|vm_compute; reflexivity].
Defined.

Lemma heap_cells_witness :
  reachable 0%nat store_ex ∧
  Z.of_nat (base.size (heap store_ex)) = size store_ex + 1 ∧
  is_Some (heap store_ex !! header store_ex) ∧
  ∀ a e j b, heap store_ex !! a = Some e → forward e !! j = Some (Some b) →
    b ≠ header store_ex ∧ is_Some (heap store_ex !! b).
Proof.
  split; [exact store_ex_reachable|].
  apply (heap_cells 0%nat store_ex). exact store_ex_reachable.
Defined.

Lemma level_in_use_witness :
  reachable 0%nat store_ex ∧
  (level store_ex ≤ MAX_LEVEL)%nat ∧
  (∀ j, (level store_ex < j ≤ MAX_LEVEL)%nat →
        get_forward (heap store_ex) (header store_ex) j = Some None) ∧
  (level store_ex = 0%nat ∨
   ∃ x, get_forward (heap store_ex) (header store_ex) (level store_ex) =
        Some (Some x)).
Proof.
  split; [exact store_ex_reachable|].
  apply (level_in_use 0%nat store_ex). exact store_ex_reachable.
Defined.

Lemma destroy_leaves_witness :
  reachable 0%nat store_ex ∧
  Z.of_nat (base.size (destroy store_ex)) = size store_ex ∧
  ∃ kvs, iterate_entries (base.size (heap store_ex)) store_ex = Some kvs ∧
    ∀ k o, (k, o) ∈ kvs →
      ∃ a e, destroy store_ex !! a = Some e ∧ value e = k ∧ obj_ptr e = o.
Proof.
  split; [exact store_ex_reachable|].
  apply (destroy_leaves 0%nat store_ex). exact store_ex_reachable.
Defined.

Example store_ex_level : level store_ex = 3%nat.
Proof. vm_compute. reflexivity. Qed.

(** ** Facts on attribute stores *)

Module AttrStoreFacts.
Import AttrStore.

(** What every call keeps: the defaults, and that a value is stored only
    where a setter put it. *)
Definition kept (cs : list call) (st : AttributeStore) : Prop :=
  default_numeric st = 0%float ∧ default_string st = EmptyString ∧
  (∀ name oid v, numeric_attribute st !! name ≫= (λ m, m !! oid) = Some v →
     Exists (sets_numeric oid name) cs) ∧
  (∀ name oid v, string_attribute st !! name ≫= (λ m, m !! oid) = Some v →
     Exists (sets_string oid name) cs).

Lemma lookup_inner {V} (m : gmap string (gmap Z V)) name name' oid oid' inner v :
  <[name := <[oid := v]> inner]> m !! name' ≫= (λ i, i !! oid') =
  if decide (name' = name) then
    if decide (oid' = oid) then Some v else inner !! oid'
  else m !! name' ≫= (λ i, i !! oid').
Proof.
  case_decide as Hn.
  - subst. rewrite lookup_insert_eq. simpl. case_decide as Ho.
    + subst. by rewrite lookup_insert_eq.
    + by rewrite lookup_insert_ne.
  - by rewrite lookup_insert_ne.
Qed.

Lemma lookup_fresh_inner {V} (m : gmap string (gmap Z V)) name name' oid :
  <[name := ∅]> m !! name' ≫= (λ i, i !! oid) =
  if decide (name' = name) then None else m !! name' ≫= (λ i, i !! oid).
Proof.
  case_decide as Hn.
  - subst. by rewrite lookup_insert_eq.
  - by rewrite lookup_insert_ne.
Qed.

Lemma lookup_delete_inner {V} (m : gmap string (gmap Z V)) name oid oid' :
  (delete oid <$> m) !! name ≫= (λ i, i !! oid') =
  if decide (oid' = oid) then None else m !! name ≫= (λ i, i !! oid').
Proof.
  rewrite lookup_fmap. destruct (m !! name) as [i|]; simpl.
  - case_decide as Ho.
    + subst. by rewrite lookup_delete_eq.
    + by rewrite lookup_delete_ne.
  - by case_decide.
Qed.

Lemma kept_step cs st c : kept cs st → kept (cs ++ [c]) (apply_call c st).
Proof.
  intros (Hdn & Hds & Hnum & Hstr).
  assert (∀ P, Exists P cs → Exists P (cs ++ [c])) as Hweak.
  { intros P HP. apply Exists_app. by left. }
  assert (kept (cs ++ [c]) st) as Hsame.
  { repeat split; eauto. }
  unfold kept.
  destruct c as [name t|oid name v|oid name v|oid]; cbn [apply_call].
  - unfold add. destruct (attribute st name); [exact Hsame|].
    cbn [snd default_numeric default_string numeric_attribute string_attribute].
    split; [done|]. split; [done|]. split.
    + intros name' oid' v'. destruct t; [by eauto|].
      rewrite lookup_fresh_inner. case_decide; [done|eauto].
    + intros name' oid' v'. destruct t; [|by eauto].
      rewrite lookup_fresh_inner. case_decide; [done|eauto].
  - unfold setString. destruct (attribute st name) as [a|]; [|exact Hsame].
    destruct (atype a); [|exact Hsame].
    cbn [snd default_numeric default_string numeric_attribute string_attribute].
    split; [done|]. split; [done|]. split; [eauto|].
    intros name' oid' v'. rewrite lookup_inner.
    case_decide as Hn; [|eauto]. case_decide as Ho.
    + intros _. apply Exists_app. right. constructor. simpl. done.
    + intros Hv. apply Hweak. apply (Hstr name' oid' v'). subst.
      destruct (string_attribute st !! name); [done|].
      simpl in Hv. by rewrite lookup_empty in Hv.
  - unfold setNumeric. destruct (attribute st name) as [a|]; [|exact Hsame].
    destruct (atype a); [exact Hsame|].
    cbn [snd default_numeric default_string numeric_attribute string_attribute].
    split; [done|]. split; [done|]. split; [|eauto].
    intros name' oid' v'. rewrite lookup_inner.
    case_decide as Hn; [|eauto]. case_decide as Ho.
    + intros _. apply Exists_app. right. constructor. simpl. done.
    + intros Hv. apply Hweak. apply (Hnum name' oid' v'). subst.
      destruct (numeric_attribute st !! name); [done|].
      simpl in Hv. by rewrite lookup_empty in Hv.
  - unfold remove.
    cbn [default_numeric default_string numeric_attribute string_attribute].
    split; [done|]. split; [done|]. split.
    + intros name' oid' v'. rewrite lookup_delete_inner.
      case_decide; [done|eauto].
    + intros name' oid' v'. rewrite lookup_delete_inner.
      case_decide; [done|eauto].
Qed.

Lemma kept_run cs : kept cs (run_calls cs empty).
Proof.
  induction cs as [|c cs IH] using rev_ind.
  - repeat split; simpl; intros ? ? ?; by rewrite lookup_empty.
  - unfold run_calls. rewrite foldl_snoc. by apply kept_step.
Qed.

(** The calls of [testMLNetwork.cpp] on the node features of a layer; the
    float is the binary64 value of the literal [32.4]. *)
Definition calls_ex : list call :=
  [Add "weight" NUMERIC_TYPE; Add "type" STRING_TYPE;
   SetNumeric 1 "weight" 0x1.0333333333333p+5%float; SetString 1 "type" "pro"].

(** C8: on a store reached by calls from the empty one, a numeric attribute
    that [add] registers takes a value with [setNumeric] and gives it back
    with [getNumeric]; for an id that no call of the setter named, the getter
    returns the default, [0.0] for a numeric and the empty string for a
    string attribute, and does not throw. *)
Theorem attribute_roundtrip (cs : list call) (name : string) (oid other : Z)
    (v : float) :
  let st := run_calls cs empty in
  ((add name NUMERIC_TYPE st).1 = Ok tt →
     (setNumeric oid name v (add name NUMERIC_TYPE st).2).1 = Ok tt ∧
     getNumeric oid name
       (setNumeric oid name v (add name NUMERIC_TYPE st).2).2 = Ok v) ∧
  (¬ Exists (sets_numeric other name) cs →
     (∃ a, attribute st name = Some a ∧ atype a = NUMERIC_TYPE) →
     getNumeric other name st = Ok 0%float) ∧
  (¬ Exists (sets_string other name) cs →
     (∃ a, attribute st name = Some a ∧ atype a = STRING_TYPE) →
     getString other name st = Ok EmptyString).
Proof.
  intros st. destruct (kept_run cs) as (Hdn & Hds & Hnum & Hstr).
  fold st in Hdn, Hds, Hnum, Hstr. split; [|split].
  - unfold add. destruct (attribute st name) eqn:Hatt; simpl; [done|].
    intros _.
    assert (attribute
              (mkAttributeStore (default_numeric st) (default_string st)
                 (attribute_vector st ++ [mkAttribute name NUMERIC_TYPE])
                 (<[name := length (attribute_vector st)]> (attribute_ids st))
                 (string_attribute st)
                 (<[name := ∅]> (numeric_attribute st))) name
            = Some (mkAttribute name NUMERIC_TYPE)) as Hreg.
    { unfold attribute. simpl. rewrite lookup_insert_eq. simpl.
      by rewrite list_lookup_middle. }
    unfold setNumeric. rewrite Hreg. simpl. split; [done|].
    unfold getNumeric, attribute. simpl. rewrite lookup_insert_eq. simpl.
    rewrite list_lookup_middle by done. simpl.
    rewrite !lookup_insert_eq. simpl. by rewrite lookup_insert_eq.
  - intros Hnever (a & Ha & Ht). unfold getNumeric. rewrite Ha, Ht.
    destruct (numeric_attribute st !! name ≫= (λ m, m !! other)) as [x|] eqn:Hx.
    + exfalso. apply Hnever. by apply (Hnum name other x).
    + by rewrite Hdn.
  - intros Hnever (a & Ha & Ht). unfold getString. rewrite Ha, Ht.
    destruct (string_attribute st !! name ≫= (λ m, m !! other)) as [x|] eqn:Hx.
    + exfalso. apply Hnever. by apply (Hstr name other x).
    + by rewrite Hds.
Qed.

Lemma attribute_roundtrip_witness :
  ((setNumeric 7 "w" 0x1.0333333333333p+5%float
      (add "w" NUMERIC_TYPE (run_calls calls_ex empty)).2).1 = Ok tt ∧
   getNumeric 7 "w"
     (setNumeric 7 "w" 0x1.0333333333333p+5%float
        (add "w" NUMERIC_TYPE (run_calls calls_ex empty)).2).2 =
     Ok 0x1.0333333333333p+5%float) ∧
  getNumeric 2 "weight" (run_calls calls_ex empty) = Ok 0%float ∧
  getString 2 "type" (run_calls calls_ex empty) = Ok EmptyString.
Proof.
  split; [|split].
  - apply (proj1 (attribute_roundtrip calls_ex "w" 7 2
                    0x1.0333333333333p+5%float)).
    vm_compute. reflexivity.
  - apply (proj1 (proj2 (attribute_roundtrip calls_ex "weight" 7 2 0%float))).
    + unfold calls_ex. rewrite !Exists_cons, Exists_nil. simpl.
      intros [[]|[[]|[[? _]|[[]|[]]]]]. discriminate.
    + exists (mkAttribute "weight" NUMERIC_TYPE). vm_compute.
      split; reflexivity.
  - apply (proj2 (proj2 (attribute_roundtrip calls_ex "type" 7 2 0%float))).
    + unfold calls_ex. rewrite !Exists_cons, Exists_nil. simpl.
      intros [[]|[[]|[[]|[[? _]|[]]]]]. discriminate.
    + exists (mkAttribute "type" STRING_TYPE). vm_compute.
      split; reflexivity.
Defined.

Example test_attributes :
  getNumeric 1 "weight" (run_calls calls_ex empty) = Ok 0x1.0333333333333p+5%float ∧
  getString 1 "type" (run_calls calls_ex empty) = Ok "pro"%string ∧
  getNumeric 2 "weight" (run_calls calls_ex empty) = Ok 0%float ∧
  getNumeric 1 "colour" (run_calls calls_ex empty) = Throw ElementNotFoundException.
Proof. repeat split; vm_compute; reflexivity. Qed.

End AttrStoreFacts.

(** ** Consistency of the indexes of a network *)

Module MLNetFacts.
Import MLNet.

(** The actor indexes, and the layer indexes: an entity is filed under its
    id and under its name, and ids do not exceed the counter. *)
Definition wf_named {A} (id : A → Z) (name : A → string)
    (byid : gmap Z A) (byname : gmap string A) (mx : Z) : Prop :=
  (∀ i a, byid !! i = Some a →
     id a = i ∧ i ≤ mx ∧ byname !! name a = Some a) ∧
  (∀ nm a, byname !! nm = Some a → name a = nm ∧ byid !! id a = Some a).

(** The node indexes: what the per-layer, per-actor and per-name indexes
    hold is a live node under its own keys. *)
Definition wf_nodes (byid : gmap Z node) (bylayer byactor : gmap (Z * Z) node)
    (byname : gmap (Z * string) node) (mx : Z) : Prop :=
  (∀ i n, byid !! i = Some n → node_id n = i ∧ i ≤ mx) ∧
  (∀ l i n, bylayer !! (l, i) = Some n →
     l = layer_id (node_layer n) ∧ byid !! i = Some n) ∧
  (∀ a i n, byactor !! (a, i) = Some n →
     a = actor_id (node_actor n) ∧ byid !! i = Some n) ∧
  (∀ l nm n, byname !! (l, nm) = Some n →
     l = layer_id (node_layer n) ∧ nm = node_name n ∧
     byid !! node_id n = Some n).

(** The edge indexes: a live edge has live endpoints and is filed in the
    node-pair index (under both orders if undirected); what the per-layer
    and node-pair indexes hold is a live edge under its own keys. *)
Definition wf_edges (nodes : gmap Z node) (byid : gmap Z edge)
    (bylayers : gmap (Z * Z * Z) edge) (bynodes : gmap (Z * Z) edge)
    (mx : Z) : Prop :=
  (∀ i e, byid !! i = Some e →
     edge_id e = i ∧ i ≤ mx ∧
     nodes !! node_id (v1 e) = Some (v1 e) ∧
     nodes !! node_id (v2 e) = Some (v2 e) ∧
     bynodes !! (node_id (v1 e), node_id (v2 e)) = Some e ∧
     (directed e = false →
      bynodes !! (node_id (v2 e), node_id (v1 e)) = Some e)) ∧
  (∀ l1 l2 i e, bylayers !! (l1, l2, i) = Some e →
     l1 = layer_id (node_layer (v1 e)) ∧ l2 = layer_id (node_layer (v2 e)) ∧
     byid !! i = Some e) ∧
  (∀ x y e, bynodes !! (x, y) = Some e →
     byid !! edge_id e = Some e ∧
     ((x = node_id (v1 e) ∧ y = node_id (v2 e)) ∨
      (directed e = false ∧ x = node_id (v2 e) ∧ y = node_id (v1 e)))).

(** The adjacency stores: a neighbour is a live node, joined by an edge of
    the node-pair index. *)
Definition wf_adj (nodes : gmap Z node) (bynodes : gmap (Z * Z) edge)
    (out inn all : gmap (Z * Z) node) : Prop :=
  (∀ x y n, out !! (x, y) = Some n →
     nodes !! y = Some n ∧ is_Some (bynodes !! (x, y))) ∧
  (∀ x y n, inn !! (x, y) = Some n →
     nodes !! y = Some n ∧ is_Some (bynodes !! (y, x))) ∧
  (∀ x y n, all !! (x, y) = Some n →
     nodes !! y = Some n ∧
     (is_Some (bynodes !! (x, y)) ∨ is_Some (bynodes !! (y, x)))).

Record wf (net : MLNetwork) : Prop := {
  wf_a : wf_named actor_id actor_name (actors_by_id net) (actors_by_name net)
           (max_actor_id net);
  wf_l : wf_named layer_id layer_name (layers_by_id net) (layers_by_name net)
           (max_layer_id net);
  wf_n : wf_nodes (nodes_by_id net) (nodes_by_layer_and_id net)
           (nodes_by_actor_and_id net) (nodes_by_layer_and_name net)
           (max_node_id net);
  wf_e : wf_edges (nodes_by_id net) (edges_by_id net)
           (edges_by_layers_and_id net) (edges_by_nodes net) (max_edge_id net);
  wf_j : wf_adj (nodes_by_id net) (edges_by_nodes net) (neighbors_out net)
           (neighbors_in net) (neighbors_all net)
}.

Ltac split_decide H :=
  match goal with
  | |- context [decide ?P] => destruct (decide P) as [H | H]
  end.

Lemma wf_create : wf create.
Proof.
  split; repeat split; simpl; intros *; rewrite ?lookup_empty; done.
Qed.

Lemma wf_named_add {A} (id : A → Z) (name : A → string) byid byname mx a :
  wf_named id name byid byname mx →
  byname !! name a = None → id a = mx + 1 →
  wf_named id name (<[id a := a]> byid) (<[name a := a]> byname) (mx + 1).
Proof.
  intros [Hk Hn] Hfresh Hid. split.
  - intros i a'. rewrite lookup_insert. split_decide Hi.
    + intros ?; simplify_eq. split; [done|]. split; [lia|].
      by rewrite lookup_insert_eq.
    + intros Ha. destruct (Hk i a' Ha) as (? & ? & Hnm).
      split; [done|]. split; [lia|].
      rewrite lookup_insert_ne; [done|]. congruence.
  - intros nm a'. rewrite lookup_insert. split_decide Hnm.
    + intros ?; simplify_eq. split; [done|]. by rewrite lookup_insert_eq.
    + intros Ha. destruct (Hn nm a' Ha) as [Hnm' Hid']. split; [done|].
      rewrite lookup_insert_ne; [done|].
      destruct (Hk _ _ Hid') as (_ & Hle & _). lia.
Qed.

Lemma wf_named_delete {A} (id : A → Z) (name : A → string) byid byname mx a :
  wf_named id name byid byname mx →
  byid !! id a = Some a →
  wf_named id name (delete (id a) byid) (delete (name a) byname) mx.
Proof.
  intros [Hk Hn] Hlive. split.
  - intros i a'. rewrite lookup_delete. split_decide Hi; [done|].
    intros Ha. destruct (Hk i a' Ha) as (? & ? & Hnm).
    do 2 (split; [done|]). rewrite lookup_delete_ne; [done|].
    intros Heq. destruct (Hk _ _ Hlive) as (_ & _ & Hnm').
    rewrite Heq, Hnm in Hnm'. simplify_eq.
  - intros nm a'. rewrite lookup_delete. split_decide Hnm; [done|].
    intros Ha. destruct (Hn nm a' Ha) as [Hnm' Hid']. split; [done|].
    rewrite lookup_delete_ne; [done|].
    intros Heq. rewrite Heq, Hid' in Hlive. simplify_eq.
Qed.

Lemma wf_add_actor name net : wf net → wf (add_actor name net).2.
Proof.
  intros [Hact Hlay Hnodes Hedges Hadj]. unfold add_actor.
  destruct (actors_by_name net !! name) as [a0|] eqn:Hname; [by split|].
  split; simpl; try done.
  by apply (wf_named_add actor_id actor_name _ _ _
              (mkActor (max_actor_id net + 1) name)).
Qed.

Lemma wf_set_directed l1 l2 d net : wf net → wf (set_directed l1 l2 d net).
Proof. by intros []. Qed.

Lemma wf_add_layer name d net : wf net → wf (add_layer name d net).2.
Proof.
  intros [Hact Hlay Hnodes Hedges Hadj]. unfold add_layer.
  destruct (layers_by_name net !! name) as [l0|] eqn:Hname; [by split|].
  split; simpl; try done.
  by apply (wf_named_add layer_id layer_name _ _ _
              (mkLayer (max_layer_id net + 1) name)).
Qed.

Lemma wf_add_node name a l net : wf net → wf (add_node name a l net).2.
Proof.
  intros [Hact Hlay (Hk & Hl & Ha & Hn) (He & Hel & Hen) (Ho & Hi & Hal)].
  unfold add_node. case_match; [|by split]. simpl.
  assert (∀ i n, nodes_by_id net !! i = Some n →
            <[max_node_id net + 1 := mkNode (max_node_id net + 1) name a l]>
              (nodes_by_id net) !! i = Some n) as Hold.
  { intros i n Hi'. rewrite lookup_insert_ne; [done|].
    destruct (Hk i n Hi'). lia. }
  split; simpl; try done.
  - split; [|split; [|split]].
    + intros i n. rewrite lookup_insert. split_decide Hi'.
      * intros ?; simplify_eq/=. split; [done|lia].
      * intros Hn'. destruct (Hk i n Hn'). split; [done|lia].
    + intros l' i n. rewrite lookup_insert. split_decide Hi'.
      * intros ?; simplify_eq/=. split; [done|].
        by rewrite lookup_insert_eq.
      * intros Hn'. destruct (Hl l' i n Hn'). split; [done|]. by apply Hold.
    + intros a' i n. rewrite lookup_insert. split_decide Hi'.
      * intros ?; simplify_eq/=. split; [done|].
        by rewrite lookup_insert_eq.
      * intros Hn'. destruct (Ha a' i n Hn'). split; [done|]. by apply Hold.
    + intros l' nm n. rewrite lookup_insert. split_decide Hi'.
      * intros ?; simplify_eq/=. split; [done|].
        split; [done|]. by rewrite lookup_insert_eq.
      * intros Hn'. destruct (Hn l' nm n Hn') as (? & ? & ?).
        split; [done|]. split; [done|]. by apply Hold.
  - split; [|split; [done|done]].
    intros i e Hi'. destruct (He i e Hi') as (? & ? & ? & ? & ? & ?).
    repeat split; try done; by apply Hold.
  - split; [|split].
    + intros x y n Hn'. destruct (Ho x y n Hn'). split; [by apply Hold|done].
    + intros x y n Hn'. destruct (Hi x y n Hn'). split; [by apply Hold|done].
    + intros x y n Hn'. destruct (Hal x y n Hn'). split; [by apply Hold|done].
Qed.

Lemma live_ends n1 n2 net :
  bool_decide (nodes_by_id net !! node_id n1 = Some n1) &&
  bool_decide (nodes_by_id net !! node_id n2 = Some n2) = true →
  nodes_by_id net !! node_id n1 = Some n1 ∧
  nodes_by_id net !! node_id n2 = Some n2.
Proof.
  intros [H1 H2]%andb_prop.
  by apply bool_decide_eq_true in H1, H2.
Qed.

Lemma duplicate_edge_false n1 n2 d net :
  duplicate_edge n1 n2 d net = false →
  edges_by_nodes net !! (node_id n1, node_id n2) = None ∧
  (d = false → edges_by_nodes net !! (node_id n2, node_id n1) = None).
Proof.
  unfold duplicate_edge, get_edge. intros [H1 H2]%orb_false_elim.
  apply bool_decide_eq_false in H1. rewrite <- eq_None_not_Some in H1.
  split; [done|]. intros ->. simpl in H2.
  apply bool_decide_eq_false in H2. by rewrite <- eq_None_not_Some in H2.
Qed.

(** Case analysis on the keys of the inserts and deletes of a lookup. *)
Ltac keys :=
  repeat (rewrite ?lookup_insert, ?lookup_delete;
          try match goal with
              | |- context [decide ?P] => destruct (decide P); simplify_eq/=
              end).

Ltac keys_in H :=
  repeat (rewrite ?lookup_insert, ?lookup_delete in H;
          try match type of H with
              | context [decide ?P] => destruct (decide P); simplify_eq/=
              end).

Lemma wf_add_edge n1 n2 net : wf net → wf (add_edge n1 n2 net).2.
Proof.
  intros Hwf. unfold add_edge.
  destruct (_ && _) eqn:Hlive; [|done].
  apply live_ends in Hlive as [Hn1 Hn2].
  destruct (duplicate_edge _ _ _ _) eqn:Hdup; [done|].
  apply duplicate_edge_false in Hdup as [Hd1 Hd2].
  destruct Hwf as [Hact Hlay Hnodes (He & Hel & Hen) (Ho & Hi & Hal)].
  assert (∀ i e, edges_by_id net !! i = Some e → i ≠ max_edge_id net + 1)
    as Hfresh.
  { intros i e Hi'. destruct (He i e Hi') as (_ & ? & _). lia. }
  split; simpl; try done.
  - split; [|split].
    + intros i e. rewrite lookup_insert. split_decide Hid.
      * intros ?; simplify_eq/=. split; [done|]. split; [lia|].
        do 2 (split; [done|]). destruct (is_directed _ _ _); keys; done.
      * intros Hi'. destruct (He i e Hi') as (? & ? & ? & ? & H12 & H21).
        split; [done|]. split; [lia|]. do 2 (split; [done|]).
        destruct (is_directed _ _ _);
          (split; [|intros Hde; specialize (H21 Hde)]); keys; try done;
          try specialize (Hd2 eq_refl); congruence.
    + intros l1 l2 i e. rewrite lookup_insert. split_decide Hid.
      * intros ?; simplify_eq/=. by rewrite lookup_insert_eq.
      * intros Hi'. destruct (Hel _ _ _ _ Hi') as (? & ? & Hlive').
        do 2 (split; [done|]). rewrite lookup_insert_ne; [done|].
        by apply Hfresh in Hlive'.
    + intros x y e Hxy.
      assert (e = mkEdge (max_edge_id net + 1) n1 n2
                    (is_directed (node_layer n1) (node_layer n2) net) ∧
              ((x = node_id n1 ∧ y = node_id n2) ∨
               (is_directed (node_layer n1) (node_layer n2) net = false ∧
                x = node_id n2 ∧ y = node_id n1)) ∨
              edges_by_nodes net !! (x, y) = Some e) as [[-> Hk]|Hold].
      { destruct (is_directed _ _ _); keys_in Hxy; auto 7. }
      * simpl. by rewrite lookup_insert_eq.
      * destruct (Hen _ _ _ Hold) as [Hlive' ?]. split; [|done].
        rewrite lookup_insert_ne; [done|]. by apply Hfresh in Hlive'.
  - assert (∀ k, is_Some (edges_by_nodes net !! k) →
      is_Some ((if is_directed (node_layer n1) (node_layer n2) net
       then <[(node_id n1, node_id n2) :=
               mkEdge (max_edge_id net + 1) n1 n2
                 (is_directed (node_layer n1) (node_layer n2) net)]>
              (edges_by_nodes net)
       else <[(node_id n2, node_id n1) :=
               mkEdge (max_edge_id net + 1) n1 n2
                 (is_directed (node_layer n1) (node_layer n2) net)]>
              (<[(node_id n1, node_id n2) :=
               mkEdge (max_edge_id net + 1) n1 n2
                 (is_directed (node_layer n1) (node_layer n2) net)]>
              (edges_by_nodes net))) !! k)) as Hmono.
    { intros k Hk. destruct (is_directed _ _ _); keys; done. }
    assert (is_Some ((if is_directed (node_layer n1) (node_layer n2) net
       then <[(node_id n1, node_id n2) :=
               mkEdge (max_edge_id net + 1) n1 n2
                 (is_directed (node_layer n1) (node_layer n2) net)]>
              (edges_by_nodes net)
       else <[(node_id n2, node_id n1) :=
               mkEdge (max_edge_id net + 1) n1 n2
                 (is_directed (node_layer n1) (node_layer n2) net)]>
              (<[(node_id n1, node_id n2) :=
               mkEdge (max_edge_id net + 1) n1 n2
                 (is_directed (node_layer n1) (node_layer n2) net)]>
              (edges_by_nodes net))) !! (node_id n1, node_id n2))) as H12.
    { destruct (is_directed _ _ _); keys; done. }
    assert (is_directed (node_layer n1) (node_layer n2) net = false →
      is_Some ((if is_directed (node_layer n1) (node_layer n2) net
       then <[(node_id n1, node_id n2) :=
               mkEdge (max_edge_id net + 1) n1 n2
                 (is_directed (node_layer n1) (node_layer n2) net)]>
              (edges_by_nodes net)
       else <[(node_id n2, node_id n1) :=
               mkEdge (max_edge_id net + 1) n1 n2
                 (is_directed (node_layer n1) (node_layer n2) net)]>
              (<[(node_id n1, node_id n2) :=
               mkEdge (max_edge_id net + 1) n1 n2
                 (is_directed (node_layer n1) (node_layer n2) net)]>
              (edges_by_nodes net))) !! (node_id n2, node_id n1))) as H21.
    { intros ->. keys; done. }
    split; [|split].
    + intros x y n Hxy.
      destruct (is_directed _ _ _) eqn:Hd; keys_in Hxy;
        try (split; [done|by auto]).
      all: destruct (Ho _ _ _ Hxy); split; [done|by apply Hmono].
    + intros x y n Hxy.
      destruct (is_directed _ _ _) eqn:Hd; keys_in Hxy;
        try (split; [done|by auto]).
      all: destruct (Hi _ _ _ Hxy); split; [done|by apply Hmono].
    + intros x y n Hxy. keys_in Hxy; try (split; [done|by auto]).
      destruct (Hal _ _ _ Hxy) as [? [?|?]]; split; try done;
        [left|right]; by apply Hmono.
Qed.

Lemma wf_erase_edge e net :
  wf net → edges_by_id net !! edge_id e = Some e → wf (erase_edge e net).
Proof.
  intros [Hact Hlay Hnodes (He & Hel & Hen) (Ho & Hi & Hal)] Hlive.
  destruct (He _ _ Hlive) as (_ & _ & _ & _ & H12 & H21).
  assert (∀ k e', edges_by_nodes
            (erase_edge e net) !! k = Some e' →
            edges_by_nodes net !! k = Some e' ∧ edge_id e' ≠ edge_id e)
    as Hsub.
  { intros [x y] e' Hk. simpl in Hk.
    assert (edges_by_nodes net !! (x, y) = Some e' ∧
            (x, y) ≠ (node_id (v1 e), node_id (v2 e)) ∧
            (directed e = false →
             (x, y) ≠ (node_id (v2 e), node_id (v1 e)))) as (Hk' & Hn1 & Hn2).
    { destruct (directed e); keys_in Hk; done. }
    split; [done|]. intros Hid.
    destruct (Hen _ _ _ Hk') as [Hlive' Hkey].
    rewrite Hid, Hlive in Hlive'. simplify_eq.
    destruct Hkey as [[-> ->]|(Hd & -> & ->)]; [done|]. by apply Hn2. }
  assert (∀ e', edges_by_id net !! edge_id e' = Some e' →
            edge_id e' ≠ edge_id e →
            edges_by_nodes (erase_edge e net)
              !! (node_id (v1 e'), node_id (v2 e')) = Some e' ∧
            (directed e' = false →
             edges_by_nodes (erase_edge e net)
               !! (node_id (v2 e'), node_id (v1 e')) = Some e')) as Hkeep.
  { intros e' Hlive' Hid.
    destruct (He _ _ Hlive') as (_ & _ & _ & _ & H12' & H21'). simpl.
    split; [|intros Hd'; specialize (H21' Hd')].
    all: destruct (directed e) eqn:Hd; keys; try done;
      try specialize (H21 eq_refl); congruence. }
  split; try done.
  - split; [|split].
    + intros i e'. cbn [edges_by_id erase_edge]. rewrite lookup_delete.
      split_decide Hid; [done|]. intros Hi'.
      destruct (He i e' Hi') as (? & ? & ? & ? & _).
      do 4 (split; [done|]). apply Hkeep; congruence.
    + intros l1 l2 i e'. cbn [edges_by_layers_and_id edges_by_id erase_edge].
      rewrite !lookup_delete. split_decide Hk; [done|]. intros Hi'.
      destruct (Hel _ _ _ _ Hi') as (-> & -> & Hlive').
      do 2 (split; [done|]). split_decide Hid; [|done].
      subst i. rewrite Hlive in Hlive'. by simplify_eq.
    + intros x y e' Hxy. destruct (Hsub _ _ Hxy) as [Hold Hid].
      destruct (Hen _ _ _ Hold) as [Hlive' ?]. split; [|done].
      cbn [edges_by_id erase_edge]. by rewrite lookup_delete_ne.
  - assert (∀ k, is_Some (edges_by_nodes net !! k) →
              k ≠ (node_id (v1 e), node_id (v2 e)) →
              (directed e = false → k ≠ (node_id (v2 e), node_id (v1 e))) →
              is_Some (edges_by_nodes (erase_edge e net) !! k)) as Hmono.
    { intros k Hk Hk1 Hk2. simpl.
      destruct (directed e); keys; try done. by destruct Hk2. }
    split; [|split].
    + intros x y n Hxy. cbn [neighbors_out erase_edge] in Hxy.
      assert (neighbors_out net !! (x, y) = Some n ∧
              (x, y) ≠ (node_id (v1 e), node_id (v2 e)) ∧
              (directed e = false →
               (x, y) ≠ (node_id (v2 e), node_id (v1 e)))) as (Hk' & Hn1 & Hn2).
      { destruct (directed e); keys_in Hxy; done. }
      destruct (Ho _ _ _ Hk'). split; [done|]. by apply Hmono.
    + intros x y n Hxy. cbn [neighbors_in erase_edge] in Hxy.
      assert (neighbors_in net !! (x, y) = Some n ∧
              (y, x) ≠ (node_id (v1 e), node_id (v2 e)) ∧
              (directed e = false →
               (y, x) ≠ (node_id (v2 e), node_id (v1 e)))) as (Hk' & Hn1 & Hn2).
      { destruct (directed e); keys_in Hxy; try done.
        - split; [done|]. split; [congruence|done].
        - split; [done|]. split; intros; congruence. }
      destruct (Hi _ _ _ Hk'). split; [done|]. by apply Hmono.
    + intros x y n Hxy. cbn [neighbors_all erase_edge] in Hxy.
      destruct (directed e && _) eqn:Hkept.
      * apply andb_prop in Hkept as [Hd Hrev]. rewrite Hd in Hrev.
        apply bool_decide_eq_true in Hrev.
        destruct (Hal _ _ _ Hxy) as [? Hj]. split; [done|].
        cbn [edges_by_nodes erase_edge]. rewrite Hd.
        destruct (decide ((x, y) = (node_id (v1 e), node_id (v2 e))))
          as [?|Hne1]; [simplify_eq; by right|].
        destruct (decide ((y, x) = (node_id (v1 e), node_id (v2 e))))
          as [?|Hne2]; [simplify_eq; by left|].
        rewrite !lookup_delete_ne by done. done.
      * assert (neighbors_all net !! (x, y) = Some n ∧
                (x, y) ≠ (node_id (v1 e), node_id (v2 e)) ∧
                (x, y) ≠ (node_id (v2 e), node_id (v1 e)))
          as (Hk' & Hn1 & Hn2).
        { keys_in Hxy; done. }
        destruct (Hal _ _ _ Hk') as [? Hj]. split; [done|].
        destruct (decide (is_Some (edges_by_nodes (erase_edge e net)
                                     !! (x, y)))) as [?|Hno1]; [by left|].
        destruct (decide (is_Some (edges_by_nodes (erase_edge e net)
                                     !! (y, x)))) as [?|Hno2]; [by right|].
        exfalso. cbn [edges_by_nodes erase_edge] in Hno1, Hno2, Hkept.
        destruct (directed e) eqn:Hd; simpl in Hkept.
        -- apply bool_decide_eq_false in Hkept.
           rewrite lookup_delete_ne in Hno1 by done.
           destruct Hj as [Hj|Hj]; [done|].
           rewrite lookup_delete_ne in Hno2 by congruence. done.
        -- rewrite !lookup_delete_ne in Hno1 by done.
           destruct Hj as [Hj|Hj]; [done|].
           rewrite !lookup_delete_ne in Hno2 by congruence. done.
Qed.

(** The values of an index whose entries are filed under their id. *)
Lemma values_keyed {A} (f : A → Z) (P : A → Prop) `{!∀ a, Decision (P a)}
    (m : gmap Z A) :
  (∀ i a, m !! i = Some a → f a = i) →
  NoDup (f <$> filter P (map_to_list m).*2) ∧
  ∀ a, a ∈ filter P (map_to_list m).*2 ↔ m !! f a = Some a ∧ P a.
Proof.
  intros Hk. split.
  - apply (sublist_NoDup _ (f <$> (map_to_list m).*2)).
    + replace (f <$> (map_to_list m).*2) with ((map_to_list m).*1);
        [apply NoDup_fst_map_to_list|].
      rewrite <- list_fmap_compose. apply list_fmap_ext.
      intros j [i a] Hin%list_elem_of_lookup_2%elem_of_map_to_list. simpl.
      symmetry. by apply Hk.
    + apply fmap_sublist, sublist_filter.
  - intros a. rewrite list_elem_of_filter, list_elem_of_fmap. split.
    + intros [HP ([i a'] & -> & Hin%elem_of_map_to_list)]. simpl.
      by rewrite (Hk _ _ Hin).
    + intros [Hlive HP]. split; [done|]. exists (f a, a). split; [done|].
      by apply elem_of_map_to_list.
Qed.

(** The parts of a network that erasing edges leaves alone. *)
Definition named_part (net : MLNetwork) :=
  (max_actor_id net, max_layer_id net, layers_by_id net, layers_by_name net,
   actors_by_id net, actors_by_name net).

Definition node_part (net : MLNetwork) :=
  (max_node_id net, nodes_by_id net, nodes_by_layer_and_id net,
   nodes_by_actor_and_id net, nodes_by_layer_and_name net).

Definition erase_edges (es : list edge) (net : MLNetwork) : MLNetwork :=
  foldl (λ net e, erase_edge e net) net es.

Lemma erase_edges_spec es net :
  wf net → NoDup (edge_id <$> es) →
  Forall (λ e, edges_by_id net !! edge_id e = Some e) es →
  wf (erase_edges es net) ∧
  named_part (erase_edges es net) = named_part net ∧
  node_part (erase_edges es net) = node_part net ∧
  ∀ i, edges_by_id (erase_edges es net) !! i =
       if decide (i ∈ edge_id <$> es) then None else edges_by_id net !! i.
Proof.
  revert net. induction es as [|e es IH]; intros net Hwf Hnd Hlive.
  { do 3 (split; [done|]). intros i. rewrite decide_False; [done|].
    simpl. by intros ?%elem_of_nil. }
  rewrite fmap_cons in Hnd. apply NoDup_cons in Hnd as [Hne Hnd].
  apply Forall_cons in Hlive as [He Hlive].
  destruct (IH (erase_edge e net)) as (Hwf' & Hnamed & Hnode & Hedges).
  - by apply wf_erase_edge.
  - done.
  - apply Forall_forall. intros e' Hin.
    rewrite Forall_forall in Hlive. simpl.
    rewrite lookup_delete_ne; [by apply Hlive|].
    intros Heq. apply Hne. rewrite Heq. by apply list_elem_of_fmap_2.
  - unfold erase_edges in *. simpl.
    split; [done|]. split; [by rewrite Hnamed|]. split; [by rewrite Hnode|].
    intros i. rewrite Hedges. simpl. rewrite lookup_delete.
    destruct (decide (i ∈ edge_id <$> es)) as [Hin|Hout].
    + rewrite decide_True; [done|]. by right.
    + destruct (decide (edge_id e = i)) as [<-|Hi].
      * rewrite decide_True; [done|]. by left.
      * rewrite decide_False; [done|].
        intros [?|?]%elem_of_cons; [congruence|by apply Hout].
Qed.

Definition touches (i : Z) (e : edge) : Prop :=
  node_id (v1 e) = i ∨ node_id (v2 e) = i.

#[local] Instance touches_dec i e : Decision (touches i e).
Proof. unfold touches. apply _. Defined.

Lemma incident_spec i net :
  wf net →
  NoDup (edge_id <$> incident i net) ∧
  ∀ e, e ∈ incident i net ↔
       edges_by_id net !! edge_id e = Some e ∧ touches i e.
Proof.
  intros Hwf. apply (values_keyed edge_id (touches i)).
  intros k e Hk. by destruct (proj1 (wf_e _ Hwf) _ _ Hk).
Qed.

(** Erasing a live node: the node leaves the node index, and with it the
    edges that touch it leave the edge index. *)
Lemma erase_node_spec n net :
  wf net → nodes_by_id net !! node_id n = Some n →
  wf (erase_node n net) ∧
  named_part (erase_node n net) = named_part net ∧
  nodes_by_id (erase_node n net) = delete (node_id n) (nodes_by_id net) ∧
  max_node_id (erase_node n net) = max_node_id net ∧
  ∀ i, edges_by_id (erase_node n net) !! i =
       e ← edges_by_id net !! i;
       if decide (touches (node_id n) e) then None else Some e.
Proof.
  intros Hwf Hlive.
  destruct (incident_spec (node_id n) net Hwf) as [Hnd Hin].
  destruct (erase_edges_spec (incident (node_id n) net) net)
    as (Hwf' & Hnamed & Hnode & Hedges); [done|done| |].
  { apply Forall_forall. intros e He. by apply Hin in He as []. }
  unfold erase_node. fold (erase_edges (incident (node_id n) net) net).
  set (net1 := erase_edges (incident (node_id n) net) net) in *.
  injection Hnamed as Hma Hml Hli Hln Hai Han.
  injection Hnode as Hmn Hni Hnl Hna Hnn.
  assert (∀ i e, edges_by_id net1 !! i = Some e →
            edges_by_id net !! i = Some e ∧ ¬ touches (node_id n) e) as Hleft.
  { intros i e. rewrite Hedges. destruct (decide _) as [|Hout]; [done|].
    intros Hi. split; [done|]. intros Ht. apply Hout.
    destruct (proj1 (wf_e _ Hwf) _ _ Hi) as [<- _].
    by apply list_elem_of_fmap_2, Hin. }
  split; [|split; [|split; [|split]]]; simpl.
  - destruct Hwf' as [Hact Hlay (Hk & Hl & Ha & Hn) (He & Hel & Hen)
                        (Ho & Hi & Hal)].
    rewrite <- Hni in Hlive.
    split; simpl; try done.
    + split; [|split; [|split]].
      * intros i n'. rewrite lookup_delete. split_decide Hid; [done|].
        apply Hk.
      * intros l i n'. rewrite !lookup_delete. split_decide Hkey; [done|].
        intros Hn'. destruct (Hl _ _ _ Hn') as [-> Hlive'].
        split; [done|]. split_decide Hid; [|done].
        subst i. rewrite Hlive in Hlive'. by simplify_eq.
      * intros a i n'. rewrite !lookup_delete. split_decide Hkey; [done|].
        intros Hn'. destruct (Ha _ _ _ Hn') as [-> Hlive'].
        split; [done|]. split_decide Hid; [|done].
        subst i. rewrite Hlive in Hlive'. by simplify_eq.
      * intros l nm n'. rewrite !lookup_delete. split_decide Hkey; [done|].
        intros Hn'. destruct (Hn _ _ _ Hn') as (-> & -> & Hlive').
        do 2 (split; [done|]). split_decide Hid; [|done].
        rewrite <- Hid, Hlive in Hlive'. by simplify_eq.
    + split; [|split; [done|done]].
      intros i e Hi'. destruct (He i e Hi') as (? & ? & ? & ? & ? & ?).
      destruct (Hleft _ _ Hi') as [_ Hnt].
      repeat split; try done; rewrite lookup_delete_ne; try done;
        intros Heq; apply Hnt; [by left|by right].
    + assert (∀ x y, is_Some (edges_by_nodes net1 !! (x, y)) →
                x ≠ node_id n ∧ y ≠ node_id n) as Hfar.
      { intros x y [e Hxy]. destruct (Hen _ _ _ Hxy) as [Hlive' Hkey].
        destruct (Hleft _ _ Hlive') as [_ Hnt]. unfold touches in Hnt.
        destruct Hkey as [[-> ->]|(_ & -> & ->)]; split; intros Heq;
          apply Hnt; auto. }
      split; [|split].
      * intros x y n' Hxy. destruct (Ho _ _ _ Hxy) as [? Hj].
        split; [|done]. rewrite lookup_delete_ne; [done|].
        apply Hfar in Hj as []. done.
      * intros x y n' Hxy. destruct (Hi _ _ _ Hxy) as [? Hj].
        split; [|done]. rewrite lookup_delete_ne; [done|].
        apply Hfar in Hj as []. done.
      * intros x y n' Hxy. destruct (Hal _ _ _ Hxy) as [? Hj].
        split; [|done]. rewrite lookup_delete_ne; [done|].
        destruct Hj as [Hj|Hj]; apply Hfar in Hj as []; done.
  - unfold named_part. simpl. congruence.
  - by rewrite Hni.
  - done.
  - intros i. rewrite Hedges.
    destruct (edges_by_id net !! i) as [e|] eqn:Hi; simpl.
    + destruct (proj1 (wf_e _ Hwf) _ _ Hi) as [Hid _].
      destruct (decide (touches (node_id n) e)) as [Ht|Hnt].
      * rewrite decide_True; [done|]. rewrite <- Hid.
        apply list_elem_of_fmap_2, Hin. split; [|done]. by rewrite Hid.
      * rewrite decide_False; [done|].
        intros (e' & -> & [Hlive' Ht]%Hin)%list_elem_of_fmap.
        rewrite Hi in Hlive'. by simplify_eq.
    + by destruct (decide _).
Qed.

Definition erase_nodes (ns : list node) (net : MLNetwork) : MLNetwork :=
  foldl (λ net n, erase_node n net) net ns.

Definition touches_any (ids : list Z) (e : edge) : Prop :=
  node_id (v1 e) ∈ ids ∨ node_id (v2 e) ∈ ids.

#[local] Instance touches_any_dec ids e : Decision (touches_any ids e).
Proof. unfold touches_any. apply _. Defined.

Lemma erase_nodes_spec ns net :
  wf net → NoDup (node_id <$> ns) →
  Forall (λ n, nodes_by_id net !! node_id n = Some n) ns →
  wf (erase_nodes ns net) ∧
  named_part (erase_nodes ns net) = named_part net ∧
  max_node_id (erase_nodes ns net) = max_node_id net ∧
  (∀ i, nodes_by_id (erase_nodes ns net) !! i =
        if decide (i ∈ node_id <$> ns) then None else nodes_by_id net !! i) ∧
  (∀ i, edges_by_id (erase_nodes ns net) !! i =
        e ← edges_by_id net !! i;
        if decide (touches_any (node_id <$> ns) e) then None else Some e).
Proof.
  revert net. induction ns as [|n ns IH]; intros net Hwf Hnd Hlive.
  { do 3 (split; [done|]). split; intros i.
    - rewrite decide_False; [done|]. simpl. by intros ?%elem_of_nil.
    - simpl. by destruct (edges_by_id net !! i). }
  rewrite fmap_cons in Hnd. apply NoDup_cons in Hnd as [Hne Hnd].
  apply Forall_cons in Hlive as [Hn Hlive].
  destruct (erase_node_spec n net Hwf Hn)
    as (Hwf1 & Hnamed1 & Hnodes1 & Hmax1 & Hedges1).
  destruct (IH (erase_node n net)) as (Hwf' & Hnamed & Hmax & Hnodes & Hedges).
  - done.
  - done.
  - apply Forall_forall. intros n' Hin.
    rewrite Forall_forall in Hlive. rewrite Hnodes1.
    rewrite lookup_delete_ne; [by apply Hlive|].
    intros Heq. apply Hne. rewrite Heq. by apply list_elem_of_fmap_2.
  - unfold erase_nodes in *. cbn [foldl].
    split; [done|]. split; [by rewrite Hnamed|]. split; [by rewrite Hmax|].
    split; intros i.
    + rewrite Hnodes, Hnodes1, lookup_delete. rewrite fmap_cons.
      destruct (decide (i ∈ node_id <$> ns)) as [Hin|Hout].
      * rewrite decide_True; [done|]. by right.
      * destruct (decide (node_id n = i)) as [<-|Hi].
        -- rewrite decide_True; [done|]. by left.
        -- rewrite decide_False; [done|].
           intros [?|?]%elem_of_cons; [congruence|by apply Hout].
    + rewrite Hedges, Hedges1, fmap_cons.
      destruct (edges_by_id net !! i) as [e|]; [simpl|done].
      unfold touches, touches_any.
      destruct (decide (node_id (v1 e) = node_id n ∨
                        node_id (v2 e) = node_id n)) as [Ht|Hnt]; simpl.
      * rewrite decide_True; [done|].
        destruct Ht as [->| ->]; [left|right]; by left.
      * destruct (decide (node_id (v1 e) ∈ node_id <$> ns ∨
                          node_id (v2 e) ∈ node_id <$> ns)) as [Ht|Hnt'].
        -- rewrite decide_True; [done|].
           destruct Ht; [left|right]; by right.
        -- rewrite decide_False; [done|].
           intros [[?|?]%elem_of_cons|[?|?]%elem_of_cons]; tauto.
Qed.

(** The nodes selected from the node index by a property, as [owned] and
    [located] select them. *)
Lemma selected_spec (P : node → Prop) `{!∀ n, Decision (P n)} net :
  wf net →
  NoDup (node_id <$> filter P (map_to_list (nodes_by_id net)).*2) ∧
  ∀ n, n ∈ filter P (map_to_list (nodes_by_id net)).*2 ↔
       nodes_by_id net !! node_id n = Some n ∧ P n.
Proof.
  intros Hwf. apply (values_keyed node_id P).
  intros k n Hk. by destruct (proj1 (wf_n _ Hwf) _ _ Hk).
Qed.

(** Erasing the live nodes with a property: they leave the node index, and
    the edges with such an endpoint leave the edge index. *)
Lemma erase_selected_spec (P : node → Prop) `{!∀ n, Decision (P n)} net :
  wf net →
  let net' :=
    erase_nodes (filter P (map_to_list (nodes_by_id net)).*2) net in
  wf net' ∧ named_part net' = named_part net ∧
  (∀ i, nodes_by_id net' !! i =
        n ← nodes_by_id net !! i; if decide (P n) then None else Some n) ∧
  (∀ i, edges_by_id net' !! i =
        e ← edges_by_id net !! i;
        if decide (P (v1 e) ∨ P (v2 e)) then None else Some e).
Proof.
  intros Hwf net'. destruct (selected_spec P net Hwf) as [Hnd Hin].
  destruct (erase_nodes_spec
              (filter P (map_to_list (nodes_by_id net)).*2) net)
    as (Hwf' & Hnamed & Hmax & Hnodes & Hedges); [done|done| |].
  { apply Forall_forall. intros n Hn. by apply Hin in Hn as []. }
  assert (∀ n, nodes_by_id net !! node_id n = Some n →
            node_id n ∈
              node_id <$> filter P (map_to_list (nodes_by_id net)).*2 ↔ P n)
    as Hsel.
  { intros n Hn. split.
    - intros (n' & Heq & [Hlive' HP]%Hin)%list_elem_of_fmap.
      rewrite <- Heq, Hn in Hlive'. by simplify_eq.
    - intros HP. apply list_elem_of_fmap_2, Hin. done. }
  do 2 (split; [done|]). split; intros i.
  - fold net' in Hnodes. rewrite Hnodes.
    destruct (nodes_by_id net !! i) as [n|] eqn:Hi; simpl.
    + destruct (proj1 (wf_n _ Hwf) _ _ Hi) as [<- _].
      destruct (decide (P n)) as [HP|HP].
      * rewrite decide_True; [done|]. by apply Hsel.
      * rewrite decide_False; [done|]. by rewrite Hsel.
    + by destruct (decide _).
  - fold net' in Hedges. rewrite Hedges.
    destruct (edges_by_id net !! i) as [e|] eqn:Hi; [simpl|done].
    destruct (proj1 (wf_e _ Hwf) _ _ Hi) as (_ & _ & H1 & H2 & _).
    unfold touches_any.
    destruct (decide (P (v1 e) ∨ P (v2 e))) as [HP|HP].
    + rewrite decide_True; [done|]. by rewrite !Hsel.
    + rewrite decide_False; [done|]. by rewrite !Hsel.
Qed.

Definition node_of (a : actor) (n : node) : Prop :=
  actor_id (node_actor n) = actor_id a.

Definition node_in (l : layer) (n : node) : Prop :=
  layer_id (node_layer n) = layer_id l.

#[local] Instance node_of_dec a n : Decision (node_of a n) :=
  decide (actor_id (node_actor n) = actor_id a).

#[local] Instance node_in_dec l n : Decision (node_in l n) :=
  decide (layer_id (node_layer n) = layer_id l).

Lemma erase_actor_spec a net :
  wf net → actors_by_id net !! actor_id a = Some a →
  wf (erase_actor a net) ∧
  actors_by_id (erase_actor a net) = delete (actor_id a) (actors_by_id net) ∧
  actors_by_name (erase_actor a net) =
    delete (actor_name a) (actors_by_name net) ∧
  (∀ i, nodes_by_id (erase_actor a net) !! i =
        n ← nodes_by_id net !! i;
        if decide (node_of a n) then None else Some n) ∧
  (∀ i, edges_by_id (erase_actor a net) !! i =
        e ← edges_by_id net !! i;
        if decide (node_of a (v1 e) ∨ node_of a (v2 e)) then None
        else Some e).
Proof.
  intros Hwf Hlive.
  destruct (erase_selected_spec
              (λ n, actor_id (node_actor n) = actor_id a) net Hwf)
    as (Hwf' & Hnamed & Hnodes & Hedges).
  unfold erase_nodes in *. unfold erase_actor, owned.
  set (net1 := foldl _ net _) in *.
  injection Hnamed as Hma Hml Hli Hln Hai Han.
  split; [|by rewrite Hai, Han].
  destruct Hwf' as [Hact Hlay Hn He Hj]. split; try done. simpl.
  apply (wf_named_delete actor_id actor_name); [done|]. by rewrite Hai.
Qed.

Lemma erase_layer_spec l net :
  wf net → layers_by_id net !! layer_id l = Some l →
  wf (erase_layer l net) ∧
  layers_by_id (erase_layer l net) = delete (layer_id l) (layers_by_id net) ∧
  layers_by_name (erase_layer l net) =
    delete (layer_name l) (layers_by_name net) ∧
  (∀ i, nodes_by_id (erase_layer l net) !! i =
        n ← nodes_by_id net !! i;
        if decide (node_in l n) then None else Some n) ∧
  (∀ i, edges_by_id (erase_layer l net) !! i =
        e ← edges_by_id net !! i;
        if decide (node_in l (v1 e) ∨ node_in l (v2 e)) then None
        else Some e).
Proof.
  intros Hwf Hlive.
  destruct (erase_selected_spec
              (λ n, layer_id (node_layer n) = layer_id l) net Hwf)
    as (Hwf' & Hnamed & Hnodes & Hedges).
  unfold erase_nodes in *. unfold erase_layer, located.
  set (net1 := foldl _ net _) in *.
  injection Hnamed as Hma Hml Hli Hln Hai Han.
  split; [|by rewrite Hli, Hln].
  destruct Hwf' as [Hact Hlay Hn He Hj]. split; try done. simpl.
  apply (wf_named_delete layer_id layer_name); [done|]. by rewrite Hli.
Qed.

(** The networks that calls build from the empty network.  An erase call
    is given an entity of the network. *)
Inductive built : MLNetwork → Prop :=
  | built_create : built create
  | built_add_actor name net :
      built net → built (add_actor name net).2
  | built_add_layer name d net :
      built net → built (add_layer name d net).2
  | built_set_directed l1 l2 d net :
      built net → built (set_directed l1 l2 d net)
  | built_add_node name a l net :
      built net → built (add_node name a l net).2
  | built_add_edge n1 n2 net :
      built net → built (add_edge n1 n2 net).2
  | built_erase_edge e net :
      built net → edges_by_id net !! edge_id e = Some e →
      built (erase_edge e net)
  | built_erase_node n net :
      built net → nodes_by_id net !! node_id n = Some n →
      built (erase_node n net)
  | built_erase_actor a net :
      built net → actors_by_id net !! actor_id a = Some a →
      built (erase_actor a net)
  | built_erase_layer l net :
      built net → layers_by_id net !! layer_id l = Some l →
      built (erase_layer l net).

Lemma built_wf net : built net → wf net.
Proof.
  induction 1.
  - apply wf_create.
  - by apply wf_add_actor.
  - by apply wf_add_layer.
  - by apply wf_set_directed.
  - by apply wf_add_node.
  - by apply wf_add_edge.
  - by apply wf_erase_edge.
  - by apply erase_node_spec.
  - by apply erase_actor_spec.
  - by apply erase_layer_spec.
Qed.

(** No index and no adjacency store of the network refers to the actor, to
    a node of the actor or to an edge at such a node. *)
Record unreferenced (a : actor) (net : MLNetwork) : Prop := {
  free_actors_by_id :
    actors_by_id net !! actor_id a = None ∧
    ∀ i a', actors_by_id net !! i = Some a' → actor_id a' ≠ actor_id a;
  free_actors_by_name :
    ∀ nm a', actors_by_name net !! nm = Some a' → actor_id a' ≠ actor_id a;
  free_nodes_by_id :
    ∀ i n, nodes_by_id net !! i = Some n → ¬ node_of a n;
  free_nodes_by_layer_and_id :
    ∀ k n, nodes_by_layer_and_id net !! k = Some n → ¬ node_of a n;
  free_nodes_by_actor_and_id :
    ∀ k n, nodes_by_actor_and_id net !! k = Some n →
           ¬ node_of a n ∧ k.1 ≠ actor_id a;
  free_nodes_by_layer_and_name :
    ∀ k n, nodes_by_layer_and_name net !! k = Some n → ¬ node_of a n;
  free_edges_by_id :
    ∀ i e, edges_by_id net !! i = Some e →
           ¬ node_of a (v1 e) ∧ ¬ node_of a (v2 e);
  free_edges_by_layers_and_id :
    ∀ k e, edges_by_layers_and_id net !! k = Some e →
           ¬ node_of a (v1 e) ∧ ¬ node_of a (v2 e);
  free_edges_by_nodes :
    ∀ k e, edges_by_nodes net !! k = Some e →
           ¬ node_of a (v1 e) ∧ ¬ node_of a (v2 e);
  free_neighbors_out :
    ∀ x y n, neighbors_out net !! (x, y) = Some n →
             ¬ node_of a n ∧
             ∃ m, nodes_by_id net !! x = Some m ∧ ¬ node_of a m;
  free_neighbors_in :
    ∀ x y n, neighbors_in net !! (x, y) = Some n →
             ¬ node_of a n ∧
             ∃ m, nodes_by_id net !! x = Some m ∧ ¬ node_of a m;
  free_neighbors_all :
    ∀ x y n, neighbors_all net !! (x, y) = Some n →
             ¬ node_of a n ∧
             ∃ m, nodes_by_id net !! x = Some m ∧ ¬ node_of a m
}.

Lemma wf_unreferenced a net :
  wf net → actors_by_id net !! actor_id a = None →
  (∀ i n, nodes_by_id net !! i = Some n → ¬ node_of a n) →
  unreferenced a net.
Proof.
  intros [[Hak Han] Hlay (Hk & Hl & Ha & Hn) (He & Hel & Hen) (Ho & Hi & Hal)]
    Hgone Hnodes.
  assert (∀ i e, edges_by_id net !! i = Some e →
            ¬ node_of a (v1 e) ∧ ¬ node_of a (v2 e)) as Hedges.
  { intros i e Hi'. destruct (He _ _ Hi') as (_ & _ & H1 & H2 & _).
    split; eapply Hnodes; eauto. }
  assert (∀ x y, is_Some (edges_by_nodes net !! (x, y)) →
            (∃ m, nodes_by_id net !! x = Some m ∧ ¬ node_of a m) ∧
            (∃ m, nodes_by_id net !! y = Some m ∧ ¬ node_of a m)) as Hends.
  { intros x y [e Hxy]. destruct (Hen _ _ _ Hxy) as [Hlive Hkey].
    destruct (He _ _ Hlive) as (_ & _ & H1 & H2 & _).
    destruct Hkey as [[-> ->]|(_ & -> & ->)]; split; eauto. }
  split.
  - split; [done|]. intros i a' Hi' Heq.
    destruct (Hak _ _ Hi') as (Hid & _). congruence.
  - intros nm a' Hnm Heq. destruct (Han _ _ Hnm) as [_ Hlive]. congruence.
  - done.
  - intros [l i] n Hk'. destruct (Hl _ _ _ Hk'). eauto.
  - intros [a' i] n Hk'. destruct (Ha _ _ _ Hk') as [-> Hlive].
    assert (¬ node_of a n) by eauto. done.
  - intros [l nm] n Hk'. destruct (Hn _ _ _ Hk') as (_ & _ & ?). eauto.
  - done.
  - intros [[l1 l2] i] e Hk'. destruct (Hel _ _ _ _ Hk') as (_ & _ & ?). eauto.
  - intros [x y] e Hk'. destruct (Hen _ _ _ Hk') as [? _]. eauto.
  - intros x y n Hxy. destruct (Ho _ _ _ Hxy) as [? Hj].
    split; [eauto|]. by apply Hends in Hj as [].
  - intros x y n Hxy. destruct (Hi _ _ _ Hxy) as [? Hj].
    split; [eauto|]. by apply Hends in Hj as [].
  - intros x y n Hxy. destruct (Hal _ _ _ Hxy) as [? [Hj|Hj]];
      (split; [eauto|]); by apply Hends in Hj as [].
Qed.

(** A small network: one actor, one undirected layer, two nodes and the
    edge between them. *)
Definition a_ex : actor := mkActor 1 "a1".
Definition l_ex : layer := mkLayer 1 "l1".
Definition n1_ex : node := mkNode 1 "n1" a_ex l_ex.
Definition n2_ex : node := mkNode 2 "n2" a_ex l_ex.
Definition e_ex : edge := mkEdge 1 n1_ex n2_ex false.

Definition net_ex : MLNetwork :=
  (add_edge n1_ex n2_ex
     (add_node "n2" a_ex l_ex
        (add_node "n1" a_ex l_ex
           (add_layer "l1" false (add_actor "a1" create).2).2).2).2).2.

(** C6: in a network built by calls, [add_edge n1 n2] throws
    DuplicateElementException when a live edge joins the same effective
    endpoint pair, that is [(n1, n2)], or also [(n2, n1)] when the layer
    pair of [n1] and [n2] is undirected; the network returned with the
    exception is the network of the call, so no index is modified. *)
Theorem add_edge_duplicate (net : MLNetwork) (n1 n2 : node) (e : edge) :
  built net →
  edges_by_id net !! edge_id e = Some e →
  (v1 e = n1 ∧ v2 e = n2) ∨
  (is_directed (node_layer n1) (node_layer n2) net = false ∧
   v1 e = n2 ∧ v2 e = n1) →
  add_edge n1 n2 net = (Throw DuplicateElementException, net).
Proof.
  intros Hwf%built_wf Hlive Hpair.
  destruct (proj1 (wf_e _ Hwf) _ _ Hlive) as (_ & _ & H1 & H2 & H12 & _).
  unfold add_edge.
  assert (nodes_by_id net !! node_id n1 = Some n1 ∧
          nodes_by_id net !! node_id n2 = Some n2) as [Hn1 Hn2].
  { destruct Hpair as [[<- <-]|(_ & <- & <-)]; done. }
  rewrite !bool_decide_eq_true_2 by done. cbn [andb].
  assert (duplicate_edge n1 n2
            (is_directed (node_layer n1) (node_layer n2) net) net = true)
    as ->; [|done].
  unfold duplicate_edge, get_edge.
  destruct Hpair as [[<- <-]|(-> & <- & <-)].
  - rewrite H12. by rewrite bool_decide_eq_true_2.
  - rewrite H12. cbn [negb andb].
    rewrite (bool_decide_eq_true_2 (is_Some (Some e))) by done.
    by rewrite orb_true_r.
Qed.

Lemma add_edge_duplicate_witness :
  add_edge n2_ex n1_ex net_ex = (Throw DuplicateElementException, net_ex).
Proof.
  apply (add_edge_duplicate net_ex n2_ex n1_ex e_ex).
  - apply built_add_edge, built_add_node, built_add_node, built_add_layer,
      built_add_actor, built_create.
  - vm_compute. reflexivity.
  - right. vm_compute. repeat split; reflexivity.
Defined.

(** C7: in a network built by calls, [add_actor name] with the name of a
    live actor, and [add_layer name d] with the name of a live layer, throw
    DuplicateElementException; the network returned with the exception is
    the network of the call, indexes and counters unchanged. *)
Theorem add_duplicate_name (net : MLNetwork) (name : string) (d : bool) :
  built net →
  ((∃ a, actors_by_id net !! actor_id a = Some a ∧ actor_name a = name) →
   add_actor name net = (Throw DuplicateElementException, net)) ∧
  ((∃ l, layers_by_id net !! layer_id l = Some l ∧ layer_name l = name) →
   add_layer name d net = (Throw DuplicateElementException, net)).
Proof.
  intros Hwf%built_wf. split.
  - intros (a & Hlive & <-).
    destruct (proj1 (wf_a _ Hwf) _ _ Hlive) as (_ & _ & Hname).
    unfold add_actor. by rewrite Hname.
  - intros (l & Hlive & <-).
    destruct (proj1 (wf_l _ Hwf) _ _ Hlive) as (_ & _ & Hname).
    unfold add_layer. by rewrite Hname.
Qed.

Lemma add_duplicate_name_witness :
  add_actor "a1" net_ex = (Throw DuplicateElementException, net_ex) ∧
  add_layer "l1" true net_ex = (Throw DuplicateElementException, net_ex).
Proof.
  assert (built net_ex) as Hr.
  { apply built_add_edge, built_add_node, built_add_node, built_add_layer,
      built_add_actor, built_create. }
  split.
  - apply (proj1 (add_duplicate_name net_ex "a1" true Hr)).
    exists a_ex. vm_compute. split; reflexivity.
  - apply (proj2 (add_duplicate_name net_ex "l1" true Hr)).
    exists l_ex. vm_compute. split; reflexivity.
Defined.

(** C9: in a network built by calls, erasing a live actor [a] removes [a]
    from the actor collection, whose size drops by 1, removes exactly the
    nodes of [a] from the node collection and exactly the edges at a node of
    [a] from the edge collection, and afterwards no index and no adjacency
    store refers to [a], to one of its nodes or to one of those edges. *)
Theorem erase_actor_cascade (net : MLNetwork) (a : actor) :
  built net →
  actors_by_id net !! actor_id a = Some a →
  actors_by_id (erase_actor a net) = delete (actor_id a) (actors_by_id net) ∧
  S (base.size (actors_by_id (erase_actor a net))) =
    base.size (actors_by_id net) ∧
  (∀ i, nodes_by_id (erase_actor a net) !! i =
        n ← nodes_by_id net !! i;
        if decide (node_of a n) then None else Some n) ∧
  (∀ i, edges_by_id (erase_actor a net) !! i =
        e ← edges_by_id net !! i;
        if decide (node_of a (v1 e) ∨ node_of a (v2 e)) then None
        else Some e) ∧
  unreferenced a (erase_actor a net).
Proof.
  intros Hwf%built_wf Hlive.
  destruct (erase_actor_spec a net Hwf Hlive)
    as (Hwf' & Hactors & Hnames & Hnodes & Hedges).
  split; [done|]. split; [|split; [done|split; [done|]]].
  - rewrite Hactors, map_size_delete_Some by done.
    assert (base.size (actors_by_id net) ≠ 0%nat) as Hpos; [|lia].
    intros Hempty%map_size_empty_inv. by rewrite Hempty in Hlive.
  - apply wf_unreferenced; [done| |].
    + by rewrite Hactors, lookup_delete_eq.
    + intros i n. rewrite Hnodes.
      destruct (nodes_by_id net !! i) as [n'|]; [simpl|done].
      destruct (decide (node_of a n')); [done|]. by intros [= <-].
Qed.

Lemma erase_actor_cascade_witness :
  base.size (actors_by_id net_ex) = 1%nat ∧
  base.size (actors_by_id (erase_actor a_ex net_ex)) = 0%nat ∧
  nodes_by_id (erase_actor a_ex net_ex) !! 1 = None ∧
  edges_by_id (erase_actor a_ex net_ex) !! 1 = None ∧
  unreferenced a_ex (erase_actor a_ex net_ex).
Proof.
  assert (built net_ex) as Hr.
  { apply built_add_edge, built_add_node, built_add_node, built_add_layer,
      built_add_actor, built_create. }
  assert (actors_by_id net_ex !! actor_id a_ex = Some a_ex) as Hlive.
  { vm_compute. reflexivity. }
  destruct (erase_actor_cascade net_ex a_ex Hr Hlive)
    as (_ & Hsize & Hnodes & Hedges & Hfree).
  split; [vm_compute; reflexivity|].
  split; [|split; [|split; [|exact Hfree]]].
  - assert (base.size (actors_by_id net_ex) = 1%nat) as Hone
      by (vm_compute; reflexivity).
    rewrite Hone in Hsize. lia.
  - rewrite Hnodes. vm_compute. reflexivity.
  - rewrite Hedges. vm_compute. reflexivity.
Defined.

(** The scenario of [testMLNetwork.cpp]: the counts of actors, layers,
    nodes and edges after the network is built, and after erasing a node,
    an edge, an actor and a layer in turn. *)
Example test_network :
  match scenario create with
  | (Ok (a1, l1, n, e), net) =>
      counts net = (3, 3, 9, 6)%nat ∧
      counts (erase_node n net) = (3, 3, 8, 4)%nat ∧
      counts (erase_edge e (erase_node n net)) = (3, 3, 8, 3)%nat ∧
      counts (erase_actor a1 (erase_edge e (erase_node n net))) =
        (2, 3, 5, 1)%nat ∧
      counts (erase_layer l1
                (erase_actor a1 (erase_edge e (erase_node n net)))) =
        (2, 2, 3, 1)%nat
  | _ => False
  end.
Proof. vm_compute. repeat split; reflexivity. Qed.

End MLNetFacts.

(** ** Facts on the utilities *)

Module UtilsFacts.
Import Utils.

Section sets.
Context `{Countable T}.
Implicit Types (result : gset T) (order : list T).

Lemma count_one (set2 : gset T) (l : T) : count set2 l = 1 ↔ l ∈ set2.
Proof. unfold count. case_decide; split; (done || lia). Qed.

Lemma intersect_loop order (set2 : gset T) result :
  foldl (λ result l,
           if bool_decide (count set2 l = 1) then {[l]} ∪ result else result)
    result order =
  result ∪ (list_to_set order ∩ set2).
Proof.
  revert result. induction order as [|l order IH]; intros result; simpl.
  - set_solver.
  - rewrite IH. case_bool_decide as Hl; rewrite count_one in Hl; set_solver.
Qed.

(** X13: [intersect] returns the elements that are in both sets, whatever
    the order in which the loop meets the elements of the first. *)
Theorem intersect_spec (order1 : list T) (set1 set2 : gset T) :
  intersect_in order1 set2 = list_to_set order1 ∩ set2 ∧
  intersect set1 set2 = set1 ∩ set2.
Proof.
  assert (∀ order, intersect_in order set2 = list_to_set order ∩ set2) as Hin.
  { intros order. unfold intersect_in. rewrite intersect_loop. set_solver. }
  split; [apply Hin|]. unfold intersect. rewrite Hin.
  by rewrite list_to_set_elements_L.
Qed.

Lemma insert_range_spec order result :
  insert_range order result = result ∪ list_to_set order.
Proof.
  unfold insert_range. revert result.
  induction order as [|l order IH]; intros result; simpl.
  - set_solver.
  - rewrite IH. set_solver.
Qed.

(** X14: [set_union] returns the elements that are in one of the sets,
    whatever the order in which the range inserts meet them. *)
Theorem set_union_spec (order1 order2 : list T) (set1 set2 : gset T) :
  set_union_in order1 order2 =
    (list_to_set order1 ∪ list_to_set order2 : gset T) ∧
  set_union set1 set2 = set1 ∪ set2.
Proof.
  assert (∀ o1 o2, set_union_in o1 o2 =
                   (list_to_set o1 ∪ list_to_set o2 : gset T)) as Hin.
  { intros o1 o2. unfold set_union_in. rewrite !insert_range_spec.
    set_solver. }
  split; [apply Hin|]. unfold set_union. rewrite Hin.
  by rewrite !list_to_set_elements_L.
Qed.

End sets.

Example intersect_ex :
  intersect ({[1; 2; 3]} : gset Z) {[2; 3; 4]} = {[2; 3]} ∧
  set_union ({[1; 2]} : gset Z) {[2; 4]} = {[1; 2; 4]}.
Proof. split; by vm_compute. Qed.

Section print.
Context {T : Type}.
Variable show : T → string.

Lemma append_assoc (a b c : string) : (a +:+ b) +:+ c = a +:+ b +:+ c.
Proof.
  induction a as [|x a IH]; [done|].
  change (String x ((a +:+ b) +:+ c) = String x (a +:+ b +:+ c)).
  by rewrite IH.
Qed.

Lemma append_nil_r (a : string) : a +:+ "" = a.
Proof.
  induction a as [|x a IH]; [done|].
  change (String x (a +:+ "") = String x a). by rewrite IH.
Qed.

(** The elements after the first, each behind its comma. *)
Fixpoint rest (l : list T) : string :=
  match l with
  | [] => ""
  | x :: r => "," +:+ show x +:+ rest r
  end.

Lemma print_rest (l : list T) (f : nat → nat) cout :
  (∀ i, f i ≠ 0%nat) →
  foldl (print_elem show) cout (imap (λ i x, (f i, x)) l) = cout +:+ rest l.
Proof.
  revert f cout. induction l as [|x l IH]; intros f cout Hf; simpl.
  - by rewrite append_nil_r.
  - unfold print_elem at 2. simpl.
    rewrite bool_decide_eq_true_2 by apply Hf.
    rewrite (IH (f ∘ S)) by (intros i; apply Hf).
    by rewrite !append_assoc.
Qed.

Lemma concat_rest x (l : list T) :
  String.concat "," (show <$> x :: l) = show x +:+ rest l.
Proof.
  revert x. induction l as [|y l IH]; intros x.
  - simpl. by rewrite append_nil_r.
  - change (String.concat "," (show <$> x :: y :: l))
      with (show x +:+ "," +:+ String.concat "," (show <$> y :: l)).
    by rewrite IH.
Qed.

(** X15: [print_set] writes the elements in their order with a comma
    between two of them, none before the first or after the last, and
    ends the line; for an empty set it writes the end of line only. *)
Theorem print_set_spec (input : list T) (cout : string) :
  print_set show input cout =
  cout +:+ String.concat "," (show <$> input) +:+ endl.
Proof.
  unfold print_set. destruct input as [|x l].
  - simpl. done.
  - rewrite concat_rest. simpl. unfold print_elem at 2. simpl.
    rewrite (print_rest l S) by done.
    by rewrite !append_assoc.
Qed.

End print.

Example print_set_ex :
  print_set (λ b : bool, if b then "1" else "0") [false; true; true] "" =
  "0,1,1" +:+ endl.
Proof. reflexivity. Qed.

End UtilsFacts.
